(** * A local DNS proxy: buffer pool, TCP listener and DNS53 retry loop

    Shallow embedding of
    - [proxy/bufferpool.go]  (module [BufferPool]),
    - [proxy/tcp.go]         (module [TCP]),
    - the response-correlation loop of the DNS53 resolver (module [DNS53]),
    - the accept loop of [proxy/tcp.go] (module [Listener]),
    - [endpointAddrs] of [resolver/endpoint/transport_h2.go]
      (module [Endpoint]),
    - the latency measurer, buffer pools, counting handler and mock TCP
      server of the test utilities (module [Testutil]),
    together with the properties stated about them.  Modules [Stream],
    [Accounting], [Schedules], [Outcomes] and [Dispatch] hold the
    vocabulary in which runs of a connection are described. *)

From Stdlib Require Import String ZArith List Bool Lia Arith.
From Stdlib Require Import Strings.Byte.
Import ListNotations.

Local Open Scope Z_scope.

(** ** Go byte slices *)

Module Go.

(** A [[]byte] whose window starts at the first cell of its backing array:
    [backing] is the whole array (so its length is the capacity) and [len]
    is the slice length.  The code under study only ever re-slices with
    [s[:n]], which keeps that shape. *)
Record slice := mkSlice { backing : list byte; len : Z }.

Definition cap (s : slice) : Z := Z.of_nat (length (backing s)).

(** [make([]byte, n)]: length and capacity [n], zeroed. *)
Definition make (n : Z) : slice :=
  mkSlice (repeat "000"%byte (Z.to_nat n)) n.

(** The bytes visible through the slice. *)
Definition bytes (s : slice) : list byte :=
  firstn (Z.to_nat (len s)) (backing s).

(** [s[:n]]; Go panics unless [0 <= n <= cap(s)], rendered as [None]. *)
Definition upto (s : slice) (n : Z) : option slice :=
  if (0 <=? n) && (n <=? cap s) then Some (mkSlice (backing s) n) else None.

(** Storing [bs] at the front of the backing array, which is what a callee
    handed the slice does when it fills it.  A callee cannot write past the
    capacity, so at most [cap s] bytes land; the slice header is unchanged. *)
Definition store (s : slice) (bs : list byte) : slice :=
  let bs' := firstn (length (backing s)) bs in
  mkSlice (bs' ++ skipn (length bs') (backing s)) (len s).

(** [binary.BigEndian.Uint16] on the two bytes read, and its inverse
    [binary.BigEndian.PutUint16]. *)
Definition byteZ (b : byte) : Z := Z.of_N (Byte.to_N b).

Definition uint16be (bs : list byte) : Z :=
  match bs with
  | [hi; lo] => 256 * byteZ hi + byteZ lo
  | _ => 0
  end.

Definition Zbyte (z : Z) : byte :=
  match Byte.of_N (Z.to_N (z mod 256)) with
  | Some b => b
  | None => "000"%byte
  end.

Definition putUint16be (v : Z) : list byte := [Zbyte (v / 256); Zbyte v].

(** The conversion [uint16(n)] of an [int]. *)
Definition uint16 (n : Z) : Z := n mod 65536.

End Go.

(** ** proxy/bufferpool.go *)

Module BufferPool.
Import Go.

(** [sync.Pool] holding [*[]byte]: the items currently pooled and the [New]
    function.  The pool stores slice values; a client that kept the pointer
    and overwrote the pointee after [Put] is outside this model. *)
Record syncPool := mkPool { items : list slice; New : unit -> slice }.

Fixpoint remove_nth (i : nat) (l : list slice) : list slice :=
  match l, i with
  | [], _ => []
  | _ :: l', O => l'
  | x :: l', S i' => x :: remove_nth i' l'
  end.

(** [sync.Pool.Get]: "selects an arbitrary item from the Pool, removes it
    and returns it; Get may choose to ignore the pool and treat it as
    empty", in which case [New] is called.  The arbitrary choice is the
    argument [c]: the index of the item taken, any index past the end
    meaning that the pool was treated as empty. *)
Definition poolGet (c : nat) (p : syncPool) : slice * syncPool :=
  match nth_error (items p) c with
  | Some x => (x, mkPool (remove_nth c (items p)) (New p))
  | None => (New p tt, p)
  end.

(** [sync.Pool.Put]. *)
Definition poolPut (x : slice) (p : syncPool) : syncPool :=
  mkPool (x :: items p) (New p).

Record TieredBufferPool := mkTiered {
  small : syncPool;   (* 512 bytes *)
  medium : syncPool;  (* 4096 bytes *)
  large : syncPool    (* 65536 bytes *)
}.

Definition NewTieredBufferPool : TieredBufferPool :=
  mkTiered (mkPool [] (fun _ => make 512))
           (mkPool [] (fun _ => make 4096))
           (mkPool [] (fun _ => make 65536)).

(** [func (p *TieredBufferPool) Get(size int) *[]byte] *)
Definition Get (c : nat) (size : Z) (p : TieredBufferPool)
  : slice * TieredBufferPool :=
  if size <=? 512 then
    let (b, s) := poolGet c (small p) in (b, mkTiered s (medium p) (large p))
  else if size <=? 4096 then
    let (b, m) := poolGet c (medium p) in (b, mkTiered (small p) m (large p))
  else
    let (b, l) := poolGet c (large p) in (b, mkTiered (small p) (medium p) l).

(** [func (p *TieredBufferPool) Put(buf *[]byte)]; [None] is the nil
    pointer. *)
Definition Put (buf : option slice) (p : TieredBufferPool) : TieredBufferPool :=
  match buf with
  | None => p
  | Some b =>
      if cap b =? 512 then mkTiered (poolPut b (small p)) (medium p) (large p)
      else if cap b =? 4096 then mkTiered (small p) (poolPut b (medium p)) (large p)
      else if cap b =? 65536 then mkTiered (small p) (medium p) (poolPut b (large p))
      else p
  end.

(** [func (p *TieredBufferPool) GetLarge() *[]byte] *)
Definition GetLarge (c : nat) (p : TieredBufferPool) : slice * TieredBufferPool :=
  let (b, l) := poolGet c (large p) in (b, mkTiered (small p) (medium p) l).

(** Client operations on a pool, and the pools they can produce. *)
Inductive op :=
| OpGet (c : nat) (size : Z)
| OpGetLarge (c : nat)
| OpPut (buf : option slice).

Definition apply (o : op) (p : TieredBufferPool) : TieredBufferPool :=
  match o with
  | OpGet c size => snd (Get c size p)
  | OpGetLarge c => snd (GetLarge c p)
  | OpPut buf => Put buf p
  end.

Definition after (ops : list op) : TieredBufferPool :=
  fold_left (fun p o => apply o p) ops NewTieredBufferPool.

(** The tier a request of [size] bytes is served from. *)
Inductive tier := Small | Medium | Large.

Definition tierOf (size : Z) : tier :=
  if size <=? 512 then Small else if size <=? 4096 then Medium else Large.

Definition tierCap (t : tier) : Z :=
  match t with Small => 512 | Medium => 4096 | Large => 65536 end.

Definition tierPool (t : tier) (p : TieredBufferPool) : syncPool :=
  match t with Small => small p | Medium => medium p | Large => large p end.

(** [Put] placed [b] on the free list of tier [t], resp. left that tier as
    it was. *)
Definition returnedTo (b : slice) (t : tier) (p p' : TieredBufferPool) : Prop :=
  items (tierPool t p') = b :: items (tierPool t p).

Definition untouched (t : tier) (p p' : TieredBufferPool) : Prop :=
  tierPool t p' = tierPool t p.

(** Each tier only hands out buffers of its own capacity. *)
Definition poolOf (n : Z) (p : syncPool) : Prop :=
  Forall (fun b => cap b = n) (items p) /\ cap (New p tt) = n.

Definition wf (p : TieredBufferPool) : Prop :=
  poolOf 512 (small p) /\ poolOf 4096 (medium p) /\ poolOf 65536 (large p).

End BufferPool.

(** ** proxy/tcp.go *)

Module TCP.
Import Go BufferPool.

Definition maxTCPSize : Z := 65535.

(** *** Errors and the values passed around *)

(** Go errors are compared by identity; each constructor is one identity.
    [ErrExternal] stands for every error value made outside [tcp.go] (by the
    socket, the resolver or the parser). *)
Inductive error :=
| EOF                                (* io.EOF *)
| ErrUnexpectedEOF                   (* io.ErrUnexpectedEOF *)
| ErrClosed                          (* "use of closed network connection" *)
| ErrExternal (msg : string)
| ErrMessageTooLarge                 (* errors.New("message too large") *)
| ErrTCPRead (e : error)             (* fmt.Errorf("TCP read: %v", err) *)
| ErrQueryTooSmall (qsize : Z)       (* fmt.Errorf("query too small: %d", qsize) *)
| ErrPanic (r : string) (stack : string).
                                     (* fmt.Errorf("panic: %v: %s", r, stack) *)

Definition IP := list byte.

(** Modelled from the spec: the type [query.Query] is declared outside the
    sources at hand; "parsed request: transaction ID, name, type, class,
    peer/local IP, raw payload". *)
Record Query := mkQuery {
  ID : Z;
  Name : string;
  Type_ : Z;
  Class : Z;
  PeerIP : IP;
  LocalIP : IP;
  Payload : list byte
}.

(** [resolver.ResolveInfo], with the fields [tcp.go] reads. *)
Record ResolveInfo := mkResolveInfo {
  Profile : string;
  FromCache : bool;
  Transport : string
}.

Definition zeroResolveInfo : ResolveInfo := mkResolveInfo "" false "".

(** [QueryInfo] as filled at lines 90-102 ([Duration] is wall-clock time and
    is left out). *)
Record QueryInfo := mkQueryInfo {
  qiPeerIP : IP;
  qiProtocol : string;
  qiType : string;
  qiName : string;
  qiQuerySize : Z;
  qiResponseSize : Z;
  qiProfile : string;
  qiFromCache : bool;
  qiUpstreamTransport : string;
  qiError : option error
}.

Inductive RCode := RCodeSuccess | RCodeServerFailure.

(** What a call [p.Resolve(ctx, q, rbuf)] can do: return its three results
    after storing [data] into [rbuf], or panic with value [r]. *)
Inductive outcome :=
| Returned (rsize : Z) (ri : ResolveInfo) (err : option error) (data : list byte)
| Panicked (r : string).

(** Everything [serveTCPConn] takes from its surroundings. *)
Record Env := mkEnv {
  (* free slots of [inflightRequests] this connection can use *)
  capacity : nat;
  (* addrIP(c.LocalAddr()), addrIP(c.RemoteAddr()) *)
  localIP : IP;
  remoteIP : IP;
  (* query.New(payload, peerIP, localIP): Go returns both a Query and an error *)
  queryNew : list byte -> IP -> IP -> Query * option error;
  (* q.Type.String() *)
  typeString : Z -> string;
  (* p.Resolve as called by the task with the given number *)
  Resolve : nat -> Query -> slice -> outcome;
  (* replyRCode(rcode, q, buf): the int returned and the bytes stored in buf *)
  replyRCode : RCode -> Query -> slice -> Z * list byte;
  (* the text runtime.Stack captures in the task with the given number *)
  runtimeStack : nat -> string;
  (* whether the peer makes the n-th write on the open socket fail *)
  writeFault : nat -> option string
}.

(** *** The operations a goroutine performs on what it shares *)

Inductive cmd : Type -> Type :=
| Acquire : cmd unit                       (* inflightRequests <- struct{}{} *)
| Release : cmd unit                       (* <-inflightRequests *)
| PoolGetLarge : cmd slice                 (* *bpool.GetLarge() *)
| PoolPut (b : slice) : cmd unit           (* bpool.Put(&b) *)
| ReadFull (n : Z) : cmd (list byte * option error)
                                           (* io.ReadFull(c, window of n bytes) *)
| ConnWrite (bs : list byte) : cmd (option error)   (* c.Write(bs) *)
| ConnClose : cmd unit                     (* c.Close() *)
| WgAdd : cmd unit                         (* wg.Add(1) *)
| WgDone : cmd unit                        (* wg.Done() *)
| WgWait : cmd unit                        (* wg.Wait() *)
| Spawn (buf : slice) (qsize : Z) : cmd unit        (* go func() { ... }() *)
| CallResolve (q : Query) (rbuf : slice) : cmd outcome
| Stack : cmd string                       (* runtime.Stack(stackBuf, false) *)
| LogErr (e : error) : cmd unit            (* p.logErr(e) *)
| LogQuery (qi : QueryInfo) : cmd unit.    (* p.logQuery(qi) *)

(** A goroutine's code: it returns, performs an operation and goes on with
    its result, or panics with nothing left to recover it. *)
Inductive prog (A : Type) : Type :=
| Ret (a : A)
| Do (X : Type) (c : cmd X) (k : X -> prog A)
| Panic (r : string).

Arguments Ret {A} a.
Arguments Do {A X} c k.
Arguments Panic {A} r.

Fixpoint bind {A B : Type} (p : prog A) (f : A -> prog B) : prog B :=
  match p with
  | Ret a => f a
  | Do c k => Do c (fun x => bind (k x) f)
  | Panic r => Panic r
  end.

Definition call {X : Type} (c : cmd X) : prog X := Do c Ret.

Notation "x <- p ;; q" := (bind p (fun x => q))
  (at level 61, p at next level, right associativity).
Notation "p ;; q" := (bind p (fun _ => q))
  (at level 61, right associativity).

(** *** readTCP and writeTCP (lines 122-139) *)

Definition readTCP (buf : slice) : prog (Z * option error * slice) :=
  hdr <- call (ReadFull 2) ;;
  match snd hdr with
  | Some err => Ret (-1, Some err, buf)
  | None =>
      let length := uint16be (fst hdr) in
      if length >? maxTCPSize then Ret (-1, Some ErrMessageTooLarge, buf)
      else
        match upto buf length with
        | None => Panic "slice bounds out of range"
        | Some _ =>
            body <- call (ReadFull length) ;;
            Ret (Z.of_nat (List.length (fst body)), snd body, store buf (fst body))
        end
  end.

Definition writeTCP (buf : list byte) : prog (option error) :=
  err <- call (ConnWrite (putUint16be (uint16 (Z.of_nat (List.length buf))))) ;;
  match err with
  | Some e => Ret (Some e)
  | None => call (ConnWrite buf)
  end.

(** *** The per-query goroutine (lines 69-118) *)

Definition isSome {A : Type} (o : option A) : bool :=
  match o with Some _ => true | None => false end.

(** The [QueryInfo] literal of lines 90-102. *)
Definition record (E : Env) (q : Query) (qsize rsize : Z) (ri : ResolveInfo)
    (err : option error) : QueryInfo :=
  mkQueryInfo (PeerIP q) "TCP" (typeString E (Type_ q)) (Name q) qsize rsize
              (Profile ri) (FromCache ri) (Transport ri) err.

(** The deferred closure of lines 81-103.  [recovered] is what [recover()]
    returns; the other arguments are the captured variables as they stand
    when the closure runs. *)
Definition deferred (E : Env) (recovered : option string) (buf rbuf : slice)
    (q : Query) (qsize rsize : Z) (ri : ResolveInfo) (err : option error)
  : prog unit :=
  err <- match recovered with
         | Some r => stack <- call Stack ;; Ret (Some (ErrPanic r stack))
         | None => Ret err
         end ;;
  call (PoolPut buf) ;;
  call (PoolPut rbuf) ;;
  call Release ;;
  call (LogQuery (record E q qsize rsize ri err)).

(** Lines 110-112, once [Resolve] has returned [rsize] and [err] and left
    [data] in [rbuf]: the size and content of the answer to send. *)
Definition answer (E : Env) (q : Query) (rbuf : slice) (rsize : Z)
    (err : option error) (data : list byte) : Z * slice :=
  let rbuf := store rbuf data in
  if isSome err || (rsize <=? 0) || (rsize >? maxTCPSize)
  then let (n, d) := replyRCode E RCodeServerFailure q rbuf in (n, store rbuf d)
  else (rsize, rbuf).

(** Lines 110-117 from the moment the call of [Resolve] is over, followed
    by the deferred closure.  A panic (of [Resolve], or of the slice
    expression [rbuf[:rsize]]) skips what is left of the body and runs the
    deferred closure with the variables as they stand.  The value recovered
    from the slice expression is the runtime's bounds error; its text is
    kept to the fixed part "slice bounds out of range", without the
    "runtime error: " in front and the index and capacity behind that the
    runtime prints, so the text of the logged error is not the runtime's
    letter for letter. *)
Definition respond (E : Env) (buf rbuf : slice) (q : Query) (qsize : Z)
    (perr : option error) (out : outcome) : prog unit :=
  match out with
  | Panicked r =>
      (* rsize, ri and err were not assigned yet *)
      deferred E (Some r) buf rbuf q qsize 0 zeroResolveInfo perr
  | Returned rsize ri err data =>
      let (rsize, rbuf) := answer E q rbuf rsize err data in
      match upto rbuf rsize with                              (* rbuf[:rsize] *)
      | None =>
          deferred E (Some "slice bounds out of range"%string) buf rbuf q qsize
                   rsize ri err
      | Some reply =>
          werr <- writeTCP (bytes reply) ;;
          let err := match err with None => werr | Some _ => err end in
          deferred E None buf rbuf q qsize rsize ri err
      end
  end.

(** The goroutine of lines 69-118.  The context with timeout of lines
    104-109 has no effect of its own here: what it makes [Resolve] do is part
    of what [Resolve] does. *)
Definition queryTask (E : Env) (buf : slice) (qsize : Z) : prog unit :=
  match upto buf qsize with                                   (* buf[:qsize] *)
  | None => call WgDone ;; Panic "slice bounds out of range"
  | Some payload =>
      let (q, perr) := queryNew E (bytes payload) (remoteIP E) (localIP E) in
      match perr with Some e => call (LogErr e) | None => Ret tt end ;;
      rbuf <- call PoolGetLarge ;;
      out <- call (CallResolve q rbuf) ;;
      respond E buf rbuf q qsize perr out ;;
      call WgDone                                              (* line 70 *)
  end.

(** *** The connection loop (lines 42-66) *)

Inductive flow := Continue | Return (err : option error).

(** One turn of the [for] loop. *)
Definition serveTCPConn_iter : prog flow :=
  call Acquire ;;
  buf <- call PoolGetLarge ;;
  r <- readTCP buf ;;
  let '(qsize, err, buf) := r in
  match err with
  | Some err =>
      call (PoolPut buf) ;;
      call Release ;;
      match err with
      | EOF => Ret (Return None)
      | _ => Ret (Return (Some (ErrTCPRead err)))
      end
  | None =>
      if qsize <=? 14 then
        call (PoolPut buf) ;;
        call Release ;;
        Ret (Return (Some (ErrQueryTooSmall qsize)))
      else
        call WgAdd ;;
        call (Spawn buf qsize) ;;
        Ret Continue
  end.

(** The deferred function of lines 44-48, then the return of [ret]. *)
Definition serveTCPConn_exit (ret : option error) : prog (option error) :=
  call WgWait ;;
  call ConnClose ;;
  Ret ret.

(** *** What the goroutines share, and one step of one goroutine *)

(** The read side of the socket: the bytes that will still arrive and how
    the stream ends once they are used up ([None]: the peer closed, reads
    return [io.EOF]; [Some m]: reads fail with that error). *)
Record Reader := mkReader { pending : list byte; final : option string }.

(** [io.ReadFull] for [n] bytes ([io.ReadAtLeast] with [min = len(buf)]):
    no error when all [n] bytes came, the stream's error when none came,
    and [ErrUnexpectedEOF] in place of [EOF] after a partial read. *)
Definition readFull (n : Z) (r : Reader) : (list byte * option error) * Reader :=
  let k := Z.to_nat n in
  let got := firstn k (pending r) in
  let r' := mkReader (skipn k (pending r)) (final r) in
  if (k <=? List.length (pending r))%nat then ((got, None), r')
  else
    let err := match final r with None => EOF | Some m => ErrExternal m end in
    match got with
    | [] => (([], Some err), r')
    | _ :: _ =>
        ((got, Some (match err with EOF => ErrUnexpectedEOF | e => e end)), r')
    end.

Inductive actor := Main | Task (i : nat).

Definition tid (a : actor) : nat :=
  match a with Main => O | Task i => i end.

Definition actor_eqb (a b : actor) : bool :=
  match a, b with
  | Main, Main => true
  | Task i, Task j => Nat.eqb i j
  | _, _ => false
  end.

(** An operation performed by a goroutine, with its result. *)
Inductive event := Ev (a : actor) (X : Type) (c : cmd X) (x : X).
Arguments Ev a {X} c x.

(** A spawned goroutine: the code it still has to run.  [tholds] and
    [tlive] are bookkeeping only (no operation looks at them): whether the
    goroutine has yet to give back its admission token, and whether it has
    yet to call [wg.Done]. *)
Record task := mkTask { tcode : prog unit; tholds : bool; tlive : bool }.

Inductive mainState :=
| Looping (p : prog flow)              (* inside the for loop *)
| Exiting (p : prog (option error)).   (* returning: deferred function, then result *)

Record state := mkState {
  inflight : nat;                (* tokens of this connection in inflightRequests *)
  wg : nat;                      (* the WaitGroup counter *)
  bpool : TieredBufferPool;
  rd : Reader;
  closed : bool;                 (* c.Close() was called *)
  wire : list (list byte);       (* what was written to the socket, in order *)
  main : mainState;
  tasks : list task;
  crashed : bool;                (* an unrecovered panic took the process down *)
  trace : list event             (* most recent first *)
}.

Definition set_inflight (n : nat) (s : state) : state :=
  mkState n (wg s) (bpool s) (rd s) (closed s) (wire s) (main s) (tasks s)
          (crashed s) (trace s).
Definition set_wg (n : nat) (s : state) : state :=
  mkState (inflight s) n (bpool s) (rd s) (closed s) (wire s) (main s) (tasks s)
          (crashed s) (trace s).
Definition set_bpool (p : TieredBufferPool) (s : state) : state :=
  mkState (inflight s) (wg s) p (rd s) (closed s) (wire s) (main s) (tasks s)
          (crashed s) (trace s).
Definition set_rd (r : Reader) (s : state) : state :=
  mkState (inflight s) (wg s) (bpool s) r (closed s) (wire s) (main s) (tasks s)
          (crashed s) (trace s).
Definition set_closed (s : state) : state :=
  mkState (inflight s) (wg s) (bpool s) (rd s) true (wire s) (main s) (tasks s)
          (crashed s) (trace s).
Definition set_wire (w : list (list byte)) (s : state) : state :=
  mkState (inflight s) (wg s) (bpool s) (rd s) (closed s) w (main s) (tasks s)
          (crashed s) (trace s).
Definition set_main (m : mainState) (s : state) : state :=
  mkState (inflight s) (wg s) (bpool s) (rd s) (closed s) (wire s) m (tasks s)
          (crashed s) (trace s).
Definition set_tasks (ts : list task) (s : state) : state :=
  mkState (inflight s) (wg s) (bpool s) (rd s) (closed s) (wire s) (main s) ts
          (crashed s) (trace s).
Definition set_crashed (s : state) : state :=
  mkState (inflight s) (wg s) (bpool s) (rd s) (closed s) (wire s) (main s)
          (tasks s) true (trace s).
Definition emit (e : event) (s : state) : state :=
  mkState (inflight s) (wg s) (bpool s) (rd s) (closed s) (wire s) (main s)
          (tasks s) (crashed s) (e :: trace s).

Fixpoint update (i : nat) (t' : task) (ts : list task) : list task :=
  match ts, i with
  | [], _ => []
  | _ :: ts', O => t' :: ts'
  | t :: ts', S i' => t :: update i' t' ts'
  end.

(** What the bookkeeping fields become once the goroutine ran the first
    operation of [p]. *)
Definition next_is_release {A : Type} (p : prog A) : bool :=
  match p with Do Release _ => true | _ => false end.

Definition next_is_done {A : Type} (p : prog A) : bool :=
  match p with Do WgDone _ => true | _ => false end.

Definition moved (t : task) (p' : prog unit) : task :=
  mkTask p' (tholds t && negb (next_is_release (tcode t)))
            (tlive t && negb (next_is_done (tcode t))).

(** The effect of one operation.  [None]: the operation cannot proceed yet
    (a send on the full channel, a receive on the empty one, a Wait on a
    non-zero counter).  [ch] is the choice [sync.Pool] makes. *)
Definition exec (E : Env) (a : actor) (ch : nat) {X : Type} (c : cmd X)
    (s : state) : option (X * state) :=
  match c in cmd X return option (X * state) with
  | Acquire =>
      if (inflight s <? capacity E)%nat
      then Some (tt, set_inflight (S (inflight s)) s) else None
  | Release =>
      match inflight s with
      | O => None
      | S n => Some (tt, set_inflight n s)
      end
  | PoolGetLarge =>
      let (b, p) := GetLarge ch (bpool s) in Some (b, set_bpool p s)
  | PoolPut b => Some (tt, set_bpool (Put (Some b) (bpool s)) s)
  | ReadFull n =>
      if closed s then Some (([], Some ErrClosed), s)
      else let (r, rd') := readFull n (rd s) in Some (r, set_rd rd' s)
  | ConnWrite bs =>
      if closed s then Some (Some ErrClosed, s)
      else match writeFault E (List.length (wire s)) with
           | Some m => Some (Some (ErrExternal m), s)
           | None => Some (None, set_wire (wire s ++ [bs]) s)
           end
  | ConnClose => Some (tt, set_closed s)
  | WgAdd => Some (tt, set_wg (S (wg s)) s)
  | WgDone =>
      match wg s with
      | O => Some (tt, set_crashed s)   (* panic: negative WaitGroup counter *)
      | S n => Some (tt, set_wg n s)
      end
  | WgWait => match wg s with O => Some (tt, s) | S _ => None end
  | Spawn buf qsize =>
      Some (tt, set_tasks (tasks s ++ [mkTask (queryTask E buf qsize) true true]) s)
  | CallResolve q rbuf => Some (Resolve E (tid a) q rbuf, s)
  | Stack => Some (runtimeStack E (tid a), s)
  | LogErr _ => Some (tt, s)
  | LogQuery _ => Some (tt, s)
  end.

(** Running the code [p] of goroutine [a] by one operation. *)
Definition advance (E : Env) (a : actor) (ch : nat) {A : Type} (p : prog A)
    (s : state) : option (prog A * state) :=
  match p with
  | Ret _ => None
  | Panic _ => Some (p, set_crashed s)
  | Do c k =>
      match exec E a ch c s with
      | Some (x, s') => Some (k x, emit (Ev a c x) s')
      | None => None
      end
  end.

(** A move of the scheduler: one goroutine of this connection runs one
    operation, or some other user of the shared buffer pool does. *)
Inductive move :=
| Run (a : actor) (ch : nat)
| Elsewhere (o : op).

Definition step (E : Env) (m : move) (s : state) : option state :=
  if crashed s then None else
  match m with
  | Elsewhere o => Some (set_bpool (apply o (bpool s)) s)
  | Run Main ch =>
      match main s with
      | Looping (Ret Continue) => Some (set_main (Looping serveTCPConn_iter) s)
      | Looping (Ret (Return e)) => Some (set_main (Exiting (serveTCPConn_exit e)) s)
      | Looping p =>
          match advance E Main ch p s with
          | Some (p', s') => Some (set_main (Looping p') s')
          | None => None
          end
      | Exiting p =>
          match advance E Main ch p s with
          | Some (p', s') => Some (set_main (Exiting p') s')
          | None => None
          end
      end
  | Run (Task i) ch =>
      match nth_error (tasks s) i with
      | None => None
      | Some t =>
          match advance E (Task i) ch (tcode t) s with
          | Some (p', s') =>
              Some (set_tasks (update i (moved t p') (tasks s')) s')
          | None => None
          end
      end
  end.

Fixpoint run (E : Env) (ms : list move) (s : state) : option state :=
  match ms with
  | [] => Some s
  | m :: ms' =>
      match step E m s with
      | Some s' => run E ms' s'
      | None => None
      end
  end.

(** [serveTCPConn(c, inflightRequests, bpool)] is entered with a pool other
    connections may have used already. *)
Definition init (pool : TieredBufferPool) (r : Reader) : state :=
  mkState O O pool r false [] (Looping serveTCPConn_iter) [] false [].

Definition reachable (E : Env) (ops : list op) (r : Reader) (s : state) : Prop :=
  exists ms, run E ms (init (after ops) r) = Some s.

(** [serveTCPConn] has returned with [ret]. *)
Definition returned (s : state) : option (option error) :=
  match main s with
  | Exiting (Ret ret) => Some ret
  | _ => None
  end.

Definition finished (t : task) : bool :=
  match tcode t with Ret _ => true | _ => false end.

(** A goroutine running its code to the end with nobody else scheduled
    ([None]: it blocks or panics unrecovered on the way). *)
Fixpoint alone (E : Env) (a : actor) (ch : nat) {A : Type} (p : prog A)
    (s : state) : option (A * state) :=
  match p with
  | Ret x => Some (x, s)
  | Panic _ => None
  | Do c k =>
      match exec E a ch c s with
      | Some (x, s') => alone E a ch (k x) (emit (Ev a c x) s')
      | None => None
      end
  end.

(** *** Reading the trace *)

Definition is_acquire (e : event) : bool :=
  match e with Ev _ Acquire _ => true | _ => false end.

Definition is_release (e : event) : bool :=
  match e with Ev _ Release _ => true | _ => false end.

Definition made_by (a : actor) (e : event) : bool :=
  match e with Ev b _ _ => actor_eqb a b end.

Definition is_release_by (a : actor) (e : event) : bool :=
  made_by a e && is_release e.

Definition is_resolve_by (a : actor) (e : event) : bool :=
  made_by a e && match e with Ev _ (CallResolve _ _) _ => true | _ => false end.

Definition is_spawn (e : event) : bool :=
  match e with Ev _ (Spawn _ _) _ => true | _ => false end.

Definition is_write (e : event) : bool :=
  match e with Ev _ (ConnWrite _) _ => true | _ => false end.

Definition is_close (e : event) : bool :=
  match e with Ev _ ConnClose _ => true | _ => false end.

(** A write that came back with "use of closed network connection". *)
Definition is_write_on_closed (e : event) : bool :=
  match e with
  | Ev _ (ConnWrite _) (Some ErrClosed) => true
  | _ => false
  end.

Definition count (f : event -> bool) (tr : list event) : nat :=
  List.length (filter f tr).

(** The writes attempted on the socket, oldest first: the bytes and what
    [c.Write] answered. *)
Fixpoint writes (tr : list event) : list (list byte * option error) :=
  match tr with
  | [] => []
  | Ev _ (ConnWrite bs) r :: tr' => writes tr' ++ [(bs, r)]
  | _ :: tr' => writes tr'
  end.

(** What the calls of [Resolve] did, oldest first. *)
Fixpoint resolutions (tr : list event) : list outcome :=
  match tr with
  | [] => []
  | Ev _ (CallResolve _ _) out :: tr' => resolutions tr' ++ [out]
  | _ :: tr' => resolutions tr'
  end.


Fixpoint loggedQueries (tr : list event) : list QueryInfo :=
  match tr with
  | [] => []
  | Ev _ (LogQuery qi) _ :: tr' => loggedQueries tr' ++ [qi]
  | _ :: tr' => loggedQueries tr'
  end.

(** The operations of the deferred closure and of [wg.Done], most recent
    first, as they appear in the trace. *)
Definition cleanup (a : actor) (buf rbuf : slice) (qi : QueryInfo) : list event :=
  [Ev a WgDone tt; Ev a (LogQuery qi) tt; Ev a Release tt;
   Ev a (PoolPut rbuf) tt; Ev a (PoolPut buf) tt].

(** No write was issued after the socket was closed.  The trace is most
    recent first, so a write after the close stands before it. *)
Fixpoint close_is_last (tr : list event) : Prop :=
  match tr with
  | [] => True
  | e :: tr' =>
      (is_write e = true -> count is_close tr' = O) /\ close_is_last tr'
  end.

(** *** What every path through the code does with tokens and the WaitGroup *)

(** What an operation's result is known to satisfy. *)
Definition post {X : Type} (c : cmd X) : X -> Prop :=
  match c in cmd X return X -> Prop with
  | PoolGetLarge => fun b => cap b = 65536
  | ReadFull n => fun r => Z.of_nat (List.length (fst r)) <= Z.max 0 n
  | _ => fun _ => True
  end.

(** The operations of a query goroutine other than the token release and
    [wg.Done]; [h] tells whether it holds its token.  A call of [Resolve]
    is only allowed while it does. *)
Definition task_cmd (h : bool) {X : Type} (c : cmd X) : bool :=
  match c with
  | CallResolve _ _ => h
  | PoolGetLarge | PoolPut _ | ConnWrite _ | Stack | LogErr _ | LogQuery _ => true
  | _ => false
  end.

(** [task_ok h d p]: on every path, code [p] of a query goroutine that
    holds its token iff [h] and has [wg.Done] ahead iff [d] gives the token
    back exactly once, then calls [wg.Done] exactly once as its last
    operation, and never panics unrecovered. *)
Inductive task_ok : bool -> bool -> prog unit -> Prop :=
| tk_ret : task_ok false false (Ret tt)
| tk_release k :
    task_ok false true (k tt) -> task_ok true true (Do Release k)
| tk_done k :
    task_ok false false (k tt) -> task_ok false true (Do WgDone k)
| tk_do h X (c : cmd X) k :
    task_cmd h c = true ->
    (forall x, post c x -> task_ok h true (k x)) ->
    task_ok h true (Do c k).

Definition loop_cmd {X : Type} (c : cmd X) : bool :=
  match c with
  | PoolGetLarge | PoolPut _ | ReadFull _ => true
  | _ => false
  end.

(** [loop_ok E h a p]: the rest [p] of a loop turn, entered holding a token
    iff [h] and having called [wg.Add] without the goroutine started yet iff
    [a], ends the turn with neither, the token given back or handed to a
    goroutine whose code is [task_ok]. *)
Inductive loop_ok (E : Env) : bool -> bool -> prog flow -> Prop :=
| lk_ret f : loop_ok E false false (Ret f)
| lk_acquire k :
    loop_ok E true false (k tt) -> loop_ok E false false (Do Acquire k)
| lk_release k :
    loop_ok E false false (k tt) -> loop_ok E true false (Do Release k)
| lk_add k :
    loop_ok E true true (k tt) -> loop_ok E true false (Do WgAdd k)
| lk_spawn buf qsize k :
    task_ok true true (queryTask E buf qsize) ->
    loop_ok E false false (k tt) ->
    loop_ok E true true (Do (Spawn buf qsize) k)
| lk_do h a X (c : cmd X) k :
    loop_cmd c = true ->
    (forall x, post c x -> loop_ok E h a (k x)) ->
    loop_ok E h a (Do c k).

(** The return path: wait (stage 0), close (stage 1), hand back the result
    (stage 2). *)
Inductive exit_ok : nat -> prog (option error) -> Prop :=
| ek_wait k : exit_ok 1 (k tt) -> exit_ok 0 (Do WgWait k)
| ek_close k : exit_ok 2 (k tt) -> exit_ok 1 (Do ConnClose k)
| ek_ret e : exit_ok 2 (Ret e).

Definition b2n (b : bool) : nat := if b then 1%nat else 0%nat.

Definition holding (ts : list task) : nat := List.length (filter tholds ts).
Definition living (ts : list task) : nat := List.length (filter tlive ts).

(** Every [Resolve] call in the trace was made by a goroutine that had not
    given its token back before. *)
Fixpoint resolve_holds_token (tr : list event) : Prop :=
  match tr with
  | [] => True
  | e :: tr' =>
      (forall i, is_resolve_by (Task i) e = true ->
                 count (is_release_by (Task i)) tr' = O)
      /\ resolve_holds_token tr'
  end.

(** The invariant of the connection. *)
Record Inv (E : Env) (s : state) : Prop := mkInv {
  inv_alive : crashed s = false;
  inv_pool : wf (bpool s);
  inv_tasks :
    Forall (fun t => task_ok (tholds t) (tlive t) (tcode t)) (tasks s);
  inv_main :
    match main s with
    | Looping p =>
        exists h a, loop_ok E h a p
          /\ inflight s = (b2n h + holding (tasks s))%nat
          /\ wg s = (b2n a + living (tasks s))%nat
          /\ closed s = false
    | Exiting p =>
        exists st, exit_ok st p
          /\ inflight s = holding (tasks s)
          /\ wg s = living (tasks s)
          /\ ((1 <= st)%nat -> wg s = O)
          /\ (closed s = true <-> st = 2%nat)
    end;
  inv_balance :
    count is_acquire (trace s) = (count is_release (trace s) + inflight s)%nat;
  inv_once :
    forall i t, nth_error (tasks s) i = Some t ->
      count (is_release_by (Task i)) (trace s) = b2n (negb (tholds t));
  inv_fresh :
    forall i, (List.length (tasks s) <= i)%nat ->
      count (made_by (Task i)) (trace s) = O;
  inv_spawned : count is_spawn (trace s) = List.length (tasks s);
  inv_resolve : resolve_holds_token (trace s);
  inv_open : closed s = false -> count is_close (trace s) = O;
  inv_writes : count is_write_on_closed (trace s) = O;
  inv_order : close_is_last (trace s)
}.

End TCP.

(** ** Test doubles, after [proxy/tcp_test.go]

    Concrete surroundings on which the model can be run. *)

Module Demo.
Import Go BufferPool TCP.

(** The 29-byte query for [example.com A] the tests send, and its frame. *)
Definition exampleQuery : list byte :=
  [x00; x1e; x01; x00; x00; x01; x00; x00; x00; x00; x00; x00;
   x07; x65; x78; x61; x6d; x70; x6c; x65; x03; x63; x6f; x6d; x00;
   x00; x01; x00; x01].

Definition exampleFrame : list byte := [x00; x1d] ++ exampleQuery.

(** A payload of exactly 14 bytes (a header and two more bytes), framed. *)
Definition frame14 : list byte :=
  [x00; x0e;
   x00; x1e; x01; x00; x00; x01; x00; x00; x00; x00; x00; x00; x00; x00].

(** A parser that takes the transaction ID from the first two bytes and
    rejects messages with the response bit set. *)
Definition parse (payload : list byte) (peer local : IP) : Query * option error :=
  let q := mkQuery (uint16be (firstn 2 payload)) "example.com." 1 1 peer local
                   payload in
  match nth_error payload 2 with
  | Some flags =>
      if byteZ flags <? 128 then (q, None)
      else (q, Some (ErrExternal "query: not a question"))
  | None => (q, Some (ErrExternal "query: short header"))
  end.

(** A reply made of the query's first twelve bytes with the response bit
    and the given RCODE set, followed by the rest of the query (its
    question section). *)
Definition reply (rcode : RCode) (q : Query) (buf : slice) : Z * list byte :=
  let code := match rcode with RCodeSuccess => x80 | RCodeServerFailure => x82 end in
  let msg := firstn 2 (Payload q) ++ [x81; code] ++ skipn 4 (Payload q) in
  (Z.of_nat (List.length msg), msg).

(** [mockSlowResolver]: "return 12, resolver.ResolveInfo{}, nil". *)
Definition mockResolve (_ : nat) (_ : Query) (_ : slice) : outcome :=
  Returned 12 zeroResolveInfo None [].

Definition failingResolve (_ : nat) (_ : Query) (_ : slice) : outcome :=
  Returned 0 zeroResolveInfo (Some (ErrExternal "context deadline exceeded")) [].

Definition panickingResolve (_ : nat) (_ : Query) (_ : slice) : outcome :=
  Panicked "runtime error: index out of range".

Definition loopback : IP := [x7f; x00; x00; x01].

Definition envWith (resolve : nat -> Query -> slice -> outcome) : Env :=
  mkEnv 10 loopback loopback parse (fun _ => "A"%string) resolve reply
        (fun _ => "goroutine 7 [running]"%string) (fun _ => None).

Definition env : Env := envWith mockResolve.

(** A client that sends the given bytes and closes. *)
Definition client (bs : list byte) : Reader := mkReader bs None.

(** The connection loop runs until it waits for goroutine 0, goroutine 0
    runs to its end, the loop returns. *)
Definition start (bs : list byte) : state :=
  init NewTieredBufferPool (client bs).

Definition oneQuerySchedule : list move :=
  repeat (Run Main O) 13 ++ repeat (Run (Task O) O) 9 ++ repeat (Run Main O) 2.

(** The state in which goroutine 0 has just been started on the example
    query. *)
Definition spawned (E : Env) (bs : list byte) : state :=
  match run E (repeat (Run Main O) 6) (start bs) with
  | Some s => s
  | None => start bs
  end.

(** The request buffer goroutine 0 was started on: a fresh large buffer
    with the payload read into it. *)
Definition requestBuf (payload : list byte) : slice :=
  store (make 65536) payload.

(** The SERVFAIL answer [reply] builds for the example query. *)
Definition servfailReply : list byte :=
  [x00; x1e; x81; x82; x00; x01; x00; x00; x00; x00; x00; x00;
   x07; x65; x78; x61; x6d; x70; x6c; x65; x03; x63; x6f; x6d; x00;
   x00; x01; x00; x01].

(** Twelve bytes of a fresh response buffer, which [mockResolve] claims to
    have filled. *)
Definition twelveZeros : list byte := repeat x00 12.

(** Where the one-query schedule leaves the connection. *)
Definition served (E : Env) (bs : list byte) : state :=
  match run E oneQuerySchedule (start bs) with
  | Some s => s
  | None => start bs
  end.

(** The loop starts goroutine 0, goroutine 0 runs to its end, and the loop
    takes the token and the buffer of its next turn: it is about to read
    the next frame. *)
Definition idleSchedule : list move :=
  repeat (Run Main O) 6 ++ repeat (Run (Task O) O) 9 ++ repeat (Run Main O) 2.

Definition idle (E : Env) (bs : list byte) : state :=
  match run E idleSchedule (start bs) with
  | Some s => s
  | None => start bs
  end.







End Demo.

(** ** The response-correlation loop of the DNS53 resolver *)

Module DNS53.
Import Go.

(** Modelled from the spec: [resolver/dns53.go] is not among the sources at
    hand (its test is).  "Write the query over UDP to the upstream server,
    then loop reading responses bounded by maxRetries (5): each datagram is
    checked for (a) minimum viable header length, (b) transaction-ID equality
    with the outgoing query."  The cache lookup that precedes the exchange
    and the TTL clamping that follows it are left out. *)
Definition maxRetries : nat := 5.

(** One read on the socket: a datagram, or an error (the deadline passed,
    the context was cancelled, the socket failed). *)
Inductive read :=
| Datagram (d : list byte)
| ReadError (msg : string).

(** The upstream as the resolver sees it: what its k-th read yields. *)
Definition upstream := nat -> read.

Inductive result :=
| Answer (d : list byte)
| Failure (msg : string).

Definition errIDMismatch : string := "max retries exceeded: DNS ID mismatch".
Definition errNoValidResponse : string :=
  "max retries exceeded waiting for valid response".

(** The two checks.  The spec names no number for the minimum header
    length; it is the parameter [minLen]. *)
Definition tooShort (minLen : nat) (d : list byte) : bool :=
  (List.length d <? minLen)%nat.

Definition mismatched (id : Z) (d : list byte) : bool :=
  negb (uint16be (firstn 2 d) =? id).

(** Modelled from the spec: the read loop of [DNS53.resolve], which is not
    among the sources.  "A too-short or ID-mismatched datagram is discarded
    and the loop continues, but only up to the retry ceiling; exceeding it
    fails with a distinct, stable error"; a read error "aborts immediately,
    independent of the retry counter".  [k] reads were made so far and [left]
    more datagrams may be discarded, that is, the retry counter stands at
    [maxRetries - left]; discarding one more when none is left takes the
    counter past the ceiling.  The result comes with the number of reads
    made. *)
Fixpoint readLoop (minLen : nat) (id : Z) (up : upstream) (left k : nat)
  : result * nat :=
  match up k with
  | ReadError msg => (Failure msg, S k)
  | Datagram d =>
      if tooShort minLen d then
        match left with
        | O => (Failure errNoValidResponse, S k)
        | S left' => readLoop minLen id up left' (S k)
        end
      else if mismatched id d then
        match left with
        | O => (Failure errIDMismatch, S k)
        | S left' => readLoop minLen id up left' (S k)
        end
      else (Answer d, S k)
  end.

(** Modelled from the spec: the exchange of [DNS53.resolve] for a query
    with transaction ID [id], "loop reading responses bounded by maxRetries
    (5)", the query having been written to the socket. *)
Definition resolve (minLen : nat) (id : Z) (up : upstream) : result * nat :=
  readLoop minLen id up maxRetries O.

(** An upstream all of whose datagrams are too short, resp. long enough but
    with a transaction ID other than [id]. *)
Definition alwaysShort (minLen : nat) (up : upstream) : Prop :=
  forall k, exists d, up k = Datagram d /\ tooShort minLen d = true.

Definition alwaysMismatched (minLen : nat) (id : Z) (up : upstream) : Prop :=
  forall k, exists d,
    up k = Datagram d /\ tooShort minLen d = false /\ mismatched id d = true.

(** Upstreams after [resolver/dns53_test.go]: one that only ever sends the
    single byte 0, one that only ever answers with the ID off by one, and
    one that does so twice before the right answer. *)
Definition shortUpstream : upstream := fun _ => Datagram [x00].

Definition response (id : Z) : list byte :=
  putUint16be id ++ [x81; x80; x00; x01; x00; x01; x00; x00; x00; x00].

Definition wrongIDUpstream (id : Z) : upstream :=
  fun _ => Datagram (response (uint16 (id + 1))).

Definition staleThenRight (id : Z) : upstream :=
  fun k => if (k <? 2)%nat then wrongIDUpstream id k else Datagram (response id).

End DNS53.

(** ** The end of a TCP stream, as [readTCP] meets it *)

Module Stream.
Import Go TCP.

(** What [io.ReadFull] reports when the stream ends after it got the bytes
    [got] and not all it asked for: the stream's own error when it got
    nothing, [io.ErrUnexpectedEOF] in place of [io.EOF] otherwise. *)
Definition streamError (got : list byte) (fin : option string) : error :=
  match fin, got with
  | Some m, _ => ErrExternal m
  | None, [] => EOF
  | None, _ :: _ => ErrUnexpectedEOF
  end.

(** A stream that ends inside a frame: before the two bytes of the length
    prefix are there, or with fewer payload bytes than the prefix
    announces. *)
Definition incomplete (p : list byte) : Prop :=
  match p with
  | hi :: lo :: body => Z.of_nat (List.length body) < uint16be [hi; lo]
  | _ => True
  end.

(** The bytes the read that fails on such a stream still gets: the part of
    the prefix, resp. the part of the payload. *)
Definition lastRead (p : list byte) : list byte :=
  match p with
  | _ :: _ :: body => body
  | _ => p
  end.

(** What [serveTCPConn] returns for a read error (lines 57-60). *)
Definition readFailure (err : error) : option error :=
  match err with
  | EOF => None
  | _ => Some (ErrTCPRead err)
  end.

(** The two writes of [writeTCP buf] (lines 134 and 137). *)
Definition framed (buf : list byte) : list (list byte) :=
  [putUint16be (uint16 (Z.of_nat (List.length buf))); buf].

End Stream.

(** ** Counting what each goroutine of a connection does *)

Module Accounting.
Import Go BufferPool TCP.

(** A weight for every operation. *)
Definition weight := forall X : Type, cmd X -> Z.

(** The weight of the operations goroutine [a] performed, resp. of all
    operations of the trace. *)
Fixpoint total (w : weight) (a : actor) (tr : list event) : Z :=
  match tr with
  | [] => 0
  | Ev b c _ :: tr' => (if actor_eqb a b then w _ c else 0) + total w a tr'
  end.

Fixpoint whole (w : weight) (tr : list event) : Z :=
  match tr with
  | [] => 0
  | Ev _ c _ :: tr' => w _ c + whole w tr'
  end.

(** [tally w n p]: whichever results its operations get, the operations
    code [p] performs until it returns weigh [n] together.  A path that ends
    in an unrecovered panic never returns and is not weighed. *)
Inductive tally (w : weight) {A : Type} : Z -> prog A -> Prop :=
| ty_ret n x : n = 0 -> tally w n (Ret x)
| ty_panic n r : tally w n (Panic r)
| ty_do n X (c : cmd X) k :
    (forall x, tally w (n - w X c) (k x)) -> tally w n (Do c k).

(** The goroutine an operation starts. *)
Definition spawnOf (E : Env) {X : Type} (c : cmd X) : list task :=
  match c with
  | Spawn buf qsize => [mkTask (queryTask E buf qsize) true true]
  | _ => []
  end.

(** Where every goroutine of the connection stands with respect to [w],
    when a query goroutine weighs [N] from start to end and a loop turn, as
    well as the return path, weighs nothing. *)
Record Tallied (w : weight) (N : Z) (s : state) : Prop := mkTallied {
  tl_tasks :
    forall i t, nth_error (tasks s) i = Some t ->
      exists n, tally w n (tcode t) /\ total w (Task i) (trace s) + n = N;
  tl_fresh :
    forall i, (List.length (tasks s) <= i)%nat ->
      total w (Task i) (trace s) = 0;
  tl_main :
    exists n,
      match main s with
      | Looping p => tally w n p
      | Exiting p => tally w n p
      end /\ total w Main (trace s) + n = 0
}.

(** [f 0 + ... + f (n - 1)]. *)
Fixpoint sumTo (n : nat) (f : nat -> Z) : Z :=
  match n with
  | O => 0
  | S n' => sumTo n' f + f n'
  end.

(** Calls of [Resolve], and records handed to [p.logQuery]. *)
Definition resolves : weight :=
  fun _ c => match c with CallResolve _ _ => 1 | _ => 0 end.

Definition records : weight :=
  fun _ c => match c with LogQuery _ => 1 | _ => 0 end.

(** Buffers: one more in hand with each [GetLarge], one less with each
    [Put] and with each buffer handed to a goroutine that is started. *)
Definition buffers : weight :=
  fun _ c =>
    match c with
    | PoolGetLarge => 1
    | PoolPut _ => -1
    | Spawn _ _ => -1
    | _ => 0
    end.

(** The WaitGroup: [wg.Add(1)] is owed a [wg.Done()], and the debt goes to
    the goroutine that is started. *)
Definition waits : weight :=
  fun _ c =>
    match c with
    | WgAdd => 1
    | WgDone => -1
    | Spawn _ _ => -1
    | _ => 0
    end.

Definition is_get (e : event) : bool :=
  match e with Ev _ PoolGetLarge _ => true | _ => false end.

Definition is_put (e : event) : bool :=
  match e with Ev _ (PoolPut _) _ => true | _ => false end.

Definition is_add (e : event) : bool :=
  match e with Ev _ WgAdd _ => true | _ => false end.

Definition is_done (e : event) : bool :=
  match e with Ev _ WgDone _ => true | _ => false end.

End Accounting.

(** ** Schedules made of the connection's own goroutines *)

Module Schedules.
Import TCP.



End Schedules.

(** ** What [serveTCPConn] can return, and what a goroutine can write *)

Module Outcomes.
Import Go TCP.

(** The errors the loop itself makes: none (the peer closed), a failed
    read, a frame of 14 bytes or fewer. *)
Definition ofTheLoop (ret : option error) : Prop :=
  ret = None \/
  (exists e, ret = Some (ErrTCPRead e) /\ e <> EOF) \/
  (exists qsize, ret = Some (ErrQueryTooSmall qsize) /\ qsize <= 14).

Definition turnEnd (f : flow) : Prop :=
  match f with
  | Continue => True
  | Return ret => ofTheLoop ret
  end.

(** [leaves R p]: whatever results its operations get, code [p] returns
    only values that satisfy [R]. *)
Inductive leaves {A : Type} (R : A -> Prop) : prog A -> Prop :=
| lv_ret x : R x -> leaves R (Ret x)
| lv_panic r : leaves R (Panic r)
| lv_do X (c : cmd X) k : (forall x, leaves R (k x)) -> leaves R (Do c k).

(** A write on the socket with what [c.Write] answered. *)
Definition written := (list byte * option error)%type.

(** The writes goroutine [a] made, oldest first. *)
Fixpoint writesBy (a : actor) (tr : list event) : list written :=
  match tr with
  | [] => []
  | Ev b (ConnWrite bs) r :: tr' =>
      if actor_eqb a b then writesBy a tr' ++ [(bs, r)] else writesBy a tr'
  | _ :: tr' => writesBy a tr'
  end.

(** What an operation adds to the writes of the goroutine that performs
    it. *)
Definition wrote {X : Type} (c : cmd X) : X -> list written :=
  match c in cmd X return X -> list written with
  | ConnWrite bs => fun r => [(bs, r)]
  | _ => fun _ => []
  end.

(** The writes of one response: nothing (the resolver panicked), the
    length prefix alone when its write failed, or the prefix and then the
    message it announces. *)
Definition oneResponse (ws : list written) : Prop :=
  ws = [] \/
  exists body : list byte,
    let prefix := putUint16be (uint16 (Z.of_nat (List.length body))) in
    (exists e, ws = [(prefix, Some e)]) \/
    (exists r, ws = [(prefix, None); (body, r)]).

(** The sizes [replyRCode] returns for SERVFAIL answers. *)
Definition servfailSize (E : Env) (n : Z) : Prop :=
  exists q rbuf, fst (replyRCode E RCodeServerFailure q rbuf) = n.

(** The writes of one response, with the size of the message: between 1
    and [maxTCPSize] when it is the resolver's answer, and whatever
    [replyRCode] returned when it is the SERVFAIL answer, a size line 113
    slices [rbuf] with as it comes. *)
Definition sizedResponse (E : Env) (ws : list written) : Prop :=
  ws = [] \/
  exists body : list byte,
    ((exists e,
        ws = [(putUint16be (uint16 (Z.of_nat (List.length body))), Some e)]) \/
     (exists r,
        ws = [(putUint16be (uint16 (Z.of_nat (List.length body))), None);
              (body, r)])) /\
    (1 <= Z.of_nat (List.length body) <= maxTCPSize \/
     servfailSize E (Z.of_nat (List.length body))).

(** [writesTo P ws p]: code [p], run by a goroutine whose writes so far
    are [ws], has made writes that satisfy [P] when it returns. *)
Inductive writesTo (P : list written -> Prop) : list written -> prog unit -> Prop :=
| wt_ret ws x : P ws -> writesTo P ws (Ret x)
| wt_panic ws r : writesTo P ws (Panic r)
| wt_do ws X (c : cmd X) k :
    (forall x, writesTo P (ws ++ wrote c x) (k x)) -> writesTo P ws (Do c k).

(** Where the query goroutines of a connection stand with respect to
    [P]. *)
Record Written (P : list written -> Prop) (s : state) : Prop := mkWritten {
  wr_tasks :
    forall i t, nth_error (tasks s) i = Some t ->
      writesTo P (writesBy (Task i) (trace s)) (tcode t);
  wr_fresh :
    forall i, (List.length (tasks s) <= i)%nat ->
      writesBy (Task i) (trace s) = []
}.

End Outcomes.

(** ** From the frames of the stream to the queries resolved *)

Module Dispatch.
Import Go TCP.

(** The arguments of the goroutines started, oldest first. *)
Fixpoint spawned (tr : list event) : list (slice * Z) :=
  match tr with
  | [] => []
  | Ev _ (Spawn buf qsize) _ :: tr' => spawned tr' ++ [(buf, qsize)]
  | _ :: tr' => spawned tr'
  end.

(** The payload [buf[:qsize]] a goroutine started on [buf] and [qsize]
    parses (line 71). *)
Definition payloadOf (b : slice * Z) : list byte :=
  match upto (fst b) (snd b) with
  | Some window => bytes window
  | None => []
  end.

Definition started (tr : list event) : list (list byte) :=
  map payloadOf (spawned tr).

(** The query goroutine [b] hands to [Resolve]. *)
Definition queryOf (E : Env) (b : slice * Z) : Query :=
  fst (queryNew E (payloadOf b) (remoteIP E) (localIP E)).

(** The payloads of the frames at the front of a stream that are complete
    and longer than 14 bytes, up to the first frame that is not. *)
Fixpoint acceptedN (fuel : nat) (p : list byte) : list (list byte) :=
  match fuel with
  | O => []
  | S fuel' =>
      match p with
      | hi :: lo :: body =>
          let n := uint16be [hi; lo] in
          if (Z.of_nat (List.length body) <? n) || (n <=? 14) then []
          else firstn (Z.to_nat n) body
               :: acceptedN fuel' (skipn (Z.to_nat n) body)
      | _ => []
      end
  end.

Definition accepted (p : list byte) : list (list byte) :=
  acceptedN (List.length p) p.

(** The operations of the loop that neither read nor start a goroutine. *)
Definition quiet {X : Type} (c : cmd X) : bool :=
  match c with
  | Acquire | Release | PoolGetLarge | PoolPut _ | WgAdd => true
  | _ => false
  end.

(** [covers fin all done q p]: the rest [p] of a loop turn, on an open
    socket whose stream still holds [q] and ends as [fin] says, goroutines
    having been started on the payloads [done] so far, ends the turn so
    that the goroutines started and the frames still to be accepted make up
    [all]; when [serveTCPConn] returns, [all] have been started. *)
Inductive covers (fin : option string) (all : list (list byte))
  : list (list byte) -> list byte -> prog flow -> Prop :=
| cv_continue done q :
    done ++ accepted q = all -> covers fin all done q (Ret Continue)
| cv_return done q e :
    done = all -> covers fin all done q (Ret (Return e))
| cv_read done q n k :
    covers fin all done (pending (snd (readFull n (mkReader q fin))))
           (k (fst (readFull n (mkReader q fin)))) ->
    covers fin all done q (Do (ReadFull n) k)
| cv_spawn done q buf qsize k :
    covers fin all (done ++ [payloadOf (buf, qsize)]) q (k tt) ->
    covers fin all done q (Do (Spawn buf qsize) k)
| cv_do done q X (c : cmd X) k :
    quiet c = true ->
    (forall x, post c x -> covers fin all done q (k x)) ->
    covers fin all done q (Do c k).

Record Covered (fin : option string) (all : list (list byte)) (s : state)
  : Prop := mkCovered {
  cd_final : final (rd s) = fin;
  cd_main :
    match main s with
    | Looping p => covers fin all (started (trace s)) (pending (rd s)) p
    | Exiting _ => started (trace s) = all
    end
}.

(** The queries the calls of [Resolve] by goroutine [a] were made on,
    oldest first, and what one operation adds to them. *)
Fixpoint resolvedBy (a : actor) (tr : list event) : list Query :=
  match tr with
  | [] => []
  | Ev b (CallResolve q _) _ :: tr' =>
      if actor_eqb a b then resolvedBy a tr' ++ [q] else resolvedBy a tr'
  | _ :: tr' => resolvedBy a tr'
  end.

Definition asked {X : Type} (c : cmd X) : list Query :=
  match c with
  | CallResolve q _ => [q]
  | _ => []
  end.

(** [asksFor q seen p]: code [p], run by a goroutine that has called
    [Resolve] on [seen] so far, has called it on [q] and nothing else when
    it returns. *)
Inductive asksFor (q : Query) : list Query -> prog unit -> Prop :=
| af_ret seen x : seen = [q] -> asksFor q seen (Ret x)
| af_panic seen r : asksFor q seen (Panic r)
| af_do seen X (c : cmd X) k :
    (forall x, asksFor q (seen ++ asked c) (k x)) -> asksFor q seen (Do c k).

(** Goroutine [i] is the one started [i]-th, and resolves the query of the
    payload it was started on. *)
Record Asked (E : Env) (s : state) : Prop := mkAsked {
  ak_count : List.length (spawned (trace s)) = List.length (tasks s);
  ak_tasks :
    forall i t, nth_error (tasks s) i = Some t ->
      exists b, nth_error (spawned (trace s)) i = Some b /\
                asksFor (queryOf E b) (resolvedBy (Task i) (trace s)) (tcode t);
  ak_fresh :
    forall i, (List.length (tasks s) <= i)%nat ->
      resolvedBy (Task i) (trace s) = []
}.

End Dispatch.

(** ** The accept loop of [proxy/tcp.go] (lines 21-40) *)

Module Listener.
Import TCP.

(** An error of [l.Accept()]: its text and whether it is a [net.Error]
    whose [Timeout()] is true. *)
Record acceptError := mkAcceptError { text : string; isTimeout : bool }.

(** What one call of [l.Accept()] yields; connections are told apart by a
    number. *)
Inductive accepted :=
| Conn (c : nat)
| Refused (err : acceptError).

(** [serveTCP] against a listener whose successive [Accept] calls yield
    [l]: the connections a [serveTCPConn] goroutine was started on, in
    order, and the error returned ([None]: the loop is still in [Accept]
    when [l] is used up). *)
Fixpoint serveTCP (l : list accepted) : list nat * option acceptError :=
  match l with
  | [] => ([], None)
  | Refused err :: l' =>
      if isTimeout err then serveTCP l' else ([], Some err)
  | Conn c :: l' =>
      let (cs, ret) := serveTCP l' in (c :: cs, ret)
  end.

(** The goroutine of lines 32-38 around [serveTCPConn]: what reaches
    [p.ErrorLog], which may be nil. *)
Definition report (hasErrorLog : bool) (ret : option error) : list error :=
  match ret with
  | Some err => if hasErrorLog then [err] else []
  | None => []
  end.

Definition connections (l : list accepted) : list nat :=
  flat_map (fun a => match a with Conn c => [c] | Refused _ => [] end) l.

Definition harmless (a : accepted) : bool :=
  match a with Conn _ => true | Refused err => isTimeout err end.

End Listener.

(** ** resolver/endpoint/transport_h2.go: the addresses to dial *)

Module Endpoint.

(** [net.JoinHostPort]: "if host contains a colon, as found in literal
    IPv6 addresses, then JoinHostPort returns [host]:port". *)
Fixpoint hasColon (s : string) : bool :=
  match s with
  | EmptyString => false
  | String c s' =>
      if String.eqb (String c EmptyString) ":" then true else hasColon s'
  end.

Definition JoinHostPort (host port : string) : string :=
  if hasColon host then ("[" ++ host ++ "]:" ++ port)%string
  else (host ++ ":" ++ port)%string.

(** The fields of [DOHEndpoint] that [endpointAddrs] reads. *)
Record DOHEndpoint := mkDOHEndpoint {
  Hostname : string;
  Bootstrap : list string
}.

(** [func endpointAddrs(e *DOHEndpoint) (addrs []string)] *)
Definition endpointAddrs (e : DOHEndpoint) : list string :=
  match Bootstrap e with
  | [] => [JoinHostPort (Hostname e) "443"]
  | _ :: _ => map (fun addr => JoinHostPort addr "443") (Bootstrap e)
  end.

(** [s] ends with [suffix]. *)
Definition endsWith (suffix s : string) : Prop :=
  exists front, s = (front ++ suffix)%string.

End Endpoint.

(** ** Package [testutil]: measurers, pools and the mock DNS server *)

Module Testutil.
Import Go.

(** A [time.Duration] is an [int64] of nanoseconds; [int64 z] is [z]
    wrapped into that range, as Go's arithmetic does. *)
Definition int64 (z : Z) : Z := (z + 2 ^ 63) mod 2 ^ 64 - 2 ^ 63.

(** *** LatencyMeasurer *)

Record LatencyMeasurer := mkLatencyMeasurer { latencies : list Z }.

Definition NewLatencyMeasurer : LatencyMeasurer := mkLatencyMeasurer [].

(** [Measure(fn)], [latency] being what [time.Since(start)] gave. *)
Definition Measure (latency : Z) (lm : LatencyMeasurer) : LatencyMeasurer :=
  mkLatencyMeasurer (latencies lm ++ [latency]).

(** The loop [total += l] of [Average]. *)
Definition sumLatencies (ls : list Z) : Z :=
  fold_left (fun total l => int64 (total + l)) ls 0.

(** The sum of the latencies as a number, without wrap-around. *)
Definition exactSum (ls : list Z) : Z := fold_right Z.add 0 ls.

(** [Average]; Go's [/] on integers truncates toward zero. *)
Definition Average (lm : LatencyMeasurer) : Z :=
  match latencies lm with
  | [] => 0
  | _ :: _ =>
      Z.quot (sumLatencies (latencies lm)) (Z.of_nat (List.length (latencies lm)))
  end.

Definition Min (lm : LatencyMeasurer) : Z :=
  match latencies lm with
  | [] => 0
  | first :: rest => fold_left (fun min l => if l <? min then l else min) rest first
  end.

Definition Max (lm : LatencyMeasurer) : Z :=
  match latencies lm with
  | [] => 0
  | first :: rest => fold_left (fun max l => if l >? max then l else max) rest first
  end.

Definition Count (lm : LatencyMeasurer) : Z := Z.of_nat (List.length (latencies lm)).

Definition Reset (lm : LatencyMeasurer) : LatencyMeasurer := mkLatencyMeasurer [].

(** *** BufferPool and TieredBufferPool of [testutil]

    These pools hold slices, not pointers to slices. *)

Record BufferPool := mkBufferPool { pool : BufferPool.syncPool; size : Z }.

Definition NewBufferPool (size : Z) : BufferPool :=
  mkBufferPool (BufferPool.mkPool [] (fun _ => make size)) size.

Definition BufferPool_Get (c : nat) (p : BufferPool) : slice * BufferPool :=
  let (b, q) := BufferPool.poolGet c (pool p) in (b, mkBufferPool q (size p)).

Definition BufferPool_Put (buf : slice) (p : BufferPool) : BufferPool :=
  mkBufferPool (BufferPool.poolPut buf (pool p)) (size p).

Record TieredBufferPool := mkTiered {
  small : BufferPool;
  medium : BufferPool;
  large : BufferPool
}.

Definition NewTieredBufferPool : TieredBufferPool :=
  mkTiered (NewBufferPool 512) (NewBufferPool 4096) (NewBufferPool 65536).

Definition Get (c : nat) (size : Z) (p : TieredBufferPool)
  : slice * TieredBufferPool :=
  if size <=? 512 then
    let (b, s) := BufferPool_Get c (small p) in (b, mkTiered s (medium p) (large p))
  else if size <=? 4096 then
    let (b, m) := BufferPool_Get c (medium p) in (b, mkTiered (small p) m (large p))
  else
    let (b, l) := BufferPool_Get c (large p) in (b, mkTiered (small p) (medium p) l).

Definition Put (buf : slice) (p : TieredBufferPool) : TieredBufferPool :=
  if cap buf =? 512 then mkTiered (BufferPool_Put buf (small p)) (medium p) (large p)
  else if cap buf =? 4096 then mkTiered (small p) (BufferPool_Put buf (medium p)) (large p)
  else if cap buf =? 65536 then mkTiered (small p) (medium p) (BufferPool_Put buf (large p))
  else p.

(** The pool of [proxy/bufferpool.go] that holds the same buffers. *)
Definition asProxyPool (p : TieredBufferPool) : BufferPool.TieredBufferPool :=
  BufferPool.mkTiered (pool (small p)) (pool (medium p)) (pool (large p)).

Inductive op :=
| OpGet (c : nat) (size : Z)
| OpPut (buf : slice).

Definition apply (o : op) (p : TieredBufferPool) : TieredBufferPool :=
  match o with
  | OpGet c size => snd (Get c size p)
  | OpPut buf => Put buf p
  end.

Definition after (ops : list op) : TieredBufferPool :=
  fold_left (fun p o => apply o p) ops NewTieredBufferPool.

(** The same operation on the pool of [proxy/bufferpool.go]. *)
Definition asProxyOp (o : op) : BufferPool.op :=
  match o with
  | OpGet c size => BufferPool.OpGet c size
  | OpPut buf => BufferPool.OpPut (Some buf)
  end.

(** *** CountingHandler

    A handler is a [func([]byte) []byte]; [None] is the nil slice. *)

Definition handlerFunc := list byte -> option (list byte).

Record CountingHandler := mkCountingHandler {
  Handler : option handlerFunc;
  count : Z
}.

Definition NewCountingHandler (handler : option handlerFunc) : CountingHandler :=
  mkCountingHandler handler 0.

(** [Handle]; [h.count++] on an [int] of 64 bits. *)
Definition Handle (query : list byte) (h : CountingHandler)
  : option (list byte) * CountingHandler :=
  let h' := mkCountingHandler (Handler h) (int64 (count h + 1)) in
  match Handler h with
  | Some f => (f query, h')
  | None => (None, h')
  end.

Definition CountingHandler_Reset (h : CountingHandler) : CountingHandler :=
  mkCountingHandler (Handler h) 0.

(** *** MockDNSServer.handleTCP

    The connection delivers its bytes in segments.  [conn.Read(p)] hands
    out what is at hand of the first segment, at most [len(p)] bytes, and
    fails when nothing arrives before the deadline or the peer has closed;
    with an empty [p] it returns 0 and no error. *)
Definition connRead (n : Z) (segs : list (list byte))
  : option (list byte * list (list byte)) :=
  if n <=? 0 then Some ([], segs)
  else
    match segs with
    | [] => None
    | seg :: rest =>
        Some (firstn (Z.to_nat n) seg,
              match skipn (Z.to_nat n) seg with
              | [] => rest
              | unread => unread :: rest
              end)
    end.

(** One connection as [handleTCP] sees it: the segments still to come, the
    queries recorded ([s.queries]), the writes made on the connection, and
    the state of the handler, which may be a closure such as
    [counter.Handle]. *)
Record session (H : Type) := mkSession {
  incoming : list (list byte);
  queries : list (list byte);
  sent : list (list byte);
  hstate : H
}.

Arguments mkSession {H} incoming queries sent hstate.
Arguments incoming {H} s.
Arguments queries {H} s.
Arguments sent {H} s.
Arguments hstate {H} s.

(** [[]byte{byte(len(resp) >> 8), byte(len(resp))}] *)
Definition lenBuf (resp : list byte) : list byte :=
  [Zbyte (Z.shiftr (Z.of_nat (List.length resp)) 8);
   Zbyte (Z.of_nat (List.length resp))].

Inductive turn (H : Type) :=
| Again (s : session H)
| Stop (s : session H).

Arguments Again {H} s.
Arguments Stop {H} s.

(** One turn of the loop of [handleTCP] (lines 438-478), the server not
    being closed; [handler] is [s.Handler]. *)
Definition handleTCP_iter {H : Type}
    (handler : option (list byte -> H -> option (list byte) * H))
    (s : session H) : turn H :=
  match connRead 2 (incoming s) with
  | None => Stop s
  | Some (hdr, segs1) =>
      let s0 := mkSession segs1 (queries s) (sent s) (hstate s) in
      match hdr with
      | [hi; lo] =>
          let msgLen := Z.lor (Z.shiftl (byteZ hi) 8) (byteZ lo) in
          if msgLen >? 4096 - 2 then Stop s0
          else
            match connRead msgLen segs1 with
            | None => Stop s0
            | Some (query, segs2) =>
                let recorded := queries s ++ [query] in
                match handler with
                | None => Again (mkSession segs2 recorded (sent s) (hstate s))
                | Some h =>
                    let (resp, st) := h query (hstate s) in
                    match resp with
                    | None => Again (mkSession segs2 recorded (sent s) st)
                    | Some r =>
                        Again (mkSession segs2 recorded
                                         (sent s ++ [lenBuf r; r]) st)
                    end
                end
            end
      | _ => Stop s0
      end
  end.

(** The loop, for at most [fuel] turns ([None]: more turns are needed). *)
Fixpoint handleTCP {H : Type} (fuel : nat)
    (handler : option (list byte -> H -> option (list byte) * H))
    (s : session H) : option (session H) :=
  match fuel with
  | O => None
  | S fuel' =>
      match handleTCP_iter handler s with
      | Stop s' => Some s'
      | Again s' => handleTCP fuel' handler s'
      end
  end.

(** The bytes still to come. *)
Definition pendingBytes {H : Type} (s : session H) : nat :=
  List.length (concat (incoming s)).

(** A frame that arrives in one segment. *)
Definition whole (msg : list byte) : list byte :=
  putUint16be (Z.of_nat (List.length msg)) ++ msg.

(** What a handler without state answers to the queries [msgs], as
    written on the connection. *)
Definition answers (f : handlerFunc) (msgs : list (list byte)) : list (list byte) :=
  flat_map (fun msg => match f msg with
                       | Some r => [lenBuf r; r]
                       | None => []
                       end) msgs.

End Testutil.

(** * Properties *)

(** ** Slices *)

Section SliceFacts.
Import Go.

Lemma cap_make (n : Z) : 0 <= n -> cap (make n) = n.
Proof.
  intros Hn. unfold cap, make. cbn [backing].
  rewrite repeat_length. lia.
Qed.

Lemma cap_store (s : slice) (bs : list byte) : cap (store s bs) = cap s.
Proof.
  unfold cap, store. cbn [backing].
  rewrite length_app, length_skipn, length_firstn. f_equal. lia.
Qed.

Lemma store_prefix (s : slice) (bs : list byte) :
  Z.of_nat (List.length bs) <= cap s ->
  firstn (List.length bs) (backing (store s bs)) = bs.
Proof.
  unfold cap, store. cbn [backing]. intros H.
  rewrite (firstn_all2 (n := List.length (backing s)) bs) by lia.
  rewrite firstn_app, Nat.sub_diag, firstn_all. cbn [firstn].
  apply app_nil_r.
Qed.

Lemma upto_in_range (s : slice) (n : Z) :
  0 <= n <= cap s -> upto s n = Some (mkSlice (backing s) n).
Proof.
  intros [H0 H1]. unfold upto.
  apply Z.leb_le in H0. apply Z.leb_le in H1. now rewrite H0, H1.
Qed.

Lemma byteZ_range (b : byte) : 0 <= byteZ b <= 255.
Proof.
  unfold byteZ. pose proof (Byte.to_N_bounded b) as H. lia.
Qed.

Lemma uint16be_range (bs : list byte) : 0 <= uint16be bs <= 65535.
Proof.
  unfold uint16be.
  destruct bs as [|hi [|lo [|x bs]]]; try lia.
  pose proof (byteZ_range hi). pose proof (byteZ_range lo). lia.
Qed.

End SliceFacts.

(** ** The tiered buffer pool *)

Section BufferPoolFacts.
Import Go BufferPool.

Lemma remove_nth_Forall (P : slice -> Prop) (l : list slice) :
  Forall P l -> forall i, Forall P (remove_nth i l).
Proof.
  induction 1 as [|x l Hx Hl IH]; intros [|i]; cbn; auto.
Qed.

Lemma poolGet_of (n : Z) (c : nat) (p : syncPool) :
  poolOf n p -> cap (fst (poolGet c p)) = n /\ poolOf n (snd (poolGet c p)).
Proof.
  intros [Hitems Hnew]. unfold poolGet.
  destruct (nth_error (items p) c) as [x|] eqn:Hc; cbn.
  - split.
    + apply nth_error_In in Hc.
      rewrite Forall_forall in Hitems. now apply Hitems.
    + split; cbn; [now apply remove_nth_Forall | exact Hnew].
  - split; [exact Hnew | split; assumption].
Qed.

Lemma poolPut_of (n : Z) (b : slice) (p : syncPool) :
  poolOf n p -> cap b = n -> poolOf n (poolPut b p).
Proof.
  intros [Hitems Hnew] Hb. split; cbn; auto.
Qed.

Lemma wf_New : wf NewTieredBufferPool.
Proof.
  repeat split; cbn; try constructor; apply cap_make; lia.
Qed.

Lemma Get_wf (c : nat) (size : Z) (p : TieredBufferPool) :
  wf p ->
  cap (fst (Get c size p)) = tierCap (tierOf size) /\ wf (snd (Get c size p)).
Proof.
  intros (Hs & Hm & Hl). unfold Get, tierOf.
  destruct (size <=? 512); [|destruct (size <=? 4096)].
  - destruct (poolGet_of 512 c _ Hs) as [H1 H2].
    destruct (poolGet c (small p)); cbn in *.
    split; [exact H1 | unfold wf; cbn; tauto].
  - destruct (poolGet_of 4096 c _ Hm) as [H1 H2].
    destruct (poolGet c (medium p)); cbn in *.
    split; [exact H1 | unfold wf; cbn; tauto].
  - destruct (poolGet_of 65536 c _ Hl) as [H1 H2].
    destruct (poolGet c (large p)); cbn in *.
    split; [exact H1 | unfold wf; cbn; tauto].
Qed.

Lemma GetLarge_wf (c : nat) (p : TieredBufferPool) :
  wf p -> cap (fst (GetLarge c p)) = 65536 /\ wf (snd (GetLarge c p)).
Proof.
  intros (Hs & Hm & Hl). unfold GetLarge.
  destruct (poolGet_of 65536 c _ Hl) as [H1 H2].
  destruct (poolGet c (large p)); cbn in *.
  split; [exact H1 | unfold wf; cbn; tauto].
Qed.

Lemma Put_wf (buf : option slice) (p : TieredBufferPool) :
  wf p -> wf (Put buf p).
Proof.
  intros Hwf. destruct buf as [b|]; cbn; [|exact Hwf].
  destruct Hwf as (Hs & Hm & Hl).
  destruct (cap b =? 512) eqn:H1; [apply Z.eqb_eq in H1|].
  { unfold wf; cbn; split; [|split]; auto using poolPut_of. }
  destruct (cap b =? 4096) eqn:H2; [apply Z.eqb_eq in H2|].
  { unfold wf; cbn; split; [|split]; auto using poolPut_of. }
  destruct (cap b =? 65536) eqn:H3; [apply Z.eqb_eq in H3|].
  { unfold wf; cbn; split; [|split]; auto using poolPut_of. }
  unfold wf; auto.
Qed.

Lemma apply_wf (o : op) (p : TieredBufferPool) : wf p -> wf (apply o p).
Proof.
  intros H. destruct o; cbn.
  - now apply Get_wf.
  - now apply GetLarge_wf.
  - now apply Put_wf.
Qed.

Lemma fold_apply_wf (ops : list op) (p : TieredBufferPool) :
  wf p -> wf (fold_left (fun p o => apply o p) ops p).
Proof.
  revert p. induction ops as [|o ops IH]; intros p H; cbn; auto.
  apply IH. now apply apply_wf.
Qed.

Lemma after_wf (ops : list op) : wf (after ops).
Proof. apply fold_apply_wf, wf_New. Qed.

(** C4.  Whatever was done to the pool before, [Get(n)] hands out a buffer
    of capacity exactly 512 when [n <= 512], exactly 4096 when
    [512 < n <= 4096] and exactly 65536 for every larger [n] (those above
    65536 included); [GetLarge()] always hands out capacity 65536.  Both are
    total functions: there is no panic and no other allocation size. *)
Theorem Get_capacity (ops : list op) (c : nat) (n : Z) :
  (n <= 512 -> cap (fst (Get c n (after ops))) = 512) /\
  (512 < n <= 4096 -> cap (fst (Get c n (after ops))) = 4096) /\
  (4096 < n -> cap (fst (Get c n (after ops))) = 65536) /\
  cap (fst (GetLarge c (after ops))) = 65536.
Proof.
  pose proof (after_wf ops) as Hwf.
  destruct (Get_wf c n _ Hwf) as [Hcap _].
  destruct (GetLarge_wf c _ Hwf) as [Hlarge _].
  unfold tierOf in Hcap.
  repeat split; try assumption; intros Hn; rewrite Hcap.
  - apply Z.leb_le in Hn. now rewrite Hn.
  - destruct Hn as [Hlo Hhi].
    apply Z.leb_gt in Hlo. apply Z.leb_le in Hhi. now rewrite Hlo, Hhi.
  - assert (H1 : (n <=? 512) = false) by (apply Z.leb_gt; lia).
    assert (H2 : (n <=? 4096) = false) by (apply Z.leb_gt; lia).
    now rewrite H1, H2.
Qed.

Lemma not_self_cons (A : Type) (x : A) (l : list A) : l = x :: l -> False.
Proof.
  intros H. apply (f_equal (@List.length A)) in H. cbn in H. lia.
Qed.

Lemma Put_tier (p : TieredBufferPool) (b : slice) (t : tier) :
  (returnedTo b t p (Put (Some b) p) <-> cap b = tierCap t) /\
  (cap b <> tierCap t -> untouched t p (Put (Some b) p)).
Proof.
  unfold returnedTo, untouched, Put.
  destruct (Z.eqb_spec (cap b) 512) as [H1|H1];
    [|destruct (Z.eqb_spec (cap b) 4096) as [H2|H2];
      [|destruct (Z.eqb_spec (cap b) 65536) as [H3|H3]]];
    destruct t; cbn; (split; [split|]); intros H;
    try reflexivity; try lia; try congruence;
    exfalso; eapply not_self_cons; eassumption.
Qed.

(** C5.  [Put] of a non-nil buffer places it on the free list of the small,
    medium or large tier exactly when its capacity is exactly 512, 4096 or
    65536, and leaves every other tier as it was; a buffer of any other
    capacity leaves the whole pool unchanged ([Put] is total and returns
    nothing, so there is no error and no panic).  Hence a [Put] after a
    [Get(n)] returns the buffer to the tier that served [n] and to no other,
    and whatever a tier hands out has that tier's capacity. *)
Theorem Put_matching_tier (ops : list op) (p : TieredBufferPool) (b : slice)
    (t : tier) (c : nat) (n : Z) :
  (returnedTo b t p (Put (Some b) p) <-> cap b = tierCap t) /\
  (cap b <> tierCap t -> untouched t p (Put (Some b) p)) /\
  (cap b <> 512 -> cap b <> 4096 -> cap b <> 65536 -> Put (Some b) p = p) /\
  (returnedTo (fst (Get c n (after ops))) t (snd (Get c n (after ops)))
              (Put (Some (fst (Get c n (after ops)))) (snd (Get c n (after ops))))
   <-> t = tierOf n) /\
  cap (fst (poolGet c (tierPool t (after ops)))) = tierCap t.
Proof.
  destruct (Put_tier p b t) as [Hiff Hun].
  split; [exact Hiff|]. split; [exact Hun|]. split; [|split].
  - intros H1 H2 H3. unfold Put.
    destruct (Z.eqb_spec (cap b) 512); [lia|].
    destruct (Z.eqb_spec (cap b) 4096); [lia|].
    destruct (Z.eqb_spec (cap b) 65536); [lia|reflexivity].
  - destruct (Get_wf c n _ (after_wf ops)) as [Hcap _].
    destruct (Put_tier (snd (Get c n (after ops))) (fst (Get c n (after ops))) t)
      as [Hiff' _].
    rewrite Hiff', Hcap.
    destruct t, (tierOf n); cbn; split; intros H;
      try reflexivity; discriminate.
  - pose proof (after_wf ops) as (Hs & Hm & Hl).
    destruct t; cbn; eapply poolGet_of; eassumption.
Qed.

End BufferPoolFacts.

(** ** The TCP connection handler *)

Section TCPFacts.
Import Go BufferPool TCP.

Variable E : Env.

(** *** The code respects the token and WaitGroup discipline *)

Arguments deferred : simpl never.
Arguments respond : simpl never.

Ltac task_step :=
  first [ apply tk_ret
        | apply tk_release
        | apply tk_done
        | apply tk_do; [reflexivity | intros ? ?] ].

Lemma deferred_ok (recovered : option string) (buf rbuf : slice) (q : Query)
    (qsize rsize : Z) (ri : ResolveInfo) (err : option error) :
  task_ok true true
    (deferred E recovered buf rbuf q qsize rsize ri err ;; call WgDone).
Proof.
  unfold deferred. destruct recovered; repeat (cbn; task_step).
Qed.

Lemma respond_ok (buf rbuf : slice) (q : Query) (qsize : Z)
    (perr : option error) (out : outcome) :
  task_ok true true (respond E buf rbuf q qsize perr out ;; call WgDone).
Proof.
  unfold respond.
  repeat (cbn;
          first [ apply deferred_ok
                | task_step
                | match goal with
                  | |- context [match ?x with _ => _ end] => destruct x
                  end ]).
Qed.

Lemma queryTask_ok (buf : slice) (qsize : Z) :
  0 <= qsize <= cap buf -> task_ok true true (queryTask E buf qsize).
Proof.
  intros Hq. unfold queryTask. rewrite (upto_in_range _ _ Hq).
  destruct (queryNew E _ _ _) as [q perr].
  repeat (cbn;
          first [ apply respond_ok
                | task_step
                | match goal with
                  | |- context [match ?x with _ => _ end] => destruct x
                  end ]).
Qed.

Ltac loop_step :=
  first [ apply lk_ret
        | apply lk_acquire
        | apply lk_release
        | apply lk_add
        | apply lk_do; [reflexivity | intros ? ?] ].

Lemma serveTCPConn_iter_ok : loop_ok E false false serveTCPConn_iter.
Proof.
  unfold serveTCPConn_iter, readTCP. cbn.
  apply lk_acquire. cbn.
  apply lk_do; [reflexivity|]. intros buf Hbuf. cbn in Hbuf. cbn.
  apply lk_do; [reflexivity|]. intros [hdr herr] _. cbn.
  destruct herr as [e|]; cbn.
  { do 2 (loop_step; cbn). destruct e; loop_step. }
  pose proof (uint16be_range hdr) as Hlen.
  destruct (uint16be hdr >? maxTCPSize) eqn:Hgt; cbn.
  { do 3 (loop_step; cbn). }
  rewrite upto_in_range by lia. cbn.
  apply lk_do; [reflexivity|]. intros [got e] Hgot. cbn in Hgot. cbn.
  destruct e as [e|]; cbn.
  { do 2 (loop_step; cbn). destruct e; loop_step. }
  destruct (Z.of_nat (List.length got) <=? 14) eqn:Hsmall; cbn.
  { do 3 (loop_step; cbn). }
  apply lk_add. cbn. apply lk_spawn; [|apply lk_ret].
  apply queryTask_ok. rewrite cap_store. lia.
Qed.

Lemma serveTCPConn_exit_ok (ret : option error) :
  exit_ok 0 (serveTCPConn_exit ret).
Proof.
  unfold serveTCPConn_exit. cbn.
  apply ek_wait. cbn. apply ek_close. cbn. apply ek_ret.
Qed.

(** *** Bookkeeping over the list of goroutines and over the trace *)

Lemma update_length (i : nat) (t' : task) (ts : list task) :
  List.length (update i t' ts) = List.length ts.
Proof.
  revert i. induction ts as [|t ts IH]; intros [|i]; cbn; auto.
Qed.

Lemma nth_error_update_eq (i : nat) (t t' : task) (ts : list task) :
  nth_error ts i = Some t -> nth_error (update i t' ts) i = Some t'.
Proof.
  revert i. induction ts as [|t0 ts IH]; intros [|i]; cbn; try discriminate; auto.
Qed.

Lemma nth_error_update_neq (i j : nat) (t' : task) (ts : list task) :
  i <> j -> nth_error (update i t' ts) j = nth_error ts j.
Proof.
  revert i j. induction ts as [|t0 ts IH]; intros [|i] [|j] H; cbn; auto.
  - congruence.
Qed.

Lemma Forall_update (P : task -> Prop) (i : nat) (t' : task) (ts : list task) :
  Forall P ts -> P t' -> Forall P (update i t' ts).
Proof.
  intros H Ht'. revert i.
  induction H as [|t ts Ht Hts IH]; intros [|i]; cbn; auto.
Qed.

Lemma holding_update (i : nat) (t t' : task) (ts : list task) :
  nth_error ts i = Some t ->
  (holding (update i t' ts) + b2n (tholds t) = holding ts + b2n (tholds t'))%nat.
Proof.
  unfold holding. revert i.
  induction ts as [|t0 ts IH]; intros [|i] H; cbn in *; try discriminate.
  - injection H as ->. destruct (tholds t), (tholds t'); cbn; lia.
  - specialize (IH _ H). destruct (tholds t0); cbn; lia.
Qed.

Lemma living_update (i : nat) (t t' : task) (ts : list task) :
  nth_error ts i = Some t ->
  (living (update i t' ts) + b2n (tlive t) = living ts + b2n (tlive t'))%nat.
Proof.
  unfold living. revert i.
  induction ts as [|t0 ts IH]; intros [|i] H; cbn in *; try discriminate.
  - injection H as ->. destruct (tlive t), (tlive t'); cbn; lia.
  - specialize (IH _ H). destruct (tlive t0); cbn; lia.
Qed.

Lemma holding_app (ts : list task) (t : task) :
  holding (ts ++ [t]) = (holding ts + b2n (tholds t))%nat.
Proof.
  unfold holding. rewrite filter_app, length_app. cbn.
  destruct (tholds t); reflexivity.
Qed.

Lemma living_app (ts : list task) (t : task) :
  living (ts ++ [t]) = (living ts + b2n (tlive t))%nat.
Proof.
  unfold living. rewrite filter_app, length_app. cbn.
  destruct (tlive t); reflexivity.
Qed.

Lemma living_zero (ts : list task) :
  living ts = O -> Forall (fun t => tlive t = false) ts.
Proof.
  unfold living. induction ts as [|t ts IH]; cbn; intros H; constructor.
  - destruct (tlive t); [discriminate|reflexivity].
  - apply IH. destruct (tlive t); [discriminate|assumption].
Qed.

Lemma count_cons (f : event -> bool) (e : event) (tr : list event) :
  count f (e :: tr) = (b2n (f e) + count f tr)%nat.
Proof.
  unfold count. cbn. destruct (f e); reflexivity.
Qed.

Lemma count_le (f g : event -> bool) (tr : list event) :
  (forall e, f e = true -> g e = true) -> (count f tr <= count g tr)%nat.
Proof.
  intros Hfg. induction tr as [|e tr IH]; [unfold count; cbn; lia|].
  rewrite !count_cons. specialize (Hfg e).
  destruct (f e), (g e); cbn; lia.
Qed.

Lemma count_by_task (f : actor -> event -> bool) (i : nat) (tr : list event) :
  (forall e, f (Task i) e = true -> made_by (Task i) e = true) ->
  count (made_by (Task i)) tr = O -> count (f (Task i)) tr = O.
Proof.
  intros Hf H0. pose proof (count_le (f (Task i)) _ tr Hf). lia.
Qed.

Lemma release_made_by (a : actor) (e : event) :
  is_release_by a e = true -> made_by a e = true.
Proof.
  unfold is_release_by. intros H. now apply andb_prop in H.
Qed.

Lemma actor_eqb_refl (a : actor) : actor_eqb a a = true.
Proof. destruct a; cbn; auto using Nat.eqb_refl. Qed.

Lemma actor_eqb_task (i j : nat) : actor_eqb (Task i) (Task j) = Nat.eqb i j.
Proof. reflexivity. Qed.

(** The code of a goroutine that has called [wg.Done] is over. *)
Lemma task_ok_dead (h : bool) (p : prog unit) :
  task_ok h false p -> h = false /\ p = Ret tt.
Proof.
  intros H. remember false as d eqn:Hd.
  destruct H; try discriminate; auto.
Qed.

(** What an operation returns satisfies [post]. *)
Lemma exec_post (a : actor) (ch : nat) (X : Type) (c : cmd X) (s s' : state)
    (x : X) :
  wf (bpool s) -> exec E a ch c s = Some (x, s') -> post c x.
Proof.
  intros Hwf Hex. destruct c; cbn in *; auto.
  - destruct (GetLarge_wf ch _ Hwf) as [Hcap _].
    destruct (GetLarge ch (bpool s)) as [b p'].
    injection Hex as <- _. exact Hcap.
  - destruct (closed s).
    + injection Hex as <- _. cbn. lia.
    + unfold readFull in Hex.
      destruct (Z.to_nat n <=? List.length (pending (rd s)))%nat;
        [|destruct (firstn (Z.to_nat n) (pending (rd s))) as [|b0 got] eqn:Hgot];
        injection Hex as <- _; cbn [fst]; try (cbn; lia).
      * pose proof (firstn_le_length (Z.to_nat n) (pending (rd s))). lia.
      * pose proof (firstn_le_length (Z.to_nat n) (pending (rd s))) as Hle.
        rewrite Hgot in Hle. lia.
Qed.

(** *** The invariant holds initially and is kept by every step *)

Lemma Inv_init (ops : list op) (r : Reader) : Inv E (init (after ops) r).
Proof.
  constructor; cbn; auto using after_wf.
  - exists false, false. repeat split. apply serveTCPConn_iter_ok.
  - intros i t H. destruct i; discriminate.
Qed.

Lemma Inv_elsewhere (o : op) (s : state) :
  Inv E s -> Inv E (set_bpool (apply o (bpool s)) s).
Proof.
  intros [].
  constructor; cbn; auto using apply_wf.
Qed.

Arguments count : simpl never.
Arguments holding : simpl never.
Arguments living : simpl never.
Arguments wf : simpl never.
Arguments GetLarge : simpl never.
Arguments Put : simpl never.
Arguments readFull : simpl never.
Arguments queryTask : simpl never.
Arguments serveTCPConn_iter : simpl never.
Arguments serveTCPConn_exit : simpl never.
Arguments Nat.ltb : simpl never.

(** Case analysis on what a step computed. *)
Ltac split_step H :=
  cbn in H;
  repeat match type of H with
         | context [match ?x with _ => _ end] =>
             lazymatch x with
             | context [match _ with _ => _ end] => fail
             | _ => destruct x eqn:?
             end
         end;
  try discriminate H;
  try (injection H; intros; subst).

Lemma GetLarge_keeps_wf (ch : nat) (p p' : TieredBufferPool) (b : slice) :
  wf p -> GetLarge ch p = (b, p') -> wf p'.
Proof.
  intros Hwf Heq. pose proof (GetLarge_wf ch p Hwf) as [_ H].
  now rewrite Heq in H.
Qed.

(** Closing one conjunct of the invariant after a step. *)
Ltac field :=
  intros; rewrite ?count_cons; cbn;
  rewrite ?andb_false_r, ?andb_true_r; cbn;
  try solve [ eauto using apply_wf, Put_wf, GetLarge_keeps_wf
            | lia
            | split; [intros; try discriminate; eauto | assumption]
            | do 2 eexists; split; [eassumption|]; cbn; repeat split; auto; lia ].

Lemma Inv_main_loop (ch : nat) (s s' : state) (p : prog flow) :
  Inv E s -> main s = Looping p -> step E (Run Main ch) s = Some s' ->
  Inv E s'.
Proof.
  intros HI Hmain Hstep.
  pose proof (inv_main E s HI) as Hm. rewrite Hmain in Hm.
  destruct Hm as (h & a & Hok & Hin & Hwg & Hcl).
  unfold step in Hstep. rewrite (inv_alive E s HI), Hmain in Hstep.
  destruct HI. clear inv_main0.
  destruct Hok as [f | k Hk | k Hk | k Hk | buf qsize k Htask Hk
                  | h a X c k Hc Hk].
  - (* end of a turn *)
    destruct f as [|ret]; split_step Hstep; (constructor; cbn; [field..]).
    + exists false, false. auto using serveTCPConn_iter_ok.
    + exists O. repeat split; auto using serveTCPConn_exit_ok; try lia.
      congruence.
  - (* Acquire *)
    split_step Hstep. constructor; cbn; [field..].
  - (* Release *)
    split_step Hstep. constructor; cbn; [field..].
  - (* wg.Add *)
    split_step Hstep. constructor; cbn; [field..].
  - (* go *)
    split_step Hstep. constructor; cbn; [field..].
    + apply Forall_app. split; [assumption|]. repeat constructor. exact Htask.
    + exists false, false. rewrite holding_app, living_app. cbn in *.
      repeat split; auto; lia.
    + destruct (Nat.lt_ge_cases i (List.length (tasks s))) as [Hlt|Hge].
      * rewrite nth_error_app1 in H by assumption. auto.
      * rewrite nth_error_app2 in H by assumption.
        destruct (i - List.length (tasks s))%nat as [|[|j]]; try discriminate.
        injection H as <-. cbn.
        apply (count_by_task is_release_by); auto using release_made_by.
    + apply inv_fresh0. rewrite length_app in H. lia.
    + rewrite length_app. cbn. lia.
  - cbn [advance] in Hstep.
    destruct (exec E Main ch c s) as [[x s1]|] eqn:Hex; [|discriminate].
    injection Hstep as <-.
    specialize (Hk x (exec_post _ _ _ _ _ _ _ inv_pool0 Hex)).
    destruct c; try discriminate Hc; split_step Hex;
      (constructor; cbn; [field..]).
Qed.

Lemma Inv_main_exit (ch : nat) (s s' : state) (p : prog (option error)) :
  Inv E s -> main s = Exiting p -> step E (Run Main ch) s = Some s' ->
  Inv E s'.
Proof.
  intros HI Hmain Hstep.
  pose proof (inv_main E s HI) as Hm. rewrite Hmain in Hm.
  destruct Hm as (st & Hok & Hin & Hwg & Hst & Hcl).
  unfold step in Hstep. rewrite (inv_alive E s HI), Hmain in Hstep.
  destruct HI. clear inv_main0.
  destruct Hok as [k Hk | k Hk | ret].
  - (* wg.Wait *)
    split_step Hstep. constructor; cbn; [field..].
    exists 1%nat. repeat split; auto; try lia.
    + intros Hc. apply Hcl in Hc. lia.
  - (* c.Close *)
    split_step Hstep. constructor; cbn; [field..].
    exists 2%nat. repeat split; auto.
  - discriminate Hstep.
Qed.

Lemma live_counts (ts : list task) (i : nat) (t : task) :
  nth_error ts i = Some t -> tlive t = true -> (1 <= living ts)%nat.
Proof.
  unfold living. revert i.
  induction ts as [|t0 ts IH]; intros [|i] H Hl; cbn in *; try discriminate.
  - injection H as ->. rewrite Hl. cbn. lia.
  - specialize (IH _ H Hl). destruct (tlive t0); cbn; lia.
Qed.

Lemma once_step (i : nat) (X : Type) (c : cmd X) (x : X) (tr : list event)
    (ts : list task) (t new : task) :
  nth_error ts i = Some t ->
  (forall j t', nth_error ts j = Some t' ->
     count (is_release_by (Task j)) tr = b2n (negb (tholds t'))) ->
  (b2n (is_release (Ev (Task i) c x)) + b2n (negb (tholds t))
   = b2n (negb (tholds new)))%nat ->
  forall j t', nth_error (update i new ts) j = Some t' ->
    count (is_release_by (Task j)) (Ev (Task i) c x :: tr)
    = b2n (negb (tholds t')).
Proof.
  intros Hi Hold Hnew j t' Hj. rewrite count_cons.
  unfold is_release_by at 1. cbn [made_by]. rewrite actor_eqb_task.
  destruct (Nat.eqb_spec j i) as [->|Hne].
  - rewrite (nth_error_update_eq _ _ _ _ Hi) in Hj. injection Hj as <-.
    rewrite (Hold _ _ Hi). cbn [andb]. lia.
  - rewrite nth_error_update_neq in Hj by congruence.
    cbn. auto.
Qed.

Lemma fresh_step (i : nat) (X : Type) (c : cmd X) (x : X) (tr : list event)
    (ts : list task) (t new : task) :
  nth_error ts i = Some t ->
  (forall j, (List.length ts <= j)%nat -> count (made_by (Task j)) tr = O) ->
  forall j, (List.length (update i new ts) <= j)%nat ->
    count (made_by (Task j)) (Ev (Task i) c x :: tr) = O.
Proof.
  intros Hi Hold j Hj. rewrite update_length in Hj.
  assert (Hlt : (i < List.length ts)%nat)
    by (apply nth_error_Some; congruence).
  rewrite count_cons. cbn [made_by]. rewrite actor_eqb_task.
  destruct (Nat.eqb_spec j i) as [->|Hne]; [lia|]. cbn. auto.
Qed.

Lemma resolve_step (i : nat) (X : Type) (c : cmd X) (x : X) (tr : list event)
    (ts : list task) (t : task) :
  nth_error ts i = Some t ->
  (forall j t', nth_error ts j = Some t' ->
     count (is_release_by (Task j)) tr = b2n (negb (tholds t'))) ->
  (is_resolve_by (Task i) (Ev (Task i) c x) = true -> tholds t = true) ->
  resolve_holds_token tr ->
  resolve_holds_token (Ev (Task i) c x :: tr).
Proof.
  intros Hi Honce Hh Hold. split; [|exact Hold].
  intros j Hj. unfold is_resolve_by in *. cbn [made_by] in *.
  rewrite actor_eqb_task in Hj.
  destruct (Nat.eqb_spec j i) as [Heq|Hne]; [subst j|discriminate Hj].
  rewrite actor_eqb_refl in Hh.
  rewrite (Honce _ _ Hi), (Hh Hj). reflexivity.
Qed.

(** While a goroutine has its [wg.Done] ahead the socket is open. *)
Lemma live_means_open (s : state) (i : nat) (t : task) :
  Inv E s -> nth_error (tasks s) i = Some t -> tlive t = true ->
  closed s = false /\ (1 <= wg s)%nat.
Proof.
  intros HI Hi Hl. pose proof (live_counts _ _ _ Hi Hl) as H1.
  pose proof (inv_main E s HI) as Hm.
  destruct (main s).
  - destruct Hm as (h & a & _ & _ & Hwg & Hcl). split; [assumption|lia].
  - destruct Hm as (st & _ & _ & Hwg & Hst & Hcl).
    split; [|lia].
    destruct (closed s); [|reflexivity].
    assert (st = 2%nat) by (now apply Hcl). lia.
Qed.

(** The conjuncts of the invariant after a step of goroutine [i], whose
    entry in the list of goroutines is [Hi]. *)
Ltac main_field Hi Hmain :=
  match goal with
  | |- context [update ?i ?new (tasks ?s)] =>
      pose proof (holding_update i _ new _ Hi) as Hhold;
      pose proof (living_update i _ new _ Hi) as Hlive;
      cbn in Hhold, Hlive
  end;
  let st := fresh "st" in
  let Hst := fresh "Hst" in
  let Hcl := fresh "Hcl" in
  destruct (main _);
  [ destruct Hmain as (h0 & a0 & ? & ? & ? & ?);
    exists h0, a0; repeat split; auto; lia
  | destruct Hmain as (st & ? & ? & ? & Hst & Hcl);
    exists st; repeat split; auto; try lia; try tauto ].

Ltac task_fields Hi Hmain :=
  constructor; cbn; unfold moved; cbn; rewrite ?andb_true_r;
  [ field
  | field
  | apply Forall_update; [assumption | cbn; auto]
  | main_field Hi Hmain
  | field
  | eapply once_step; [exact Hi | assumption | cbn; reflexivity]
  | eapply fresh_step; [exact Hi | assumption]
  | rewrite update_length; field
  | eapply resolve_step;
    [ exact Hi | assumption
    | unfold is_resolve_by; cbn; rewrite ?andb_false_r; try discriminate; auto
    | assumption ]
  | field
  | field
  | field ].

Lemma Inv_task (i ch : nat) (s s' : state) :
  Inv E s -> step E (Run (Task i) ch) s = Some s' -> Inv E s'.
Proof.
  intros HI Hstep.
  unfold step in Hstep. rewrite (inv_alive E s HI) in Hstep.
  destruct (nth_error (tasks s) i) as [t|] eqn:Hi; [|discriminate].
  assert (Hok : task_ok (tholds t) (tlive t) (tcode t)).
  { pose proof (inv_tasks E s HI) as Hall. rewrite Forall_forall in Hall.
    apply Hall. eapply nth_error_In; eassumption. }
  destruct t as [p h d]. cbn [tholds tlive tcode] in *.
  assert (Hopen : d = true -> closed s = false /\ (1 <= wg s)%nat).
  { intros ->. eapply live_means_open; eauto. }
  destruct HI.
  destruct Hok as [| k Hk | k Hk | h X c k Hc Hk].
  - discriminate.
  - (* the token is given back *)
    split_step Hstep. task_fields Hi inv_main0.
  - (* wg.Done *)
    destruct (Hopen eq_refl) as [_ Hwg].
    split_step Hstep; [lia|]. task_fields Hi inv_main0.
  - destruct (Hopen eq_refl) as [Hcl _].
    cbn [advance] in Hstep.
    destruct (exec E (Task i) ch c s) as [[x s1]|] eqn:Hex; [|discriminate].
    injection Hstep as <-.
    specialize (Hk x (exec_post _ _ _ _ _ _ _ inv_pool0 Hex)).
    destruct c; try discriminate Hc; cbn in Hex; rewrite ?Hcl in Hex;
      split_step Hex; task_fields Hi inv_main0.
Qed.

Theorem Inv_step (m : move) (s s' : state) :
  Inv E s -> step E m s = Some s' -> Inv E s'.
Proof.
  intros HI Hstep. destruct m as [[|i] ch | o].
  - destruct (main s) as [p|p] eqn:Hmain.
    + eapply Inv_main_loop; eassumption.
    + eapply Inv_main_exit; eassumption.
  - eapply Inv_task; eassumption.
  - unfold step in Hstep. rewrite (inv_alive E s HI) in Hstep.
    injection Hstep as <-. now apply Inv_elsewhere.
Qed.

Lemma Inv_run (ms : list move) (s s' : state) :
  Inv E s -> run E ms s = Some s' -> Inv E s'.
Proof.
  revert s. induction ms as [|m ms IH]; intros s HI Hrun; cbn in Hrun.
  - now injection Hrun as <-.
  - destruct (step E m s) as [s1|] eqn:Hstep; [|discriminate].
    eapply IH; [|eassumption]. eapply Inv_step; eassumption.
Qed.

Lemma Inv_reachable (ops : list op) (r : Reader) (s : state) :
  reachable E ops r s -> Inv E s.
Proof.
  intros [ms Hrun]. eapply Inv_run; [apply Inv_init | eassumption].
Qed.

(** *** Tokens and the WaitGroup join *)

Lemma task_ok_ret (h d : bool) (x : unit) :
  task_ok h d (Ret x) -> h = false /\ d = false.
Proof.
  intros H. remember (Ret x) as p eqn:Hp.
  destruct H; try discriminate; auto.
Qed.

Lemma exit_ok_ret (st : nat) (ret : option error) :
  exit_ok st (Ret ret) -> st = 2%nat.
Proof.
  intros H. remember (Ret ret) as p eqn:Hp.
  destruct H; try discriminate; auto.
Qed.

Lemma holding_le_living_free (ts : list task) :
  Forall (fun t => tholds t = false) ts -> holding ts = O.
Proof.
  unfold holding. induction 1 as [|t ts Ht Hts IH]; cbn; auto.
  now rewrite Ht.
Qed.

(** Once the WaitGroup counter is down to the goroutines' share of zero,
    every goroutine has run to its end and holds no token. *)
Lemma joined (s : state) :
  Inv E s -> living (tasks s) = O ->
  Forall (fun t => tcode t = Ret tt /\ tholds t = false) (tasks s).
Proof.
  intros HI H0. pose proof (living_zero _ H0) as Hdead.
  pose proof (inv_tasks E s HI) as Hok.
  rewrite Forall_forall in *. intros t Ht.
  specialize (Hdead t Ht). specialize (Hok t Ht). cbn in Hdead.
  rewrite Hdead in Hok. apply task_ok_dead in Hok. tauto.
Qed.

Lemma returned_joined (s : state) (ret : option error) :
  Inv E s -> returned s = Some ret ->
  closed s = true /\ living (tasks s) = O /\ inflight s = holding (tasks s).
Proof.
  intros HI Hret. pose proof (inv_main E s HI) as Hm.
  unfold returned in Hret.
  destruct (main s) as [p|p]; [discriminate|].
  destruct p as [r| |]; try discriminate.
  destruct Hm as (st & Hok & Hin & Hwg & Hst & Hcl).
  apply exit_ok_ret in Hok. subst st.
  repeat split; [now apply Hcl | rewrite <- Hwg; apply Hst; lia | assumption].
Qed.

Lemma closed_joined (s : state) :
  Inv E s -> closed s = true -> living (tasks s) = O.
Proof.
  intros HI Hc. pose proof (inv_main E s HI) as Hm.
  destruct (main s) as [p|p].
  - destruct Hm as (h & a & _ & _ & _ & Hcl). congruence.
  - destruct Hm as (st & _ & _ & Hwg & Hst & Hcl).
    rewrite <- Hwg. apply Hst. apply Hcl in Hc. lia.
Qed.

Lemma tokens_bounds (s : state) :
  Inv E s -> (holding (tasks s) <= inflight s <= holding (tasks s) + 1)%nat.
Proof.
  intros HI. pose proof (inv_main E s HI) as Hm.
  destruct (main s) as [p|p].
  - destruct Hm as (h & a & _ & Hin & _). destruct h; cbn in Hin; lia.
  - destruct Hm as (st & _ & Hin & _). lia.
Qed.

(** C2, as the code has it.  In every state the connection handler can
    reach, under every interleaving of its goroutines: every call of
    [Resolve] was made by a goroutine still holding the token acquired for
    it; no goroutine gave a token back twice, and one that ran to its end
    (whether [Resolve] returned, failed, fell back to SERVFAIL or panicked)
    gave it back exactly once; the tokens held are those of the goroutines
    still holding theirs plus at most the one the loop took for the frame it
    is reading; once [serveTCPConn] has returned (after a read error or a
    too-small frame, whose turn gave its token back too), every goroutine
    has finished, no token is held and as many tokens were released as were
    acquired.  At every moment the tokens held are the acquires less the
    releases; and while the connection is open with every query goroutine
    finished, at most one token is held: the one the loop takes at line 51
    before it reads the next frame. *)
Theorem tokens_released_exactly_once (ops : list op) (r : Reader) (s : state) :
  reachable E ops r s ->
  resolve_holds_token (trace s) /\
  (forall i t, nth_error (tasks s) i = Some t ->
     (count (is_release_by (Task i)) (trace s) <= 1)%nat /\
     (finished t = true -> count (is_release_by (Task i)) (trace s) = 1%nat)) /\
  (holding (tasks s) <= inflight s <= holding (tasks s) + 1)%nat /\
  (forall ret, returned s = Some ret ->
     Forall (fun t => finished t = true) (tasks s) /\
     inflight s = O /\
     count is_acquire (trace s) = count is_release (trace s)) /\
  count is_acquire (trace s) = (count is_release (trace s) + inflight s)%nat /\
  (Forall (fun t => finished t = true) (tasks s) -> (inflight s <= 1)%nat).
Proof.
  intros Hreach. pose proof (Inv_reachable _ _ _ Hreach) as HI.
  split; [exact (inv_resolve E s HI)|]. split; [|split; [|split; [|split]]].
  - intros i t Hi. rewrite (inv_once E s HI i t Hi).
    split; [destruct (tholds t); cbn; lia|].
    intros Hfin.
    assert (Hok : task_ok (tholds t) (tlive t) (tcode t)).
    { pose proof (inv_tasks E s HI) as Hall. rewrite Forall_forall in Hall.
      apply Hall. eapply nth_error_In; eassumption. }
    unfold finished in Hfin.
    destruct (tcode t) as [x| |]; try discriminate.
    apply task_ok_ret in Hok. destruct Hok as [-> _]. reflexivity.
  - now apply tokens_bounds.
  - intros ret Hret.
    destruct (returned_joined s ret HI Hret) as (_ & Hlive & Hin).
    pose proof (joined s HI Hlive) as Hall.
    assert (H0 : holding (tasks s) = O).
    { apply holding_le_living_free.
      eapply Forall_impl; [|exact Hall]. cbn. tauto. }
    split; [|split].
    + eapply Forall_impl; [|exact Hall]. cbn. intros t [Hc _].
      unfold finished. now rewrite Hc.
    + lia.
    + pose proof (inv_balance E s HI). lia.
  - exact (inv_balance E s HI).
  - intros Hall.
    assert (H0 : holding (tasks s) = O).
    { apply holding_le_living_free.
      pose proof (inv_tasks E s HI) as Hok.
      rewrite Forall_forall in *. intros t Ht.
      specialize (Hall t Ht). specialize (Hok t Ht). cbn in Hall.
      unfold finished in Hall.
      destruct (tcode t) as [x| |] eqn:Hc; try discriminate.
      apply task_ok_ret in Hok. tauto. }
    pose proof (tokens_bounds s HI). lia.
Qed.

(** C3.  In every state the connection handler can reach, under every
    interleaving: if the socket has been closed then every goroutine started
    on this connection has run to its end (the deferred function passes
    [wg.Wait] before it calls [Close]); no write was ever answered with
    "use of closed network connection"; and no write was issued after the
    close.  When [serveTCPConn] has returned, the socket is closed. *)
Theorem close_follows_join (ops : list op) (r : Reader) (s : state) :
  reachable E ops r s ->
  (closed s = true -> Forall (fun t => tcode t = Ret tt) (tasks s)) /\
  count is_write_on_closed (trace s) = O /\
  close_is_last (trace s) /\
  (forall ret, returned s = Some ret -> closed s = true).
Proof.
  intros Hreach. pose proof (Inv_reachable _ _ _ Hreach) as HI.
  split; [|split; [|split]].
  - intros Hc. pose proof (joined s HI (closed_joined s HI Hc)) as Hall.
    eapply Forall_impl; [|exact Hall]. cbn. tauto.
  - exact (inv_writes E s HI).
  - exact (inv_order E s HI).
  - intros ret Hret. now destruct (returned_joined s ret HI Hret).
Qed.

(** *** One query goroutine, operation by operation *)

(** The deferred closure and [wg.Done], run by a goroutine that holds a
    token and is counted by the WaitGroup. *)
Lemma alone_deferred (i ch : nat) (recovered : option string)
    (buf rbuf : slice) (q : Query) (qsize rsize : Z) (ri : ResolveInfo)
    (err : option error) (s : state) :
  (1 <= inflight s)%nat -> (1 <= wg s)%nat ->
  exists s',
    alone E (Task i) ch
      (deferred E recovered buf rbuf q qsize rsize ri err ;; call WgDone) s
    = Some (tt, s') /\
    trace s' =
      cleanup (Task i) buf rbuf
        (record E q qsize rsize ri
           match recovered with
           | Some r => Some (ErrPanic r (runtimeStack E i))
           | None => err
           end)
      ++ match recovered with
         | Some _ => [Ev (Task i) Stack (runtimeStack E i)]
         | None => []
         end
      ++ trace s /\
    S (inflight s') = inflight s /\ S (wg s') = wg s /\
    wire s' = wire s /\ crashed s' = crashed s /\ closed s' = closed s /\
    bpool s' = Put (Some rbuf) (Put (Some buf) (bpool s)).
Proof.
  intros Hin Hwg. unfold deferred.
  destruct (inflight s) as [|n] eqn:Hn; [lia|].
  destruct (wg s) as [|w] eqn:Hw; [lia|].
  destruct recovered as [r|]; cbn; rewrite Hn; cbn; rewrite Hw; cbn;
    eexists; (split; [reflexivity|]); cbn; repeat split; auto.
Qed.

Lemma alone_bind (a : actor) (ch : nat) (A B : Type) (p : prog A)
    (f : A -> prog B) (s : state) :
  alone E a ch (x <- p ;; f x) s =
  match alone E a ch p s with
  | Some (x, s') => alone E a ch (f x) s'
  | None => None
  end.
Proof.
  revert s. induction p as [x | X c k IH | r]; intros s; cbn; auto.
  destruct (exec E a ch c s) as [[x s']|]; auto.
Qed.

Lemma writes_app (tr1 tr2 : list event) :
  writes (tr1 ++ tr2) = writes tr2 ++ writes tr1.
Proof.
  induction tr1 as [|e tr1 IH]; cbn; [now rewrite app_nil_r|].
  destruct e as [a X c x]. destruct c; auto.
  rewrite IH. now rewrite app_assoc.
Qed.

(** [writeTCP]: the length prefix is written, then, if that went well, the
    message; the error returned is that of the write that failed.  On an
    open socket whose peer accepts every write both reach the wire. *)
Lemma alone_writeTCP (i ch : nat) (bs : list byte) (s : state) :
  exists werr w1 s1,
    alone E (Task i) ch (writeTCP bs) s = Some (werr, s1) /\
    trace s1 =
      match w1 with
      | None => [Ev (Task i) (ConnWrite bs) werr]
      | Some _ => []
      end
      ++ [Ev (Task i) (ConnWrite (putUint16be (uint16 (Z.of_nat (List.length bs))))) w1]
      ++ trace s /\
    (w1 <> None -> werr = w1) /\
    (closed s = false -> (forall n, writeFault E n = None) ->
       w1 = None /\ werr = None /\
       wire s1 = wire s ++ [putUint16be (uint16 (Z.of_nat (List.length bs))); bs]) /\
    inflight s1 = inflight s /\ wg s1 = wg s /\ crashed s1 = crashed s /\
    closed s1 = closed s /\ bpool s1 = bpool s.
Proof.
  unfold writeTCP. cbn.
  destruct (closed s) eqn:Hc.
  { exists (Some ErrClosed), (Some ErrClosed). eexists.
    split; [reflexivity|]. cbn. repeat split; auto; discriminate. }
  destruct (writeFault E (List.length (wire s))) as [m|] eqn:Hf1.
  { exists (Some (ErrExternal m)), (Some (ErrExternal m)). eexists.
    split; [reflexivity|]. cbn. repeat split; auto; try discriminate;
      match goal with Hnone : forall n, _ = None |- _ =>
        rewrite Hnone in Hf1; discriminate end. }
  cbn. rewrite Hc.
  destruct (writeFault E (List.length (wire s ++ [_]))) as [m|] eqn:Hf2.
  { exists (Some (ErrExternal m)), None. eexists.
    split; [reflexivity|]. cbn. repeat split; auto; try congruence;
      match goal with Hnone : forall n, _ = None |- _ =>
        rewrite Hnone in Hf2; discriminate end. }
  exists None, None. eexists.
  split; [reflexivity|]. cbn. repeat split; auto.
  now rewrite <- app_assoc.
Qed.

Arguments answer : simpl never.
Arguments respond : simpl never.
Arguments store : simpl never.
Arguments cleanup : simpl never.
Arguments record : simpl never.

(** What one query goroutine does from start to end, in terms of the
    parsed query, the response buffer the pool gave it and what [Resolve]
    did.  [new] is what it adds to the trace after the call of [Resolve]. *)
Lemma alone_queryTask (i ch : nat) (s : state) (buf : slice) (qsize : Z)
    (q : Query) (perr : option error) (rbuf : slice) (pool' : TieredBufferPool) :
  (1 <= inflight s)%nat -> (1 <= wg s)%nat -> 0 <= qsize <= cap buf ->
  queryNew E (bytes (mkSlice (backing buf) qsize)) (remoteIP E) (localIP E)
    = (q, perr) ->
  GetLarge ch (bpool s) = (rbuf, pool') ->
  exists s' new,
    alone E (Task i) ch (queryTask E buf qsize) s = Some (tt, s') /\
    trace s' =
      new
      ++ [Ev (Task i) (CallResolve q rbuf) (Resolve E i q rbuf);
          Ev (Task i) PoolGetLarge rbuf]
      ++ match perr with
         | Some e => [Ev (Task i) (LogErr e) tt]
         | None => []
         end
      ++ trace s /\
    crashed s' = crashed s /\
    S (inflight s') = inflight s /\ S (wg s') = wg s /\
    match Resolve E i q rbuf with
    | Panicked r =>
        new = cleanup (Task i) buf rbuf
                (record E q qsize 0 zeroResolveInfo
                   (Some (ErrPanic r (runtimeStack E i))))
              ++ [Ev (Task i) Stack (runtimeStack E i)] /\
        wire s' = wire s /\
        bpool s' = Put (Some rbuf) (Put (Some buf) pool')
    | Returned rsize ri err data =>
        let (n, out) := answer E q rbuf rsize err data in
        match upto out n with
        | None =>
            new = cleanup (Task i) buf out
                    (record E q qsize n ri
                       (Some (ErrPanic "slice bounds out of range"
                                       (runtimeStack E i))))
                  ++ [Ev (Task i) Stack (runtimeStack E i)] /\
            wire s' = wire s
        | Some reply =>
            exists werr w1,
              new = cleanup (Task i) buf out
                      (record E q qsize n ri
                         match err with None => werr | Some _ => err end)
                    ++ match w1 with
                       | None => [Ev (Task i) (ConnWrite (bytes reply)) werr]
                       | Some _ => []
                       end
                    ++ [Ev (Task i)
                          (ConnWrite (putUint16be
                             (uint16 (Z.of_nat (List.length (bytes reply))))))
                          w1] /\
              (closed s = false -> (forall k, writeFault E k = None) ->
                 w1 = None /\ werr = None /\
                 wire s' = wire s ++
                   [putUint16be (uint16 (Z.of_nat (List.length (bytes reply))));
                    bytes reply])
        end /\
        bpool s' = Put (Some out) (Put (Some buf) pool')
    end.
Proof.
  intros Hin Hwg Hq Hparse Hget.
  unfold queryTask. rewrite (upto_in_range _ _ Hq), Hparse.
  set (pre := match perr with
              | Some e => [Ev (Task i) (LogErr e) tt]
              | None => []
              end ++ trace s).
  assert (H1 : alone E (Task i) ch
                 (match perr with Some e => call (LogErr e) | None => Ret tt end ;;
                  rbuf <- call PoolGetLarge ;;
                  out <- call (CallResolve q rbuf) ;;
                  respond E buf rbuf q qsize perr out ;; call WgDone) s
               = alone E (Task i) ch
                   (respond E buf rbuf q qsize perr (Resolve E i q rbuf) ;;
                    call WgDone)
                   (mkState (inflight s) (wg s) pool' (rd s) (closed s) (wire s)
                      (main s) (tasks s) (crashed s)
                      (Ev (Task i) (CallResolve q rbuf) (Resolve E i q rbuf)
                       :: Ev (Task i) PoolGetLarge rbuf :: pre))).
  { subst pre. destruct perr; cbn; rewrite Hget; reflexivity. }
  rewrite H1. clear H1.
  set (s2 := mkState _ _ _ _ _ _ _ _ _ _).
  unfold respond.
  destruct (Resolve E i q rbuf) as [rsize ri err data | r].
  - destruct (answer E q rbuf rsize err data) as [n out].
    destruct (upto out n) as [reply|].
    + rewrite alone_bind, alone_bind.
      destruct (alone_writeTCP i ch (bytes reply) s2)
        as (werr & w1 & s3 & Hw & Htr & Hwerr & Hwire & Hi3 & Hw3 & Hc3 & Hcl3 & Hp3).
      rewrite Hw, <- alone_bind.
      destruct (alone_deferred i ch None buf out q qsize n ri
                  match err with None => werr | Some _ => err end s3)
        as (s' & Hd & Htr' & Hi' & Hw' & Hwire' & Hc' & Hcl' & Hp');
        [rewrite Hi3; exact Hin | rewrite Hw3; exact Hwg |].
      exists s'.
      exists (cleanup (Task i) buf out
                (record E q qsize n ri
                   match err with None => werr | Some _ => err end)
              ++ match w1 with
                 | None => [Ev (Task i) (ConnWrite (bytes reply)) werr]
                 | Some _ => []
                 end
              ++ [Ev (Task i)
                    (ConnWrite (putUint16be
                       (uint16 (Z.of_nat (List.length (bytes reply)))))) w1]).
      split; [exact Hd|].
      split; [rewrite Htr', Htr; subst s2; cbn [trace app];
              rewrite <- !app_assoc; reflexivity|].
      split; [rewrite Hc', Hc3; reflexivity|].
      split; [rewrite Hi', Hi3; reflexivity|].
      split; [rewrite Hw', Hw3; reflexivity|].
      split.
      * exists werr, w1. split; [reflexivity|].
        intros Hopen Hnf. rewrite Hwire'. now apply Hwire.
      * rewrite Hp', Hp3. reflexivity.
    + destruct (alone_deferred i ch (Some "slice bounds out of range"%string)
                  buf out q qsize n ri err s2)
        as (s' & Hd & Htr' & Hi' & Hw' & Hwire' & Hc' & Hcl' & Hp');
        [exact Hin | exact Hwg |].
      exists s'.
      exists (cleanup (Task i) buf out
                (record E q qsize n ri
                   (Some (ErrPanic "slice bounds out of range"
                                   (runtimeStack E i))))
              ++ [Ev (Task i) Stack (runtimeStack E i)]).
      split; [exact Hd|].
      split; [rewrite Htr'; subst s2; cbn [trace app];
              rewrite <- !app_assoc; reflexivity|].
      split; [exact Hc'|]. split; [exact Hi'|]. split; [exact Hw'|].
      split; [split; [reflexivity|exact Hwire']|exact Hp'].
  - destruct (alone_deferred i ch (Some r) buf rbuf q qsize 0 zeroResolveInfo
                perr s2)
      as (s' & Hd & Htr' & Hi' & Hw' & Hwire' & Hc' & Hcl' & Hp');
      [exact Hin | exact Hwg |].
    exists s'.
    exists (cleanup (Task i) buf rbuf
              (record E q qsize 0 zeroResolveInfo
                 (Some (ErrPanic r (runtimeStack E i))))
            ++ [Ev (Task i) Stack (runtimeStack E i)]).
    split; [exact Hd|].
    split; [rewrite Htr'; subst s2; cbn [trace app];
            rewrite <- !app_assoc; reflexivity|].
    split; [exact Hc'|]. split; [exact Hi'|]. split; [exact Hw'|].
    split; [reflexivity|]. split; [exact Hwire'|exact Hp'].
Qed.

(** *** Reading a frame *)

Lemma readFull_error (n : Z) (r : Reader) :
  snd (fst (readFull n r)) <> Some ErrMessageTooLarge.
Proof.
  unfold readFull.
  destruct (Z.to_nat n <=? List.length (pending r))%nat; cbn; [discriminate|].
  destruct (firstn (Z.to_nat n) (pending r)); cbn;
    destruct (final r); discriminate.
Qed.

Lemma readFull_exact (n : Z) (payload rest : list byte) (fin : option string) :
  Z.of_nat (List.length payload) = n ->
  readFull n (mkReader (payload ++ rest) fin)
  = ((payload, None), mkReader rest fin).
Proof.
  intros Hn. unfold readFull. cbn [pending final].
  assert (Hk : Z.to_nat n = List.length payload) by lia.
  rewrite Hk, length_app.
  replace (List.length payload <=? List.length payload + List.length rest)%nat
    with true by (symmetry; apply Nat.leb_le; lia).
  rewrite firstn_app, Nat.sub_diag, firstn_all. cbn [firstn].
  rewrite app_nil_r, skipn_app, Nat.sub_diag, skipn_all. reflexivity.
Qed.

(** C10.  The length prefix decoded from two bytes is at most
    [maxTCPSize = 65535], so the guard [length > maxTCPSize] never holds;
    whatever the stream delivers and whichever goroutine reads, a [readTCP]
    that returns never returns the "message too large" error; and on a
    buffer of at least 65535 bytes it always returns. *)
Theorem readTCP_never_too_large (a : actor) (ch : nat) (buf : slice) (s : state) :
  (forall hdr, uint16be hdr <= maxTCPSize) /\
  (forall res s', alone E a ch (readTCP buf) s = Some (res, s') ->
     snd (fst res) <> Some ErrMessageTooLarge) /\
  (65535 <= cap buf ->
     exists res s', alone E a ch (readTCP buf) s = Some (res, s')).
Proof.
  assert (Hrange : forall hdr, uint16be hdr <= maxTCPSize).
  { intros hdr. pose proof (uint16be_range hdr). unfold maxTCPSize. lia. }
  split; [exact Hrange|].
  assert (Hread : forall n st,
            exists got err st',
              exec E a ch (ReadFull n) st = Some ((got, err), st') /\
              err <> Some ErrMessageTooLarge).
  { intros n st. cbn. destruct (closed st).
    - do 3 eexists. split; [reflexivity|discriminate].
    - pose proof (readFull_error n (rd st)) as Herr.
      destruct (readFull n (rd st)) as [[got err] rd'].
      do 3 eexists. split; [reflexivity|exact Herr]. }
  unfold readTCP. cbn [alone bind call].
  destruct (Hread 2 s) as (hdr & herr & s1 & -> & Hherr). cbn [fst snd].
  destruct herr as [e|]; cbn [alone bind call].
  { split; [|eauto]. intros res s' [= <- _]. exact Hherr. }
  specialize (Hrange hdr).
  replace (uint16be hdr >? maxTCPSize) with false
    by (symmetry; rewrite Z.gtb_ltb; apply Z.ltb_ge; lia).
  destruct (upto buf (uint16be hdr)) as [window|] eqn:Hup;
    cbn [alone bind call].
  - destruct (Hread (uint16be hdr) (emit (Ev a (ReadFull 2) (hdr, None)) s1))
      as (got & err & s2 & -> & Herr).
    cbn [alone bind call fst snd]. split; [|eauto].
    intros res s' [= <- _]. exact Herr.
  - split; [discriminate|]. intros Hcap.
    pose proof (uint16be_range hdr).
    rewrite upto_in_range in Hup by (unfold maxTCPSize in *; lia).
    discriminate.
Qed.

Ltac run_exec :=
  cbn [alone bind call exec inflight wg bpool rd closed wire main tasks crashed
       trace emit set_inflight set_wg set_bpool set_rd set_closed set_wire
       set_main set_tasks set_crashed fst snd].

(** [readTCP] on an open socket that holds a complete frame. *)
Lemma alone_readTCP_frame (a : actor) (ch : nat) (s : state) (buf : slice)
    (hi lo : byte) (payload rest : list byte) (fin : option string) :
  closed s = false ->
  cap buf = 65536 ->
  rd s = mkReader (hi :: lo :: payload ++ rest) fin ->
  Z.of_nat (List.length payload) = uint16be [hi; lo] ->
  exists s',
    alone E a ch (readTCP buf) s
    = Some ((uint16be [hi; lo], None, store buf payload), s') /\
    tasks s' = tasks s /\ inflight s' = inflight s /\ wg s' = wg s /\
    rd s' = mkReader rest fin /\ closed s' = false.
Proof.
  intros Hopen Hcap Hrd Hlen.
  pose proof (uint16be_range [hi; lo]) as Hrange.
  assert (Hhdr : readFull 2 (rd s)
                 = (([hi; lo], None), mkReader (payload ++ rest) fin)).
  { rewrite Hrd. reflexivity. }
  pose proof (readFull_exact _ payload rest fin Hlen) as Hbody.
  unfold readTCP. run_exec.
  rewrite Hopen, Hhdr. run_exec.
  replace (uint16be [hi; lo] >? maxTCPSize) with false
    by (symmetry; rewrite Z.gtb_ltb; apply Z.ltb_ge; unfold maxTCPSize; lia).
  rewrite upto_in_range by lia. run_exec.
  rewrite Hopen, Hbody. run_exec. rewrite Hlen.
  eexists. split; [reflexivity|]. run_exec. auto.
Qed.

(** Lines 63-65 and 55-60: the turn gives buffer and token back. *)
Lemma alone_giveback (ch : nat) (buf : slice) (ret : flow) (s : state) (n : nat) :
  inflight s = S n ->
  exists s',
    alone E Main ch (call (PoolPut buf) ;; call Release ;; Ret ret) s
    = Some (ret, s') /\
    tasks s' = tasks s /\ inflight s' = n /\ wg s' = wg s /\ rd s' = rd s.
Proof.
  intros Hn. cbn. rewrite Hn. eexists. split; [reflexivity|]. cbn. auto.
Qed.

(** Lines 68-69: a goroutine is started on the frame. *)
Lemma alone_dispatch (ch : nat) (buf : slice) (qsize : Z) (s : state) :
  exists s',
    alone E Main ch (call WgAdd ;; call (Spawn buf qsize) ;; Ret Continue) s
    = Some (Continue, s') /\
    tasks s' = tasks s ++ [mkTask (queryTask E buf qsize) true true] /\
    inflight s' = inflight s /\ wg s' = S (wg s) /\ rd s' = rd s.
Proof.
  cbn. eexists. split; [reflexivity|]. cbn. auto.
Qed.

(** [readTCP] only reads: it leaves the pool and the tokens alone. *)
Lemma alone_readTCP_only_reads (a : actor) (ch : nat) (buf : slice)
    (s s' : state) (r : Z * option error * slice) :
  alone E a ch (readTCP buf) s = Some (r, s') ->
  bpool s' = bpool s /\
  count is_acquire (trace s') = count is_acquire (trace s) /\
  count is_release (trace s') = count is_release (trace s).
Proof.
  unfold readTCP. cbn [alone bind call exec].
  destruct (closed s) eqn:Hc.
  - cbn. intros [= _ <-]. cbn. auto.
  - destruct (readFull 2 (rd s)) as [[hdr [e|]] rd1]; cbn [alone bind call fst snd].
    + intros [= _ <-]. cbn. auto.
    + destruct (uint16be hdr >? maxTCPSize); [intros [= _ <-]; cbn; auto|].
      destruct (upto buf (uint16be hdr)); cbn [alone bind call exec];
        [|discriminate].
      cbn [closed rd emit set_rd]. rewrite Hc.
      destruct (readFull (uint16be hdr) rd1) as [body rd2].
      cbn. intros [= _ <-]. cbn. auto.
Qed.

(** What the two ways out of a turn do to the pool and the tokens. *)
Lemma alone_giveback_effect (ch : nat) (buf : slice) (ret r : flow)
    (s s' : state) :
  alone E Main ch (call (PoolPut buf) ;; call Release ;; Ret ret) s
  = Some (r, s') ->
  bpool s' = Put (Some buf) (bpool s) /\
  count is_acquire (trace s') = count is_acquire (trace s) /\
  count is_release (trace s') = S (count is_release (trace s)).
Proof.
  cbn. destruct (inflight s); [discriminate|]. intros [= _ <-]. cbn. auto.
Qed.

Lemma alone_dispatch_effect (ch : nat) (buf : slice) (qsize : Z) (r : flow)
    (s s' : state) :
  alone E Main ch (call WgAdd ;; call (Spawn buf qsize) ;; Ret Continue) s
  = Some (r, s') ->
  bpool s' = bpool s /\
  count is_acquire (trace s') = count is_acquire (trace s) /\
  count is_release (trace s') = count is_release (trace s).
Proof.
  cbn. intros [= _ <-]. cbn. auto.
Qed.

(** A buffer of the large tier's capacity goes back to the large tier. *)
Lemma Put_large (b : slice) (p : TieredBufferPool) :
  cap b = 65536 -> returnedTo b Large p (Put (Some b) p).
Proof.
  intros Hb. unfold returnedTo, Put. rewrite Hb. reflexivity.
Qed.

(** C6, as the code has it.  A loop turn that finds a complete frame on an
    open socket takes a token and a large buffer and reads the payload into
    that buffer.  When the payload has 14 bytes or fewer, the turn puts that
    very buffer back into the large tier of the pool, releases the token
    (one acquire and one release more in the trace, as many tokens held as
    before) and [serveTCPConn] returns "query too small" without starting a
    goroutine.  When it has 15 bytes or more, a goroutine is started on
    exactly that payload in that buffer; it keeps the buffer, which is not
    in the pool, and the token, which is not released; and the loop goes
    on. *)
Theorem frames_of_15_bytes_are_dispatched (ch : nat) (s : state) (hi lo : byte)
    (payload rest : list byte) (fin : option string) :
  closed s = false ->
  (inflight s < capacity E)%nat ->
  wf (bpool s) ->
  rd s = mkReader (hi :: lo :: payload ++ rest) fin ->
  Z.of_nat (List.length payload) = uint16be [hi; lo] ->
  (uint16be [hi; lo] <= 14 ->
     exists s',
       alone E Main ch serveTCPConn_iter s
       = Some (Return (Some (ErrQueryTooSmall (uint16be [hi; lo]))), s') /\
       tasks s' = tasks s /\ inflight s' = inflight s /\ wg s' = wg s /\
       rd s' = mkReader rest fin /\
       bpool s'
       = Put (Some (store (fst (GetLarge ch (bpool s))) payload))
             (snd (GetLarge ch (bpool s))) /\
       returnedTo (store (fst (GetLarge ch (bpool s))) payload) Large
                  (snd (GetLarge ch (bpool s))) (bpool s') /\
       count is_acquire (trace s') = S (count is_acquire (trace s)) /\
       count is_release (trace s') = S (count is_release (trace s))) /\
  (15 <= uint16be [hi; lo] ->
     exists s' buf,
       alone E Main ch serveTCPConn_iter s = Some (Continue, s') /\
       tasks s' = tasks s ++ [mkTask (queryTask E buf (uint16be [hi; lo])) true true] /\
       firstn (List.length payload) (backing buf) = payload /\
       cap buf = 65536 /\
       inflight s' = S (inflight s) /\ wg s' = S (wg s) /\
       rd s' = mkReader rest fin /\
       buf = store (fst (GetLarge ch (bpool s))) payload /\
       bpool s' = snd (GetLarge ch (bpool s)) /\
       count is_acquire (trace s') = S (count is_acquire (trace s)) /\
       count is_release (trace s') = count is_release (trace s)).
Proof.
  intros Hopen Hfree Hwf Hrd Hlen.
  apply Nat.ltb_lt in Hfree.
  destruct (GetLarge_wf ch _ Hwf) as [Hcap _].
  destruct (GetLarge ch (bpool s)) as [buf pool'] eqn:Hget. cbn [fst] in Hcap.
  set (s1 := emit (Ev Main PoolGetLarge buf)
               (set_bpool pool'
                  (emit (Ev Main Acquire tt) (set_inflight (S (inflight s)) s)))).
  destruct (alone_readTCP_frame Main ch s1 buf hi lo payload rest fin)
    as (s2 & Hread & Ht2 & Hi2 & Hw2 & Hr2 & Hc2); auto.
  destruct (alone_readTCP_only_reads _ _ _ _ _ _ Hread) as (Hb2 & Ha2 & Hl2).
  change (bpool s1) with pool' in Hb2.
  change (count is_acquire (trace s1)) with (S (count is_acquire (trace s)))
    in Ha2.
  change (count is_release (trace s1)) with (count is_release (trace s)) in Hl2.
  cbn [fst snd].
  assert (Hturn : forall K : Z * option error * slice -> prog flow,
            alone E Main ch
              (call Acquire ;; buf <- call PoolGetLarge ;;
               r <- readTCP buf ;; K r) s
            = alone E Main ch (K (uint16be [hi; lo], None, store buf payload)) s2).
  { intros K. rewrite alone_bind. cbn [alone call exec]. rewrite Hfree.
    rewrite alone_bind. cbn [alone call exec bpool emit set_inflight].
    rewrite Hget. fold s1. rewrite alone_bind, Hread. reflexivity. }
  unfold serveTCPConn_iter. rewrite Hturn. cbv beta iota.
  split; intros Hn.
  - replace (uint16be [hi; lo] <=? 14) with true
      by (symmetry; apply Z.leb_le; exact Hn).
    destruct (alone_giveback ch (store buf payload)
                (Return (Some (ErrQueryTooSmall (uint16be [hi; lo])))) s2
                (inflight s))
      as (s' & Hrun & Ht & Hi & Hw & Hr); [rewrite Hi2; reflexivity|].
    destruct (alone_giveback_effect _ _ _ _ _ _ Hrun) as (Hb & Ha & Hl).
    exists s'. split; [exact Hrun|].
    rewrite Ht, Ht2, Hi, Hw, Hw2, Hr, Hr2, Hb, Hb2, Ha, Ha2, Hl, Hl2.
    repeat (split; [solve [auto]|]). split; [|auto].
    apply Put_large. now rewrite cap_store.
  - replace (uint16be [hi; lo] <=? 14) with false
      by (symmetry; apply Z.leb_gt; clear - Hn; lia).
    destruct (alone_dispatch ch (store buf payload) (uint16be [hi; lo]) s2)
      as (s' & Hrun & Ht & Hi & Hw & Hr).
    destruct (alone_dispatch_effect _ _ _ _ _ _ Hrun) as (Hb & Ha & Hl).
    exists s', (store buf payload). split; [exact Hrun|].
    rewrite Ht, Ht2, Hi, Hi2, Hw, Hw2, Hr, Hr2, Hb, Hb2, Ha, Ha2, Hl, Hl2.
    pose proof (uint16be_range [hi; lo]) as Hrange.
    repeat split; auto.
    + apply store_prefix. rewrite Hcap, Hlen. clear - Hrange. lia.
    + now rewrite cap_store.
Qed.

(** *** What one query goroutine sends and reports *)



Lemma loggedQueries_app (tr1 tr2 : list event) :
  loggedQueries (tr1 ++ tr2) = loggedQueries tr2 ++ loggedQueries tr1.
Proof.
  induction tr1 as [|e tr1 IH]; cbn; [now rewrite app_nil_r|].
  destruct e as [a X c x]. destruct c; auto.
  rewrite IH. now rewrite app_assoc.
Qed.

(** C7.  A query goroutine (holding its token, counted by the WaitGroup, on
    a request buffer that holds the frame) whose call of [Resolve] returns
    an error, a size [<= 0] or a size above [maxTCPSize] answers with what
    [replyRCode(RCodeServerFailure, q, rbuf)] built from the parsed request
    [q]: the only writes it attempts are the length prefix of that reply
    and, if the prefix went out, its [n] bytes; on an open socket whose peer
    accepts the writes exactly these two reach the wire.  [replyRCode] is
    taken to report a size within the buffer it filled. *)
Theorem servfail_on_failed_resolve (i ch : nat) (s : state) (buf : slice)
    (qsize : Z) (q : Query) (perr : option error) (rbuf : slice)
    (pool' : TieredBufferPool) (rsize : Z) (ri : ResolveInfo)
    (err : option error) (data : list byte) (n : Z) (d : list byte) :
  (1 <= inflight s)%nat -> (1 <= wg s)%nat -> 0 <= qsize <= cap buf ->
  queryNew E (bytes (mkSlice (backing buf) qsize)) (remoteIP E) (localIP E)
    = (q, perr) ->
  GetLarge ch (bpool s) = (rbuf, pool') ->
  Resolve E i q rbuf = Returned rsize ri err data ->
  err <> None \/ rsize <= 0 \/ rsize > maxTCPSize ->
  replyRCode E RCodeServerFailure q (store rbuf data) = (n, d) ->
  0 <= n <= cap rbuf ->
  exists s' w1 w2,
    alone E (Task i) ch (queryTask E buf qsize) s = Some (tt, s') /\
    let reply := firstn (Z.to_nat n) (backing (store (store rbuf data) d)) in
    let prefix := putUint16be (uint16 (Z.of_nat (List.length reply))) in
    writes (trace s') =
      writes (trace s)
      ++ (prefix, w1) :: match w1 with
                         | None => [(reply, w2)]
                         | Some _ => []
                         end /\
    (closed s = false -> (forall k, writeFault E k = None) ->
       wire s' = wire s ++ [prefix; reply]).
Proof.
  intros Hin Hwg Hq Hparse Hget Hres Hcond Hreply Hn.
  destruct (alone_queryTask i ch s buf qsize q perr rbuf pool'
              Hin Hwg Hq Hparse Hget)
    as (s' & new & Hrun & Htr & _ & _ & _ & Hout).
  rewrite Hres in Hout.
  assert (Hans : answer E q rbuf rsize err data = (n, store (store rbuf data) d)).
  { unfold answer.
    assert (Hc : isSome err || (rsize <=? 0) || (rsize >? maxTCPSize) = true).
    { destruct Hcond as [He|[Hle|Hgt]].
      - destruct err; [reflexivity|congruence].
      - apply Z.leb_le in Hle. rewrite Hle. now rewrite orb_true_r.
      - apply Z.gtb_gt in Hgt. rewrite Hgt. now rewrite orb_true_r. }
    rewrite Hc, Hreply. reflexivity. }
  rewrite Hans in Hout.
  rewrite upto_in_range in Hout by (rewrite !cap_store; exact Hn).
  destruct Hout as [(werr & w1 & Hnew & Hwire) _].
  unfold bytes in Hnew, Hwire. cbn [len backing] in Hnew, Hwire.
  exists s', w1, werr. split; [exact Hrun|]. cbv zeta.
  split; [|exact (fun Ho Hf => proj2 (proj2 (Hwire Ho Hf)))].
  rewrite Htr, Hnew, !writes_app. unfold cleanup.
  destruct perr, w1; cbn; rewrite ?app_nil_r; reflexivity.
Qed.

(** C8, as the code has it.  When the call of [Resolve] panics in a query
    goroutine (holding its token, counted by the WaitGroup), the panic is
    recovered: the goroutine runs to its end and the process is not taken
    down; it attempts no write at all, so the client gets no response for
    that query; one record is logged, whose error is the panic value with
    the captured stack and whose response size is 0; the request and the
    response buffer are put back and the token and the WaitGroup count are
    released. *)
Theorem resolve_panic_is_recovered (i ch : nat) (s : state) (buf : slice)
    (qsize : Z) (q : Query) (perr : option error) (rbuf : slice)
    (pool' : TieredBufferPool) (r : string) :
  (1 <= inflight s)%nat -> (1 <= wg s)%nat -> 0 <= qsize <= cap buf ->
  queryNew E (bytes (mkSlice (backing buf) qsize)) (remoteIP E) (localIP E)
    = (q, perr) ->
  GetLarge ch (bpool s) = (rbuf, pool') ->
  Resolve E i q rbuf = Panicked r ->
  exists s',
    alone E (Task i) ch (queryTask E buf qsize) s = Some (tt, s') /\
    crashed s' = crashed s /\
    writes (trace s') = writes (trace s) /\
    wire s' = wire s /\
    loggedQueries (trace s') =
      loggedQueries (trace s)
      ++ [record E q qsize 0 zeroResolveInfo
            (Some (ErrPanic r (runtimeStack E i)))] /\
    bpool s' = Put (Some rbuf) (Put (Some buf) pool') /\
    S (inflight s') = inflight s /\ S (wg s') = wg s.
Proof.
  intros Hin Hwg Hq Hparse Hget Hres.
  destruct (alone_queryTask i ch s buf qsize q perr rbuf pool'
              Hin Hwg Hq Hparse Hget)
    as (s' & new & Hrun & Htr & Hcr & Hi & Hw & Hout).
  rewrite Hres in Hout. destruct Hout as (Hnew & Hwire & Hpool).
  exists s'. split; [exact Hrun|]. split; [exact Hcr|].
  split; [|split; [exact Hwire|split; [|auto]]].
  - rewrite Htr, Hnew, !writes_app. unfold cleanup.
    destruct perr; cbn; rewrite ?app_nil_r; reflexivity.
  - rewrite Htr, Hnew, !loggedQueries_app. unfold cleanup.
    destruct perr; cbn; rewrite ?app_nil_r; reflexivity.
Qed.


End TCPFacts.

(** ** The DNS53 retry loop *)

Section DNS53Facts.
Import Go DNS53.

Variable minLen : nat.
Variable id : Z.
Variable up : upstream.

Lemma readLoop_short (left k : nat) :
  alwaysShort minLen up ->
  readLoop minLen id up left k = (Failure errNoValidResponse, (k + left + 1)%nat).
Proof.
  intros Hup. revert k. induction left as [|left IH]; intros k; cbn [readLoop];
    destruct (Hup k) as (d & -> & ->).
  - f_equal. lia.
  - rewrite IH. f_equal. lia.
Qed.

Lemma readLoop_mismatched (left k : nat) :
  alwaysMismatched minLen id up ->
  readLoop minLen id up left k = (Failure errIDMismatch, (k + left + 1)%nat).
Proof.
  intros Hup. revert k. induction left as [|left IH]; intros k; cbn [readLoop];
    destruct (Hup k) as (d & -> & -> & ->).
  - f_equal. lia.
  - rewrite IH. f_equal. lia.
Qed.

(** C1.  [resolve] is a total function, so every exchange ends.  Against an
    upstream whose datagrams are all too short it ends after exactly 6 reads
    (one more than [maxRetries = 5]) with the error "max retries exceeded
    waiting for valid response"; against one whose datagrams all carry a
    transaction ID other than the query's it ends after exactly 6 reads with
    "max retries exceeded: DNS ID mismatch". *)
Theorem resolve_gives_up_after_six_reads :
  maxRetries = 5%nat /\
  (alwaysShort minLen up ->
     resolve minLen id up
     = (Failure "max retries exceeded waiting for valid response", 6%nat)) /\
  (alwaysMismatched minLen id up ->
     resolve minLen id up
     = (Failure "max retries exceeded: DNS ID mismatch", 6%nat)).
Proof.
  split; [reflexivity|]. split; intros Hup; unfold resolve.
  - now rewrite readLoop_short.
  - now rewrite readLoop_mismatched.
Qed.

End DNS53Facts.

(** ** The properties at work on the test doubles *)

Section Runs.
Import Go BufferPool TCP Demo DNS53.

(** C1 on the two upstreams of the tests, with a 12-byte minimum. *)
Lemma resolve_gives_up_after_six_reads_witness :
  resolve 12 12345 shortUpstream
  = (Failure "max retries exceeded waiting for valid response", 6%nat) /\
  resolve 12 12345 (wrongIDUpstream 12345)
  = (Failure "max retries exceeded: DNS ID mismatch", 6%nat).
Proof.
  split.
  - apply (resolve_gives_up_after_six_reads 12 12345 shortUpstream).
    intros k. exists [x00]. split; reflexivity.
  - apply (resolve_gives_up_after_six_reads 12 12345 (wrongIDUpstream 12345)).
    intros k. eexists. split; [reflexivity|]. split; reflexivity.
Defined.

(** Two stale answers, then the right one: three reads. *)
Example resolve_after_two_stale_answers :
  resolve 12 12345 (staleThenRight 12345) = (Answer (response 12345), 3%nat).
Proof. reflexivity. Qed.

Lemma run_served (E : Env) (bs : list byte) :
  isSome (run E oneQuerySchedule (start bs)) = true ->
  reachable E [] (client bs) (served E bs).
Proof.
  intros Hsome. exists oneQuerySchedule.
  change (run E oneQuerySchedule (start bs) = Some (served E bs)).
  unfold served.
  destruct (run E oneQuerySchedule (start bs)); [reflexivity|discriminate].
Qed.

Lemma run_idle (E : Env) (bs : list byte) :
  isSome (run E idleSchedule (start bs)) = true ->
  reachable E [] (client bs) (idle E bs).
Proof.
  intros Hsome. exists idleSchedule.
  change (run E idleSchedule (start bs) = Some (idle E bs)).
  unfold idle.
  destruct (run E idleSchedule (start bs)); [reflexivity|discriminate].
Qed.

(** C2 on the run that serves the example query and then sees the client
    close: the schedule reaches a state in which [serveTCPConn] has
    returned, and there no token is held. *)
Lemma tokens_released_exactly_once_witness :
  reachable env [] (client exampleFrame) (served env exampleFrame) /\
  returned (served env exampleFrame) = Some None /\
  inflight (served env exampleFrame) = O /\
  count is_acquire (trace (served env exampleFrame))
  = count is_release (trace (served env exampleFrame)).
Proof.
  assert (Hreach : reachable env [] (client exampleFrame) (served env exampleFrame)).
  { apply run_served. vm_compute. reflexivity. }
  assert (Hret : returned (served env exampleFrame) = Some None).
  { vm_compute. reflexivity. }
  split; [exact Hreach|]. split; [exact Hret|].
  destruct (tokens_released_exactly_once env [] _ _ Hreach)
    as (_ & _ & _ & H & _).
  destruct (H None Hret) as (_ & H0 & Hbal). split; assumption.
Defined.

(** C2 as stated fails on a connection that stays open: after the example
    query was served and its goroutine has run to its end, the loop has
    taken the token of its next turn and is about to read; [serveTCPConn]
    has not returned, every query goroutine has finished, and one token is
    held. *)
Lemma idle_connection_holds_a_token :
  reachable env [] (client exampleFrame) (idle env exampleFrame) /\
  tasks (idle env exampleFrame) = [mkTask (Ret tt) false false] /\
  Forall (fun t => finished t = true) (tasks (idle env exampleFrame)) /\
  returned (idle env exampleFrame) = None /\
  closed (idle env exampleFrame) = false /\
  inflight (idle env exampleFrame) = 1%nat.
Proof.
  assert (Hts : tasks (idle env exampleFrame) = [mkTask (Ret tt) false false]).
  { vm_compute. reflexivity. }
  split; [apply run_idle; vm_compute; reflexivity|].
  split; [exact Hts|]. split.
  { rewrite Hts. constructor; [reflexivity|constructor]. }
  split; [vm_compute; reflexivity|].
  split; vm_compute; reflexivity.
Qed.

(** C3 on the same run: the socket is closed, the goroutine has finished,
    and its two writes went out on the open socket. *)
Lemma close_follows_join_witness :
  reachable env [] (client exampleFrame) (served env exampleFrame) /\
  closed (served env exampleFrame) = true /\
  Forall (fun t => tcode t = Ret tt) (tasks (served env exampleFrame)) /\
  count is_write_on_closed (trace (served env exampleFrame)) = O /\
  wire (served env exampleFrame) = [[x00; x0c]; twelveZeros].
Proof.
  assert (Hreach : reachable env [] (client exampleFrame) (served env exampleFrame)).
  { apply run_served. vm_compute. reflexivity. }
  assert (Hcl : closed (served env exampleFrame) = true).
  { vm_compute. reflexivity. }
  split; [exact Hreach|]. split; [exact Hcl|].
  destruct (close_follows_join env [] _ _ Hreach) as (Hjoin & Hw & _ & _).
  split; [exact (Hjoin Hcl)|]. split; [exact Hw|].
  vm_compute. reflexivity.
Defined.

(** C4 on the sizes of [TestBufferPool_TierBoundaries], the last one on a
    pool into which a foreign 1000-byte buffer was put. *)
Lemma Get_capacity_witness :
  cap (fst (Get 0 512 (after []))) = 512 /\
  cap (fst (Get 0 513 (after []))) = 4096 /\
  cap (fst (Get 0 4097 (after []))) = 65536 /\
  cap (fst (Get 0 65537 (after [OpPut (Some (make 1000))]))) = 65536.
Proof.
  destruct (Get_capacity [] 0 512) as (H1 & _).
  destruct (Get_capacity [] 0 513) as (_ & H2 & _).
  destruct (Get_capacity [] 0 4097) as (_ & _ & H3 & _).
  destruct (Get_capacity [OpPut (Some (make 1000))] 0 65537) as (_ & _ & H4 & _).
  split; [apply H1; lia|]. split; [apply H2; lia|].
  split; [apply H3; lia|]. apply H4. lia.
Defined.

(** C5: a 512-byte buffer goes back to the small tier, a 1000-byte buffer
    goes nowhere ([TestBufferPool_PutWrongSize]). *)
Lemma Put_matching_tier_witness :
  returnedTo (make 512) Small NewTieredBufferPool
             (Put (Some (make 512)) NewTieredBufferPool) /\
  Put (Some (make 1000)) NewTieredBufferPool = NewTieredBufferPool.
Proof.
  destruct (Put_matching_tier [] NewTieredBufferPool (make 512) Small 0 0)
    as (Hsmall & _).
  destruct (Put_matching_tier [] NewTieredBufferPool (make 1000) Small 0 0)
    as (_ & _ & Hnone & _).
  split.
  - apply Hsmall. apply (cap_make 512). lia.
  - assert (Hc : cap (make 1000) = 1000) by (apply cap_make; lia).
    apply Hnone; rewrite Hc; lia.
Defined.

(** C6 as stated fails on a frame whose payload has exactly 14 bytes: the
    turn that reads it returns "query too small: 14" and starts nothing. *)
Lemma frame_of_14_bytes_is_rejected :
  List.length (skipn 2 frame14) = 14%nat /\
  match alone env Main 0 serveTCPConn_iter (start frame14) with
  | Some (ret, s') =>
      ret = Return (Some (ErrQueryTooSmall 14)) /\ tasks s' = []
  | None => False
  end.
Proof. vm_compute. repeat split. Qed.

(** C6 as the code has it, on the 29-byte example query. *)
Lemma frames_of_15_bytes_are_dispatched_witness :
  closed (start exampleFrame) = false /\
  uint16be [x00; x1d] = 29 /\
  exists s' buf,
    alone env Main 0 serveTCPConn_iter (start exampleFrame) = Some (Continue, s') /\
    tasks s' = [mkTask (queryTask env buf 29) true true] /\
    firstn 29 (backing buf) = exampleQuery.
Proof.
  split; [reflexivity|]. split; [reflexivity|].
  destruct (frames_of_15_bytes_are_dispatched env 0 (start exampleFrame)
              x00 x1d exampleQuery [] None) as [_ Hbig].
  - reflexivity.
  - cbn. lia.
  - apply wf_New.
  - reflexivity.
  - reflexivity.
  - destruct Hbig as (s' & buf & Hrun & Ht & Hpre & _).
    + change (uint16be [x00; x1d]) with 29. lia.
    + exists s', buf. repeat split; assumption.
Defined.

(** The state in which goroutine 0 was just started holds one token and
    one WaitGroup count, whatever the resolver. *)
Lemma spawned_ready (resolve : nat -> Query -> slice -> outcome) (bs : list byte) :
  inflight (spawned (envWith resolve) bs) = 1%nat ->
  wg (spawned (envWith resolve) bs) = 1%nat ->
  (1 <= inflight (spawned (envWith resolve) bs))%nat /\
  (1 <= wg (spawned (envWith resolve) bs))%nat.
Proof. intros -> ->. split; constructor. Qed.

Lemma requestBuf_holds (payload : list byte) :
  0 <= 29 <= cap (requestBuf payload).
Proof.
  unfold requestBuf. rewrite cap_store, cap_make; lia.
Qed.

(** C7 on the example query with a resolver that fails: the goroutine sends
    the length prefix 29 and the SERVFAIL reply built from the query. *)
Lemma servfail_on_failed_resolve_witness :
  Resolve (envWith failingResolve) 0
    (fst (parse exampleQuery loopback loopback))
    (fst (GetLarge 0 (bpool (spawned (envWith failingResolve) exampleFrame))))
  = Returned 0 zeroResolveInfo
      (Some (ErrExternal "context deadline exceeded")) [] /\
  exists s',
    alone (envWith failingResolve) (Task 0) 0
      (queryTask (envWith failingResolve) (requestBuf exampleQuery) 29)
      (spawned (envWith failingResolve) exampleFrame)
    = Some (tt, s') /\
    wire s' = [[x00; x1d]; servfailReply].
Proof.
  split; [reflexivity|].
  set (E := envWith failingResolve).
  destruct (spawned_ready failingResolve exampleFrame) as [Hin Hwg];
    [vm_compute; reflexivity | vm_compute; reflexivity |].
  destruct (servfail_on_failed_resolve E 0 0 (spawned E exampleFrame)
              (requestBuf exampleQuery) 29
              (fst (parse exampleQuery loopback loopback)) None
              (fst (GetLarge 0 (bpool (spawned E exampleFrame))))
              (snd (GetLarge 0 (bpool (spawned E exampleFrame))))
              0 zeroResolveInfo
              (Some (ErrExternal "context deadline exceeded")) []
              29 servfailReply)
    as (s' & w1 & w2 & Hrun & _ & Hwire).
  - exact Hin.
  - exact Hwg.
  - apply requestBuf_holds.
  - vm_compute. reflexivity.
  - apply surjective_pairing.
  - reflexivity.
  - left. discriminate.
  - vm_compute. reflexivity.
  - split; vm_compute; discriminate.
  - exists s'. split; [exact Hrun|].
    rewrite Hwire by reflexivity. vm_compute. reflexivity.
Defined.

(** C8 as stated fails when [Resolve] panics: the goroutine runs to its end
    but attempts no write, so no SERVFAIL (nor anything else) reaches the
    client. *)
Lemma panic_sends_no_response :
  match
    alone (envWith panickingResolve) (Task 0) 0
      (queryTask (envWith panickingResolve) (requestBuf exampleQuery) 29)
      (spawned (envWith panickingResolve) exampleFrame)
  with
  | Some (_, s') =>
      resolutions (trace s') = [Panicked "runtime error: index out of range"] /\
      writes (trace s') = [] /\ wire s' = []
  | None => False
  end.
Proof. vm_compute. repeat split. Qed.

(** C8 as the code has it, on the example query. *)
Lemma resolve_panic_is_recovered_witness :
  exists s',
    alone (envWith panickingResolve) (Task 0) 0
      (queryTask (envWith panickingResolve) (requestBuf exampleQuery) 29)
      (spawned (envWith panickingResolve) exampleFrame)
    = Some (tt, s') /\
    crashed s' = false /\ inflight s' = O /\ wg s' = O /\
    List.length (loggedQueries (trace s')) = 1%nat.
Proof.
  set (E := envWith panickingResolve).
  destruct (spawned_ready panickingResolve exampleFrame) as [Hin Hwg];
    [vm_compute; reflexivity | vm_compute; reflexivity |].
  destruct (resolve_panic_is_recovered E 0 0 (spawned E exampleFrame)
              (requestBuf exampleQuery) 29
              (fst (parse exampleQuery loopback loopback)) None
              (fst (GetLarge 0 (bpool (spawned E exampleFrame))))
              (snd (GetLarge 0 (bpool (spawned E exampleFrame))))
              "runtime error: index out of range")
    as (s' & Hrun & Hcr & _ & _ & Hlog & _ & Hi & Hw).
  - exact Hin.
  - exact Hwg.
  - apply requestBuf_holds.
  - vm_compute. reflexivity.
  - apply surjective_pairing.
  - reflexivity.
  - exists s'. split; [exact Hrun|].
    assert (Hi0 : inflight (spawned E exampleFrame) = 1%nat)
      by (vm_compute; reflexivity).
    assert (Hw0 : wg (spawned E exampleFrame) = 1%nat)
      by (vm_compute; reflexivity).
    assert (Hc0 : crashed (spawned E exampleFrame) = false)
      by (vm_compute; reflexivity).
    assert (Hl0 : loggedQueries (trace (spawned E exampleFrame)) = [])
      by (vm_compute; reflexivity).
    rewrite Hi0 in Hi. rewrite Hw0 in Hw. rewrite Hc0 in Hcr.
    rewrite Hl0 in Hlog. rewrite Hlog.
    repeat split; auto; congruence.
Defined.



(** C10 on a frame and on a stream that ends inside the length prefix. *)
Example readTCP_on_example_frame :
  option_map (fun r => fst (fst r))
             (alone env Main 0 (readTCP (make 65536)) (start exampleFrame))
  = Some (29, None) /\
  option_map (fun r => snd (fst (fst r)))
             (alone env Main 0 (readTCP (make 65536)) (start [x00]))
  = Some (Some ErrUnexpectedEOF).
Proof. split; vm_compute; reflexivity. Qed.

End Runs.

(** ** Framing: what is written is what is read *)

Section FramingFacts.
Import Go BufferPool TCP Stream.

Variable E : Env.

Arguments store : simpl never.
Arguments readFull : simpl never.
Arguments serveTCPConn_iter : simpl never.
Arguments Nat.ltb : simpl never.
Arguments GetLarge : simpl never.
Arguments Put : simpl never.
Arguments wf : simpl never.

Lemma byteZ_Zbyte (z : Z) : byteZ (Zbyte z) = z mod 256.
Proof.
  unfold byteZ, Zbyte.
  pose proof (Z.mod_pos_bound z 256 ltac:(lia)) as Hr.
  destruct (Byte.of_N (Z.to_N (z mod 256))) as [b|] eqn:Hb.
  - apply Byte.to_of_N in Hb. rewrite Hb. lia.
  - apply Byte.of_N_None_iff in Hb. lia.
Qed.

Lemma uint16be_putUint16be (v : Z) : uint16be (putUint16be v) = uint16 v.
Proof.
  unfold putUint16be, uint16be, uint16. rewrite !byteZ_Zbyte.
  change 65536 with (256 * 256).
  rewrite Z.rem_mul_r by lia. lia.
Qed.

Lemma uint16_idem (v : Z) : uint16 (uint16 v) = uint16 v.
Proof. unfold uint16. apply Z.mod_mod. lia. Qed.

Lemma uint16_small (v : Z) : 0 <= v <= 65535 -> uint16 v = v.
Proof. intros Hv. unfold uint16. apply Z.mod_small. lia. Qed.

Lemma uint16_range (v : Z) : 0 <= uint16 v <= 65535.
Proof.
  unfold uint16. pose proof (Z.mod_pos_bound v 65536 ltac:(lia)). lia.
Qed.

(** [readTCP] on the bytes [writeTCP msg] wrote, followed by [rest]: the
    frame it reads is made of the first [len(msg) mod 65536] bytes of
    [msg]. *)
Lemma alone_readTCP_framed (a : actor) (ch : nat) (s : state) (buf : slice)
    (msg rest : list byte) (fin : option string) :
  closed s = false ->
  cap buf = 65536 ->
  rd s = mkReader (concat (framed msg) ++ rest) fin ->
  let n := uint16 (Z.of_nat (List.length msg)) in
  exists s',
    alone E a ch (readTCP buf) s
    = Some ((n, None, store buf (firstn (Z.to_nat n) msg)), s') /\
    rd s' = mkReader (skipn (Z.to_nat n) msg ++ rest) fin.
Proof.
  intros Hopen Hcap Hrd n.
  pose proof (uint16_range (Z.of_nat (List.length msg))) as Hn. fold n in Hn.
  assert (Hle : n <= Z.of_nat (List.length msg)).
  { unfold n, uint16. apply Z.mod_le; lia. }
  assert (Hdec : uint16be [Zbyte (n / 256); Zbyte n] = n).
  { change [Zbyte (n / 256); Zbyte n] with (putUint16be n).
    rewrite uint16be_putUint16be. apply uint16_small. exact Hn. }
  destruct (alone_readTCP_frame E a ch s buf (Zbyte (n / 256)) (Zbyte n)
              (firstn (Z.to_nat n) msg) (skipn (Z.to_nat n) msg ++ rest) fin)
    as (s' & Hrun & _ & _ & _ & Hrd' & _); auto.
  - rewrite Hrd. unfold framed, putUint16be. fold n. cbn [concat app].
    rewrite app_nil_r, app_assoc, firstn_skipn. reflexivity.
  - rewrite Hdec, length_firstn. lia.
  - rewrite Hdec in Hrun. exists s'. split; assumption.
Qed.

(** X1.  A message of at most 65535 bytes survives the framing: on an open
    socket whose peer accepts the writes, [writeTCP msg] returns nil and
    puts exactly the two-byte prefix and [msg] on the wire; [readTCP] on a
    stream that starts with those bytes returns [len(msg)] and no error,
    leaves [msg] at the front of its buffer and the rest of the stream
    unread. *)
Theorem writeTCP_readTCP_round_trip (i ch : nat) (msg : list byte) (sw : state) :
  Z.of_nat (List.length msg) <= 65535 ->
  closed sw = false ->
  (forall n, writeFault E n = None) ->
  exists sw',
    alone E (Task i) ch (writeTCP msg) sw = Some (None, sw') /\
    wire sw' = wire sw ++ framed msg /\
    forall (a : actor) (ch' : nat) (sr : state) (buf : slice)
           (rest : list byte) (fin : option string),
      closed sr = false ->
      cap buf = 65536 ->
      rd sr = mkReader (concat (framed msg) ++ rest) fin ->
      exists buf' sr',
        alone E a ch' (readTCP buf) sr
        = Some ((Z.of_nat (List.length msg), None, buf'), sr') /\
        firstn (List.length msg) (backing buf') = msg /\
        cap buf' = cap buf /\
        rd sr' = mkReader rest fin.
Proof.
  intros Hlen Hopen Hok.
  destruct (alone_writeTCP E i ch msg sw)
    as (werr & w1 & sw' & Hrun & _ & _ & Hwire & _).
  destruct (Hwire Hopen Hok) as (_ & -> & Hw).
  exists sw'. split; [exact Hrun|]. split; [exact Hw|].
  intros a ch' sr buf rest fin Hopen' Hcap Hrd.
  destruct (alone_readTCP_framed a ch' sr buf msg rest fin Hopen' Hcap Hrd)
    as (sr' & Hread & Hrd').
  rewrite uint16_small in Hread, Hrd' by lia.
  rewrite Nat2Z.id in Hread, Hrd'.
  rewrite firstn_all in Hread. rewrite skipn_all in Hrd'.
  exists (store buf msg), sr'. split; [exact Hread|].
  split; [apply store_prefix; lia|]. split; [apply cap_store|exact Hrd'].
Qed.

(** X2.  [writeTCP] does not refuse a message of 65536 bytes or more: both
    writes go out, but the prefix is [uint16(len(msg))], so the frame
    [readTCP] takes from those bytes holds only the first
    [len(msg) mod 65536] bytes of [msg], and what follows them is left in the
    stream, where the next [readTCP] takes it for a length prefix. *)
Theorem writeTCP_truncates_the_length (i ch : nat) (msg : list byte) (sw : state) :
  65536 <= Z.of_nat (List.length msg) ->
  closed sw = false ->
  (forall n, writeFault E n = None) ->
  let n := Z.of_nat (List.length msg) mod 65536 in
  exists sw',
    alone E (Task i) ch (writeTCP msg) sw = Some (None, sw') /\
    wire sw' = wire sw ++ framed msg /\
    n < Z.of_nat (List.length msg) /\
    forall (a : actor) (ch' : nat) (sr : state) (buf : slice)
           (rest : list byte) (fin : option string),
      closed sr = false ->
      cap buf = 65536 ->
      rd sr = mkReader (concat (framed msg) ++ rest) fin ->
      exists sr',
        alone E a ch' (readTCP buf) sr
        = Some ((n, None, store buf (firstn (Z.to_nat n) msg)), sr') /\
        rd sr' = mkReader (skipn (Z.to_nat n) msg ++ rest) fin /\
        skipn (Z.to_nat n) msg <> [].
Proof.
  intros Hlen Hopen Hok n.
  destruct (alone_writeTCP E i ch msg sw)
    as (werr & w1 & sw' & Hrun & _ & _ & Hwire & _).
  destruct (Hwire Hopen Hok) as (_ & -> & Hw).
  pose proof (Z.mod_pos_bound (Z.of_nat (List.length msg)) 65536 ltac:(lia)) as Hn.
  fold n in Hn.
  exists sw'. split; [exact Hrun|]. split; [exact Hw|]. split; [lia|].
  intros a ch' sr buf rest fin Hopen' Hcap Hrd.
  destruct (alone_readTCP_framed a ch' sr buf msg rest fin Hopen' Hcap Hrd)
    as (sr' & Hread & Hrd').
  exists sr'. split; [exact Hread|]. split; [exact Hrd'|].
  intros Hnil. apply (f_equal (@List.length byte)) in Hnil.
  rewrite length_skipn in Hnil. cbn in Hnil. lia.
Qed.

End FramingFacts.

(** ** A stream that ends inside a frame *)

Section StreamEndFacts.
Import Go BufferPool TCP Stream.

Variable E : Env.

Arguments store : simpl never.
Arguments readFull : simpl never.
Arguments serveTCPConn_iter : simpl never.
Arguments Nat.ltb : simpl never.
Arguments GetLarge : simpl never.
Arguments Put : simpl never.
Arguments wf : simpl never.

Ltac exec_step :=
  cbn [alone bind call exec inflight wg bpool rd closed wire main tasks crashed
       trace emit set_inflight set_wg set_bpool set_rd set_closed set_wire
       set_main set_tasks set_crashed fst snd].

Lemma readFull_short (n : Z) (p : list byte) (fin : option string) :
  (List.length p < Z.to_nat n)%nat ->
  readFull n (mkReader p fin)
  = ((p, Some (streamError p fin)), mkReader [] fin).
Proof.
  intros Hn. unfold readFull. cbn [pending final].
  replace (Z.to_nat n <=? List.length p)%nat with false
    by (symmetry; apply Nat.leb_gt; exact Hn).
  rewrite firstn_all2, skipn_all2 by lia.
  destruct p, fin; reflexivity.
Qed.

(** [readTCP] on an open socket whose stream ends inside a frame. *)
Lemma alone_readTCP_incomplete (a : actor) (ch : nat) (s : state) (buf : slice)
    (p : list byte) (fin : option string) :
  closed s = false ->
  cap buf = 65536 ->
  rd s = mkReader p fin ->
  incomplete p ->
  exists qsize buf' s',
    alone E a ch (readTCP buf) s
    = Some ((qsize, Some (streamError (lastRead p) fin), buf'), s') /\
    (buf' = buf \/ exists got, buf' = store buf got) /\
    cap buf' = 65536 /\
    tasks s' = tasks s /\ inflight s' = inflight s /\ wg s' = wg s /\
    wire s' = wire s /\ bpool s' = bpool s /\ closed s' = false /\
    rd s' = mkReader [] fin.
Proof.
  intros Hopen Hcap Hrd Hinc.
  destruct p as [|hi [|lo body]].
  - (* nothing left *)
    unfold readTCP. exec_step. rewrite Hopen, Hrd, readFull_short by (cbn; lia).
    exec_step. do 3 eexists. split; [reflexivity|]. exec_step.
    split; [left; reflexivity|]. repeat split; auto.
  - (* half a prefix *)
    unfold readTCP. exec_step. rewrite Hopen, Hrd, readFull_short by (cbn; lia).
    exec_step. do 3 eexists. split; [reflexivity|]. exec_step.
    split; [left; reflexivity|]. repeat split; auto.
  - (* a prefix and too short a payload *)
    cbn [incomplete lastRead] in *.
    pose proof (uint16be_range [hi; lo]) as Hrange.
    assert (Hhdr : readFull 2 (rd s) = (([hi; lo], None), mkReader body fin)).
    { rewrite Hrd. reflexivity. }
    unfold readTCP. exec_step. rewrite Hopen, Hhdr. exec_step.
    replace (uint16be [hi; lo] >? maxTCPSize) with false
      by (symmetry; rewrite Z.gtb_ltb; apply Z.ltb_ge; unfold maxTCPSize; lia).
    rewrite upto_in_range by lia. exec_step.
    rewrite Hopen, readFull_short by lia. exec_step.
    do 3 eexists. split; [reflexivity|]. exec_step.
    split; [right; eexists; reflexivity|].
    rewrite cap_store. repeat split; auto.
Qed.

(** X3.  The loop turn that meets the end of the stream inside a frame (no
    byte, one byte of the prefix, or fewer payload bytes than announced):
    [serveTCPConn] leaves the loop, with nil when the read that failed got
    no byte at all and the peer had closed, with "TCP read: ..." otherwise;
    no goroutine is started and nothing is written.  The token the turn
    took is released (one acquire and one release more in the trace, as
    many tokens held as before), and the large buffer the turn took, with
    whatever part of the payload was read into it, is put back into the
    large tier of the pool.  So a peer that closes right after a length
    prefix that announces a payload is reported as a clean end. *)
Theorem turn_on_incomplete_stream (ch : nat) (s : state) (p : list byte)
    (fin : option string) :
  closed s = false ->
  (inflight s < capacity E)%nat ->
  wf (bpool s) ->
  rd s = mkReader p fin ->
  incomplete p ->
  exists s',
    alone E Main ch serveTCPConn_iter s
    = Some (Return (readFailure (streamError (lastRead p) fin)), s') /\
    (readFailure (streamError (lastRead p) fin) = None
       <-> fin = None /\ lastRead p = []) /\
    tasks s' = tasks s /\ inflight s' = inflight s /\ wg s' = wg s /\
    wire s' = wire s /\ wf (bpool s') /\ pending (rd s') = [] /\
    count is_acquire (trace s') = S (count is_acquire (trace s)) /\
    count is_release (trace s') = S (count is_release (trace s)) /\
    exists buf',
      (buf' = fst (GetLarge ch (bpool s)) \/
       exists got, buf' = store (fst (GetLarge ch (bpool s))) got) /\
      cap buf' = 65536 /\
      bpool s' = Put (Some buf') (snd (GetLarge ch (bpool s))) /\
      returnedTo buf' Large (snd (GetLarge ch (bpool s))) (bpool s').
Proof.
  intros Hopen Hfree Hwf Hrd Hinc.
  apply Nat.ltb_lt in Hfree.
  destruct (GetLarge_wf ch _ Hwf) as [Hcap Hwf1].
  destruct (GetLarge ch (bpool s)) as [buf pool'] eqn:Hget.
  cbn [fst snd] in Hcap, Hwf1.
  set (s1 := emit (Ev Main PoolGetLarge buf)
               (set_bpool pool'
                  (emit (Ev Main Acquire tt) (set_inflight (S (inflight s)) s)))).
  destruct (alone_readTCP_incomplete Main ch s1 buf p fin)
    as (qsize & buf' & s2 & Hread & Hsame & Hcap' & Ht2 & Hi2 & Hw2 & Hwi2
        & Hb2 & Hc2 & Hr2);
    auto.
  destruct (alone_readTCP_only_reads E _ _ _ _ _ _ Hread) as (_ & Ha2 & Hl2).
  change (count is_acquire (trace s1)) with (S (count is_acquire (trace s)))
    in Ha2.
  change (count is_release (trace s1)) with (count is_release (trace s)) in Hl2.
  change (bpool s1) with pool' in Hb2.
  assert (Hturn : forall K : Z * option error * slice -> prog flow,
            alone E Main ch
              (call Acquire ;; buf <- call PoolGetLarge ;;
               r <- readTCP buf ;; K r) s
            = alone E Main ch
                (K (qsize, Some (streamError (lastRead p) fin), buf')) s2).
  { intros K. rewrite alone_bind. cbn [alone call exec]. rewrite Hfree.
    rewrite alone_bind. cbn [alone call exec bpool emit set_inflight].
    rewrite Hget. fold s1. rewrite alone_bind, Hread. reflexivity. }
  unfold serveTCPConn_iter. rewrite Hturn. cbv beta iota.
  assert (Hback : exists s',
            alone E Main ch
              (call (PoolPut buf') ;; call Release ;;
               Ret (Return (readFailure (streamError (lastRead p) fin)))) s2
            = Some (Return (readFailure (streamError (lastRead p) fin)), s') /\
            tasks s' = tasks s2 /\ inflight s' = inflight s /\ wg s' = wg s2 /\
            wire s' = wire s2 /\ bpool s' = Put (Some buf') (bpool s2) /\
            rd s' = rd s2).
  { cbn. rewrite Hi2. cbn. eexists. split; [reflexivity|]. cbn. repeat split; auto. }
  destruct Hback as (s' & Hrun & Ht & Hi & Hw & Hwi & Hb & Hr).
  destruct (alone_giveback_effect E _ _ _ _ _ _ Hrun) as (_ & Ha & Hl).
  exists s'. split.
  { rewrite <- Hrun. destruct (streamError (lastRead p) fin); reflexivity. }
  split.
  { unfold readFailure, streamError.
    destruct fin, (lastRead p); split;
      (intros [? ?] || intros ?); try discriminate; auto. }
  rewrite Ht, Ht2, Hi, Hw, Hw2, Hwi, Hwi2, Hb, Hb2, Hr, Hr2, Ha, Ha2, Hl, Hl2.
  repeat (split; [solve [auto]|]).
  split; [apply Put_wf; exact Hwf1|].
  split; [reflexivity|]. split; [reflexivity|]. split; [reflexivity|].
  exists buf'. split; [exact Hsame|]. split; [exact Hcap'|].
  split; [reflexivity|]. apply Put_large. exact Hcap'.
Qed.

End StreamEndFacts.

(** ** Admission and progress of a connection *)

Section ProgressFacts.
Import Go BufferPool TCP.

Variable E : Env.

Arguments holding : simpl never.
Arguments living : simpl never.
Arguments Nat.ltb : simpl never.
Arguments GetLarge : simpl never.
Arguments Put : simpl never.
Arguments readFull : simpl never.
Arguments queryTask : simpl never.
Arguments serveTCPConn_iter : simpl never.
Arguments serveTCPConn_exit : simpl never.

(** No operation takes the number of tokens past the room the channel
    has. *)
Lemma exec_inflight (a : actor) (ch : nat) (X : Type) (c : cmd X) (x : X)
    (s s' : state) :
  exec E a ch c s = Some (x, s') ->
  (inflight s <= capacity E)%nat -> (inflight s' <= capacity E)%nat.
Proof.
  intros Hex Hle. destruct c; cbn in Hex;
    repeat match type of Hex with
           | context [match ?d with _ => _ end] => destruct d eqn:?
           end;
    inversion Hex; subst; cbn; try lia.
  match goal with H : (_ <? _)%nat = true |- _ => apply Nat.ltb_lt in H end. lia.
Qed.

Lemma step_inflight (m : move) (s s' : state) :
  step E m s = Some s' ->
  (inflight s <= capacity E)%nat -> (inflight s' <= capacity E)%nat.
Proof.
  intros Hst Hle. unfold step in Hst.
  destruct (crashed s); [discriminate|].
  assert (Hadv : forall (A : Type) (a : actor) (ch : nat) (p p' : prog A) s1,
            advance E a ch p s = Some (p', s1) ->
            (inflight s1 <= capacity E)%nat).
  { intros A a ch p p' s1 Ha. destruct p as [x|X c k|r]; cbn in Ha.
    - discriminate.
    - destruct (exec E a ch c s) as [[x s2]|] eqn:Hex; [|discriminate].
      inversion Ha; subst. cbn. eapply exec_inflight; eauto.
    - inversion Ha; subst. exact Hle. }
  destruct m as [[|i] ch|o].
  - destruct (main s) as [p|p].
    + destruct p as [[|e]|X c k|r];
        try (inversion Hst; subst; exact Hle);
        match type of Hst with
        | context [advance E Main ch ?p s] =>
            destruct (advance E Main ch p s) as [[p' s1]|] eqn:Ha; [|discriminate];
            inversion Hst; subst; cbn; eapply Hadv; eauto
        end.
    + destruct (advance E Main ch p s) as [[p' s1]|] eqn:Ha; [|discriminate].
      inversion Hst; subst; cbn. eapply Hadv; eauto.
  - destruct (nth_error (tasks s) i) as [t|]; [|discriminate].
    destruct (advance E (Task i) ch (tcode t) s) as [[p' s1]|] eqn:Ha;
      [|discriminate].
    inversion Hst; subst; cbn. eapply Hadv; eauto.
  - inversion Hst; subst. exact Hle.
Qed.

Lemma run_inflight (ms : list move) (s s' : state) :
  run E ms s = Some s' ->
  (inflight s <= capacity E)%nat -> (inflight s' <= capacity E)%nat.
Proof.
  revert s. induction ms as [|m ms IH]; intros s Hrun Hle; cbn in Hrun.
  - inversion Hrun; subst. exact Hle.
  - destruct (step E m s) as [s1|] eqn:Hst; [|discriminate].
    eapply IH; eauto. eapply step_inflight; eauto.
Qed.

(** X4.  Admission control: in every state a connection can reach, under
    any schedule, the tokens it has in the channel never exceed the room it
    was given, and neither does the number of its query goroutines that
    have not given their token back yet; these are the goroutines that may
    be inside [Resolve]. *)
Theorem admission_bound (ops : list op) (r : Reader) (s : state) :
  reachable E ops r s ->
  (inflight s <= capacity E)%nat /\
  (holding (tasks s) <= capacity E)%nat /\
  (forall i t, nth_error (tasks s) i = Some t ->
     (tholds t = true <-> count (is_release_by (Task i)) (trace s) = O)).
Proof.
  intros Hreach. pose proof (Inv_reachable E ops r s Hreach) as HI.
  destruct Hreach as [ms Hrun].
  assert (Hle : (inflight s <= capacity E)%nat).
  { eapply run_inflight; eauto. cbn. lia. }
  split; [exact Hle|]. split.
  - pose proof (tokens_bounds E s HI). lia.
  - intros i t Hi. pose proof (inv_once E s HI i t Hi) as Hone.
    rewrite Hone. destruct (tholds t); cbn; split; congruence.
Qed.





End ProgressFacts.

(** ** What each goroutine does exactly once, and what is never lost *)

Section AccountingFacts.
Import Go BufferPool TCP Accounting.

Variable E : Env.

Arguments GetLarge : simpl never.
Arguments Put : simpl never.
Arguments readFull : simpl never.
Arguments queryTask : simpl never.
Arguments serveTCPConn_iter : simpl never.
Arguments serveTCPConn_exit : simpl never.
Arguments Nat.ltb : simpl never.
Arguments count : simpl never.

(** An operation leaves the trace and the loop's code alone, and the only
    goroutine it can add is the one it starts. *)
Lemma exec_shape (a : actor) (ch : nat) (X : Type) (c : cmd X) (x : X)
    (s s' : state) :
  exec E a ch c s = Some (x, s') ->
  trace s' = trace s /\ main s' = main s /\
  tasks s' = tasks s ++ spawnOf E c.
Proof.
  intros Hex. destruct c; cbn in Hex;
    repeat match type of Hex with
           | context [match ?d with _ => _ end] => destruct d eqn:?
           end;
    inversion Hex; subst; cbn; rewrite ?app_nil_r; auto.
Qed.

Section Tallies.

Variable w : weight.
Variable N : Z.
Hypothesis task_weighs : forall buf qsize, tally w N (queryTask E buf qsize).
Hypothesis turn_weighs : tally w 0 serveTCPConn_iter.
Hypothesis exit_weighs : forall ret, tally w 0 (serveTCPConn_exit ret).

Lemma tally_ret (A : Type) (n : Z) (x : A) : tally w n (Ret x) -> n = 0.
Proof. intros H. inversion H. assumption. Qed.

Lemma tally_do (A : Type) (n : Z) (X : Type) (c : cmd X) (k : X -> prog A) :
  tally w n (Do c k) -> forall x, tally w (n - w X c) (k x).
Proof.
  intros H.
  assert (Hnext : forall p : prog A, tally w n p ->
            match p with
            | Do c k => forall x, tally w (n - w _ c) (k x)
            | _ => True
            end).
  { intros p Hp. destruct Hp; auto. }
  exact (Hnext _ H).
Qed.

Lemma total_cons (b a : actor) (X : Type) (c : cmd X) (x : X) (tr : list event) :
  total w b (Ev a c x :: tr)
  = (if actor_eqb b a then w X c else 0) + total w b tr.
Proof. reflexivity. Qed.

(** One operation of goroutine [a]: its weight leaves what [a] has ahead
    and joins what [a] has done; a goroutine it starts has the whole of
    [N] ahead. *)
Lemma advance_tallied (A : Type) (a : actor) (ch : nat) (p p' : prog A)
    (s s1 : state) (n : Z) :
  advance E a ch p s = Some (p', s1) ->
  tally w n p ->
  exists d new,
    tally w (n - d) p' /\
    main s1 = main s /\
    (forall b, total w b (trace s1)
               = (if actor_eqb b a then d else 0) + total w b (trace s)) /\
    tasks s1 = tasks s ++ new /\
    Forall (fun t => tally w N (tcode t)) new.
Proof.
  intros Ha Hn. destruct p as [x|X c k|r]; cbn in Ha.
  - discriminate.
  - destruct (exec E a ch c s) as [[x s2]|] eqn:Hex; [|discriminate].
    inversion Ha; subst.
    destruct (exec_shape _ _ _ _ _ _ _ Hex) as (Htr & Hm & Hts).
    exists (w X c), (spawnOf E c).
    split; [apply tally_do; exact Hn|]. split; [exact Hm|]. split.
    { intros b. cbn [trace emit]. rewrite Htr. apply total_cons. }
    split; [exact Hts|].
    destruct c; cbn; try (constructor; fail).
    constructor; [apply task_weighs|constructor].
  - inversion Ha; subst. exists 0, [].
    split; [apply ty_panic|]. split; [reflexivity|]. split.
    { intros b. cbn. destruct (actor_eqb b a); reflexivity. }
    split; [cbn; now rewrite app_nil_r|constructor].
Qed.

Lemma nth_error_new (ts new : list task) (i : nat) (t : task) (P : task -> Prop) :
  nth_error (ts ++ new) i = Some t ->
  Forall P new ->
  nth_error ts i = Some t \/ ((List.length ts <= i)%nat /\ P t).
Proof.
  intros Hi Hnew. destruct (Nat.lt_ge_cases i (List.length ts)) as [Hlt|Hge].
  - left. rewrite nth_error_app1 in Hi; assumption.
  - right. split; [exact Hge|]. rewrite nth_error_app2 in Hi by exact Hge.
    rewrite Forall_forall in Hnew. apply Hnew. eapply nth_error_In; eauto.
Qed.

Lemma Tallied_init (pool : TieredBufferPool) (r : Reader) :
  Tallied w N (init pool r).
Proof.
  split; cbn.
  - intros [|i] t Hi; discriminate.
  - reflexivity.
  - exists 0. split; [exact turn_weighs|reflexivity].
Qed.

Lemma Tallied_main (A : Type) (ch : nat) (p p' : prog A) (s s1 : state)
    (wrap : prog A -> mainState) :
  (forall q m, match wrap q with
               | Looping q' => tally w m q'
               | Exiting q' => tally w m q'
               end <-> tally w m q) ->
  Tallied w N s ->
  main s = wrap p ->
  advance E Main ch p s = Some (p', s1) ->
  Tallied w N (set_main (wrap p') s1).
Proof.
  intros Hwrap [Hts Hfr (m & Hm & Hsum)] Hp Ha.
  rewrite Hp in Hm. apply Hwrap in Hm.
  destruct (advance_tallied _ _ _ _ _ _ _ _ Ha Hm)
    as (d & new & Hp' & _ & Htot & Hnew & Hweigh).
  split; cbn [tasks trace main set_main].
  - intros i t Hi. rewrite Hnew in Hi.
    destruct (nth_error_new _ _ _ _ _ Hi Hweigh) as [Hold|[Hge Ht]].
    + destruct (Hts i t Hold) as (k & Hk & Hsumk).
      exists k. split; [exact Hk|]. rewrite Htot. cbn. lia.
    + exists N. split; [exact Ht|]. rewrite Htot, (Hfr i Hge). cbn. lia.
  - intros i Hi. rewrite Hnew, length_app in Hi.
    rewrite Htot, Hfr by lia. reflexivity.
  - exists (m - d). split; [apply Hwrap; exact Hp'|].
    rewrite Htot. cbn. lia.
Qed.

Lemma Tallied_step (m : move) (s s' : state) :
  Tallied w N s -> step E m s = Some s' -> Tallied w N s'.
Proof.
  intros HT Hst. unfold step in Hst.
  destruct (crashed s); [discriminate|].
  destruct m as [[|i] ch|o].
  - (* the loop *)
    assert (HL : forall (q : prog flow) k,
              match Looping q with
              | Looping q' => tally w k q'
              | Exiting q' => tally w k q'
              end <-> tally w k q) by (intros; cbn; tauto).
    assert (HX : forall (q : prog (option error)) k,
              match Exiting q with
              | Looping q' => tally w k q'
              | Exiting q' => tally w k q'
              end <-> tally w k q) by (intros; cbn; tauto).
    destruct (main s) as [p|p] eqn:Hp.
    + pose proof HT as [Hts Hfr (n & Hn & Hsum)]. rewrite Hp in Hn.
      destruct p as [[|e]|X c k|r].
      * inversion Hst; subst. split; auto. cbn.
        apply tally_ret in Hn. subst n. exists 0. auto.
      * inversion Hst; subst. split; auto. cbn.
        apply tally_ret in Hn. subst n. exists 0. auto.
      * destruct (advance E Main ch (Do c k) s) as [[p' s1]|] eqn:Ha;
          [|discriminate].
        inversion Hst; subst.
        exact (Tallied_main _ ch (Do c k) p' s s1 Looping HL HT Hp Ha).
      * destruct (advance E Main ch (Panic r) s) as [[p' s1]|] eqn:Ha;
          [|discriminate].
        inversion Hst; subst.
        exact (Tallied_main _ ch (Panic r) p' s s1 Looping HL HT Hp Ha).
    + destruct (advance E Main ch p s) as [[p' s1]|] eqn:Ha; [|discriminate].
      inversion Hst; subst.
      exact (Tallied_main _ ch p p' s s1 Exiting HX HT Hp Ha).
  - (* a query goroutine *)
    destruct (nth_error (tasks s) i) as [t|] eqn:Hi; [|discriminate].
    destruct (advance E (Task i) ch (tcode t) s) as [[p' s1]|] eqn:Ha;
      [|discriminate].
    inversion Hst; subst. clear Hst.
    destruct HT as [Hts Hfr (m & Hm & Hsum)].
    destruct (Hts i t Hi) as (n & Hn & Hsumn).
    destruct (advance_tallied _ _ _ _ _ _ _ _ Ha Hn)
      as (d & new & Hp' & Hmain & Htot & Hnew & Hweigh).
    assert (Hlt : (i < List.length (tasks s))%nat).
    { apply nth_error_Some. congruence. }
    split; cbn [tasks trace main set_tasks].
    + intros j t' Hj. destruct (Nat.eq_dec i j) as [<-|Hne].
      * rewrite (nth_error_update_eq i t) in Hj
          by (rewrite Hnew, nth_error_app1; assumption).
        inversion Hj; subst. cbn [tcode moved].
        exists (n - d). split; [exact Hp'|].
        rewrite Htot. cbn. rewrite Nat.eqb_refl. lia.
      * rewrite nth_error_update_neq in Hj by exact Hne.
        rewrite Hnew in Hj.
        assert (Hji : actor_eqb (Task j) (Task i) = false).
        { cbn. apply Nat.eqb_neq. congruence. }
        destruct (nth_error_new _ _ _ _ _ Hj Hweigh) as [Hold|[Hge Ht]].
        -- destruct (Hts j t' Hold) as (k & Hk & Hsumk).
           exists k. split; [exact Hk|]. rewrite Htot, Hji. lia.
        -- exists N. split; [exact Ht|].
           rewrite Htot, Hji, (Hfr j Hge). lia.
    + intros j Hj. rewrite update_length, Hnew, length_app in Hj.
      assert (Hji : actor_eqb (Task j) (Task i) = false).
      { cbn. apply Nat.eqb_neq. lia. }
      rewrite Htot, Hji, Hfr by lia. reflexivity.
    + exists m. rewrite Hmain. split; [exact Hm|].
      rewrite Htot. cbn. lia.
  - inversion Hst; subst. destruct HT as [Hts Hfr Hm]. split; auto.
Qed.

Lemma Tallied_run (ms : list move) (s s' : state) :
  Tallied w N s -> run E ms s = Some s' -> Tallied w N s'.
Proof.
  revert s. induction ms as [|m ms IH]; intros s HT Hrun; cbn in Hrun.
  - inversion Hrun; subst. exact HT.
  - destruct (step E m s) as [s1|] eqn:Hst; [|discriminate].
    apply (IH s1); [eapply Tallied_step; eauto|exact Hrun].
Qed.

Lemma Tallied_reachable (ops : list op) (r : Reader) (s : state) :
  reachable E ops r s -> Tallied w N s.
Proof.
  intros [ms Hrun]. eapply Tallied_run; eauto. apply Tallied_init.
Qed.

(** A goroutine that has run to its end weighs [N]. *)
Lemma finished_weighs (ops : list op) (r : Reader) (s : state) (i : nat)
    (t : task) :
  reachable E ops r s ->
  nth_error (tasks s) i = Some t ->
  finished t = true ->
  total w (Task i) (trace s) = N.
Proof.
  intros Hreach Hi Hfin. pose proof (Tallied_reachable _ _ _ Hreach) as HT.
  destruct (tl_tasks _ _ _ HT i t Hi) as (n & Hn & Hsum).
  unfold finished in Hfin. destruct (tcode t); try discriminate.
  apply tally_ret in Hn. lia.
Qed.

End Tallies.

(** *** The weights of the code at hand *)

Ltac weigh :=
  repeat (cbn;
          first [ apply ty_ret; reflexivity
                | apply ty_panic
                | apply ty_do; intros ?
                | match goal with
                  | |- context [match ?x with _ => _ end] => destruct x
                  end ]).

Lemma queryTask_weighs (w : weight) (N : Z) (buf : slice) (qsize : Z) :
  (w = resolves /\ N = 1) \/ (w = records /\ N = 1) \/
  (w = buffers /\ N = -1) \/ (w = waits /\ N = -1) ->
  tally w N (queryTask E buf qsize).
Proof.
  intros [[-> ->] | [[-> ->] | [[-> ->] | [-> ->]]]];
    unfold queryTask, respond, deferred, writeTCP; weigh.
Qed.

Lemma serveTCPConn_iter_weighs (w : weight) :
  w = resolves \/ w = records \/ w = buffers \/ w = waits ->
  tally w 0 serveTCPConn_iter.
Proof.
  intros [-> | [-> | [-> | ->]]]; unfold serveTCPConn_iter, readTCP; weigh.
Qed.

Lemma serveTCPConn_exit_weighs (w : weight) (ret : option error) :
  w = resolves \/ w = records \/ w = buffers \/ w = waits ->
  tally w 0 (serveTCPConn_exit ret).
Proof.
  intros [-> | [-> | [-> | ->]]]; unfold serveTCPConn_exit; weigh.
Qed.

Lemma total_resolves (a : actor) (tr : list event) :
  total resolves a tr = Z.of_nat (count (is_resolve_by a) tr).
Proof.
  induction tr as [|[b X c x] tr IH]; [reflexivity|].
  cbn [total]. rewrite count_cons, IH. unfold is_resolve_by. cbn [made_by].
  destruct (actor_eqb a b); destruct c; cbn [resolves andb b2n]; lia.
Qed.

(** X6.  Every query goroutine that has run to its end, in any state the
    connection can reach under any schedule, has called [Resolve] exactly
    once and has handed exactly one record to [p.logQuery], whether the
    query parsed, the resolver failed or panicked, or the write failed. *)
Theorem each_query_is_resolved_and_logged_once (ops : list op) (r : Reader)
    (s : state) (i : nat) (t : task) :
  reachable E ops r s ->
  nth_error (tasks s) i = Some t ->
  finished t = true ->
  count (is_resolve_by (Task i)) (trace s) = 1%nat /\
  total records (Task i) (trace s) = 1.
Proof.
  intros Hreach Hi Hfin. split.
  - apply Nat2Z.inj. rewrite <- total_resolves.
    apply (finished_weighs resolves 1) with (ops := ops) (r := r) (t := t);
      auto using queryTask_weighs, serveTCPConn_iter_weighs,
                 serveTCPConn_exit_weighs.
  - apply (finished_weighs records 1) with (ops := ops) (r := r) (t := t);
      auto using queryTask_weighs, serveTCPConn_iter_weighs,
                 serveTCPConn_exit_weighs.
Qed.

(** *** Sums over the goroutines of a connection *)

Lemma sumTo_ext (n : nat) (f g : nat -> Z) :
  (forall i, (i < n)%nat -> f i = g i) -> sumTo n f = sumTo n g.
Proof.
  induction n as [|n IH]; intros H; cbn; [reflexivity|].
  rewrite IH, (H n) by (intros; try apply H; lia). reflexivity.
Qed.

Lemma sumTo_plus (n : nat) (f g : nat -> Z) :
  sumTo n (fun i => f i + g i) = sumTo n f + sumTo n g.
Proof. induction n as [|n IH]; cbn; lia. Qed.

Lemma sumTo_const (n : nat) (c : Z) : sumTo n (fun _ => c) = Z.of_nat n * c.
Proof. induction n as [|n IH]; cbn [sumTo]; lia. Qed.

Lemma sumTo_delta (n j : nat) (d : Z) :
  sumTo n (fun i => if Nat.eqb i j then d else 0)
  = if (j <? n)%nat then d else 0.
Proof.
  induction n as [|n IH]; cbn [sumTo]; [reflexivity|]. rewrite IH.
  destruct (Nat.eqb_spec n j) as [->|Hne].
  - replace (j <? j)%nat with false by (symmetry; apply Nat.ltb_ge; lia).
    replace (j <? S j)%nat with true by (symmetry; apply Nat.ltb_lt; lia). lia.
  - destruct (Nat.ltb_spec j n), (Nat.ltb_spec j (S n)); lia.
Qed.

(** The weight of a trace is the weight of what the loop did plus the
    weights of what the goroutines did. *)
Lemma whole_split (w : weight) (n : nat) (tr : list event) :
  (forall i, (n <= i)%nat -> count (made_by (Task i)) tr = O) ->
  whole w tr = total w Main tr + sumTo n (fun i => total w (Task i) tr).
Proof.
  induction tr as [|[b X c x] tr IH]; intros Hfresh.
  - cbn. rewrite sumTo_const. lia.
  - assert (Hfresh' : forall i, (n <= i)%nat -> count (made_by (Task i)) tr = O).
    { intros i Hi. specialize (Hfresh i Hi). rewrite count_cons in Hfresh. lia. }
    cbn [whole total]. rewrite sumTo_plus, (IH Hfresh'). destruct b as [|j].
    + cbn [actor_eqb]. rewrite sumTo_const. lia.
    + assert (Hj : (j < n)%nat).
      { destruct (Nat.lt_ge_cases j n) as [Hlt|Hge]; [exact Hlt|].
        specialize (Hfresh j Hge). rewrite count_cons in Hfresh.
        cbn in Hfresh. rewrite Nat.eqb_refl in Hfresh. cbn in Hfresh. lia. }
      cbn [actor_eqb]. rewrite sumTo_delta.
      replace (j <? n)%nat with true by (symmetry; apply Nat.ltb_lt; exact Hj).
      lia.
Qed.

Lemma whole_buffers (tr : list event) :
  whole buffers tr
  = Z.of_nat (count is_get tr) - Z.of_nat (count is_put tr)
    - Z.of_nat (count is_spawn tr).
Proof.
  induction tr as [|[b X c x] tr IH]; [reflexivity|].
  cbn [whole]. rewrite !count_cons, IH.
  destruct c; cbn [buffers is_get is_put is_spawn b2n]; lia.
Qed.

Lemma whole_waits (tr : list event) :
  whole waits tr
  = Z.of_nat (count is_add tr) - Z.of_nat (count is_done tr)
    - Z.of_nat (count is_spawn tr).
Proof.
  induction tr as [|[b X c x] tr IH]; [reflexivity|].
  cbn [whole]. rewrite !count_cons, IH.
  destruct c; cbn [waits is_add is_done is_spawn b2n]; lia.
Qed.

(** Once [serveTCPConn] has returned, a weight that a query goroutine
    brings to -1 and a loop turn to 0 sums to minus the number of
    goroutines. *)
Lemma whole_at_return (w : weight) (ops : list op) (r : Reader) (s : state)
    (ret : option error) :
  w = buffers \/ w = waits ->
  reachable E ops r s ->
  returned s = Some ret ->
  whole w (trace s) = - Z.of_nat (List.length (tasks s)).
Proof.
  intros Hw Hreach Hret.
  pose proof (Inv_reachable E ops r s Hreach) as HI.
  assert (HT : Tallied w (-1) s).
  { apply Tallied_reachable with (ops := ops) (r := r); auto.
    - intros buf qsize. apply queryTask_weighs. tauto.
    - apply serveTCPConn_iter_weighs. tauto.
    - intros e. apply serveTCPConn_exit_weighs. tauto. }
  rewrite (whole_split w (List.length (tasks s))) by apply (inv_fresh E s HI).
  destruct (returned_joined E s ret HI Hret) as (_ & Hdead & _).
  pose proof (joined E s HI Hdead) as Hall. rewrite Forall_forall in Hall.
  assert (Hmain : total w Main (trace s) = 0).
  { destruct (tl_main _ _ _ HT) as (n & Hn & Hsum).
    unfold returned in Hret. destruct (main s) as [p|p]; [discriminate|].
    destruct p; try discriminate. apply tally_ret in Hn. lia. }
  rewrite Hmain.
  rewrite (sumTo_ext _ _ (fun _ => -1)), sumTo_const; [lia|].
  intros i Hi. destruct (nth_error (tasks s) i) as [t|] eqn:Ht.
  - destruct (tl_tasks _ _ _ HT i t Ht) as (n & Hn & Hsum).
    destruct (Hall t (nth_error_In _ _ Ht)) as [Hcode _].
    rewrite Hcode in Hn. apply tally_ret in Hn. lia.
  - apply nth_error_None in Ht. lia.
Qed.

(** X7.  Nothing is left behind: once [serveTCPConn] has returned, under
    any schedule, every buffer the loop and its query goroutines took from
    the pool with [GetLarge] was put back with [Put], and every
    [wg.Add(1)] was answered by a [wg.Done()]. *)
Theorem buffers_and_waitgroup_balance (ops : list op) (r : Reader) (s : state)
    (ret : option error) :
  reachable E ops r s ->
  returned s = Some ret ->
  count is_get (trace s) = count is_put (trace s) /\
  count is_add (trace s) = count is_done (trace s).
Proof.
  intros Hreach Hret.
  pose proof (Inv_reachable E ops r s Hreach) as HI.
  pose proof (inv_spawned E s HI) as Hsp.
  pose proof (whole_at_return buffers ops r s ret (or_introl eq_refl) Hreach Hret)
    as Hb.
  pose proof (whole_at_return waits ops r s ret (or_intror eq_refl) Hreach Hret)
    as Hw.
  rewrite whole_buffers in Hb. rewrite whole_waits in Hw. lia.
Qed.

End AccountingFacts.

(** ** The buffer pool: reslicing and reuse *)

Section PoolUseFacts.
Import Go BufferPool.

(** X8.  The buffer [Get(n)] hands out, on any pool reachable from
    [NewTieredBufferPool], can be resliced to the [n] bytes asked for
    exactly when [0 <= n <= 65536]: up to 65536 the capacity is at least
    [n], so [buf[:n]] has length [n] over the same array; past 65536 the
    large tier is still what is handed out and [buf[:n]] panics. *)
Theorem Get_fits_the_request (ops : list op) (c : nat) (n : Z) :
  (n <= 65536 -> n <= cap (fst (Get c n (after ops)))) /\
  (65536 < n -> cap (fst (Get c n (after ops))) < n) /\
  (upto (fst (Get c n (after ops))) n <> None <-> 0 <= n <= 65536) /\
  (forall window, upto (fst (Get c n (after ops))) n = Some window ->
     len window = n /\ backing window = backing (fst (Get c n (after ops)))).
Proof.
  destruct (Get_wf c n _ (after_wf ops)) as [Hcap _].
  set (b := fst (Get c n (after ops))) in *.
  assert (Hfit : n <= 65536 -> n <= cap b).
  { intros Hn. rewrite Hcap. unfold tierOf.
    destruct (Z.leb_spec n 512); [cbn; lia|].
    destruct (Z.leb_spec n 4096); cbn; lia. }
  assert (Hbig : 65536 < n -> cap b = 65536).
  { intros Hn. rewrite Hcap. unfold tierOf.
    destruct (Z.leb_spec n 512); [lia|].
    destruct (Z.leb_spec n 4096); [lia|reflexivity]. }
  split; [exact Hfit|]. split; [intros Hn; rewrite (Hbig Hn); exact Hn|].
  split.
  - unfold upto.
    destruct (Z.leb_spec 0 n); destruct (Z.leb_spec n (cap b)); cbn;
      split; intros Hx; try congruence; try lia.
  - intros window Hw. unfold upto in Hw.
    destruct ((0 <=? n) && (n <=? cap b)); [|discriminate].
    inversion Hw; subst. split; reflexivity.
Qed.

Lemma poolGet_poolPut (b : slice) (p : syncPool) :
  poolGet 0 (poolPut b p) = (b, p).
Proof. destruct p. reflexivity. Qed.

(** X9.  Reuse: a buffer put back is what the next [Get] of its tier hands
    out when [sync.Pool] picks the item put last, and the pool is then as it
    was before the [Put]; the same holds for [GetLarge] and a 65536-byte
    buffer.  This holds on every pool, reachable or not. *)
Theorem Put_then_Get_reuses (p : TieredBufferPool) (b : slice) (n : Z) :
  cap b = tierCap (tierOf n) ->
  Get 0 n (Put (Some b) p) = (b, p) /\
  (cap b = 65536 -> GetLarge 0 (Put (Some b) p) = (b, p)).
Proof.
  intros Hcap. unfold Get, GetLarge, Put, tierOf in *. destruct p as [s m l].
  destruct (Z.leb_spec n 512); [|destruct (Z.leb_spec n 4096)];
    cbn [tierCap] in Hcap; rewrite Hcap; cbn [Z.eqb Pos.eqb small medium large];
    rewrite poolGet_poolPut; (split; [reflexivity|]); intros Hx; try lia.
  reflexivity.
Qed.

End PoolUseFacts.

(** ** The accept loop *)

Section ListenerFacts.
Import TCP Listener.

Lemma serveTCP_harmless (l : list accepted) :
  forallb harmless l = true -> serveTCP l = (connections l, None).
Proof.
  induction l as [|[c|err] l IH]; cbn; intros H; [reflexivity| |].
  - rewrite IH by exact H. reflexivity.
  - apply andb_prop in H. destruct H as [Ht H]. rewrite Ht. now apply IH.
Qed.

Lemma serveTCP_app (pre l : list accepted) :
  forallb harmless pre = true ->
  serveTCP (pre ++ l)
  = (connections pre ++ fst (serveTCP l), snd (serveTCP l)).
Proof.
  induction pre as [|[c|err] pre IH]; cbn; intros H.
  - destruct (serveTCP l); reflexivity.
  - rewrite IH by exact H. reflexivity.
  - apply andb_prop in H. destruct H as [Ht H]. rewrite Ht. now apply IH.
Qed.

(** X10.  The accept loop ends at the first [Accept] error that is not a
    timeout and returns that very error; a [serveTCPConn] goroutine was
    started on every connection accepted before it, in order, timeouts in
    between being skipped, and nothing is accepted after it.  As long as
    [Accept] yields only connections and timeouts the loop does not return;
    it never returns nil or a timeout. *)
Theorem serveTCP_stops_at_the_first_fatal_error (pre post : list accepted)
    (err : acceptError) :
  forallb harmless pre = true ->
  isTimeout err = false ->
  serveTCP (pre ++ Refused err :: post) = (connections pre, Some err) /\
  serveTCP pre = (connections pre, None) /\
  (forall l cs e, serveTCP l = (cs, Some e) ->
     isTimeout e = false /\ In (Refused e) l).
Proof.
  intros Hpre Herr. split; [|split].
  - rewrite serveTCP_app by exact Hpre. cbn. rewrite Herr. cbn.
    now rewrite app_nil_r.
  - now apply serveTCP_harmless.
  - clear. induction l as [|[c|e'] l IH]; cbn; intros cs e H.
    + discriminate.
    + destruct (serveTCP l) as [cs' ret] eqn:Hl. inversion H; subst.
      destruct (IH _ _ eq_refl) as [Ht Hin]. auto.
    + destruct (isTimeout e') eqn:Ht.
      * destruct (IH _ _ H) as [Ht' Hin]. auto.
      * inversion H; subst. auto.
Qed.

End ListenerFacts.

(** ** The addresses of a DoH endpoint *)

Section EndpointFacts.
Import Endpoint.
Local Open Scope string_scope.

Lemma append_assoc (a b c : string) : (a ++ b) ++ c = a ++ (b ++ c).
Proof. induction a as [|x a IH]; cbn; [reflexivity|]. now rewrite IH. Qed.

Lemma JoinHostPort_port (host port : string) :
  endsWith (":" ++ port) (JoinHostPort host port).
Proof.
  unfold JoinHostPort, endsWith. destruct (hasColon host).
  - exists ("[" ++ host ++ "]"). rewrite !append_assoc. reflexivity.
  - exists host. reflexivity.
Qed.

(** X11.  [endpointAddrs] never returns an empty list: it has one address
    per bootstrap IP when there are any, the hostname playing no part
    then, and the single address of the hostname otherwise; every address
    is on port 443, and a bootstrap IP that holds a colon (IPv6) is put in
    brackets. *)
Theorem endpointAddrs_are_never_empty (e : DOHEndpoint) :
  endpointAddrs e <> [] /\
  List.length (endpointAddrs e) = Nat.max 1 (List.length (Bootstrap e)) /\
  Forall (endsWith ":443") (endpointAddrs e) /\
  (Bootstrap e <> [] ->
     forall host, endpointAddrs (mkDOHEndpoint host (Bootstrap e))
                  = endpointAddrs e) /\
  (forall ip, In ip (Bootstrap e) -> hasColon ip = true ->
     In ("[" ++ ip ++ "]:443") (endpointAddrs e)).
Proof.
  unfold endpointAddrs. destruct e as [host boot]. cbn [Bootstrap Hostname].
  destruct boot as [|b boot].
  - split; [discriminate|]. split; [reflexivity|]. split.
    + constructor; [apply JoinHostPort_port|constructor].
    + split; [congruence|]. intros ip [].
  - split; [discriminate|]. split; [cbn; now rewrite length_map|]. split.
    + apply Forall_forall. intros a Ha. apply in_map_iff in Ha.
      destruct Ha as (ip & <- & _). apply JoinHostPort_port.
    + split; [reflexivity|]. intros ip Hin Hc.
      apply in_map_iff. exists ip. split; [|exact Hin].
      unfold JoinHostPort. now rewrite Hc.
Qed.

End EndpointFacts.

(** ** Package [testutil]: the latency measurer *)

Section LatencyFacts.
Import Testutil.

Lemma fold_min_spec (rest : list Z) (first : Z) :
  let m := fold_left (fun min l => if l <? min then l else min) rest first in
  (m = first \/ In m rest) /\ m <= first /\ Forall (fun l => m <= l) rest.
Proof.
  revert first. induction rest as [|x rest IH]; intros first; cbn.
  - split; [now left|]. split; [lia|constructor].
  - destruct (Z.ltb_spec x first) as [Hlt|Hge].
    + destruct (IH x) as (Hin & Hle & Hall).
      split; [destruct Hin; auto|]. split; [lia|]. constructor; assumption.
    + destruct (IH first) as (Hin & Hle & Hall).
      split; [destruct Hin; auto|]. split; [lia|]. constructor; [lia|assumption].
Qed.

Lemma fold_max_spec (rest : list Z) (first : Z) :
  let m := fold_left (fun max l => if l >? max then l else max) rest first in
  (m = first \/ In m rest) /\ first <= m /\ Forall (fun l => l <= m) rest.
Proof.
  revert first. induction rest as [|x rest IH]; intros first; cbn.
  - split; [now left|]. split; [lia|constructor].
  - rewrite Z.gtb_ltb. destruct (Z.ltb_spec first x) as [Hlt|Hge].
    + destruct (IH x) as (Hin & Hle & Hall).
      split; [destruct Hin; auto|]. split; [lia|]. constructor; assumption.
    + destruct (IH first) as (Hin & Hle & Hall).
      split; [destruct Hin; auto|]. split; [lia|]. constructor; [lia|assumption].
Qed.

Lemma Min_Max_bounds (lm : LatencyMeasurer) :
  (forall l, In l (latencies lm) -> Min lm <= l <= Max lm) /\
  (latencies lm <> [] ->
     In (Min lm) (latencies lm) /\ In (Max lm) (latencies lm)).
Proof.
  destruct lm as [[|first rest]]; unfold Min, Max; cbn [latencies].
  - split; [intros l []|congruence].
  - destruct (fold_min_spec rest first) as (Hin & Hle & Hall).
    destruct (fold_max_spec rest first) as (Hin' & Hle' & Hall').
    rewrite Forall_forall in Hall, Hall'.
    split.
    { intros l [<-|Hl]; [lia|]. specialize (Hall l Hl). specialize (Hall' l Hl).
      cbn in *. lia. }
    intros _. split; cbn; [destruct Hin | destruct Hin']; auto.
Qed.

(** X12.  [Min] and [Max] of a measurer bound every latency it holds and
    are themselves latencies it holds; with no measurement [Min], [Max]
    and [Average] are all 0, and [Reset] brings that state back. *)
Theorem Min_and_Max_bound_every_latency (lm : LatencyMeasurer) :
  (forall l, In l (latencies lm) -> Min lm <= l <= Max lm) /\
  (latencies lm <> [] ->
     In (Min lm) (latencies lm) /\ In (Max lm) (latencies lm)) /\
  (latencies lm = [] -> Min lm = 0 /\ Max lm = 0 /\ Average lm = 0) /\
  Count (Reset lm) = 0 /\ Min (Reset lm) = 0 /\ Max (Reset lm) = 0 /\
  Average (Reset lm) = 0.
Proof.
  destruct (Min_Max_bounds lm) as [Hall Hin].
  split; [exact Hall|]. split; [exact Hin|]. split.
  - unfold Min, Max, Average. intros ->. repeat split; reflexivity.
  - repeat split; reflexivity.
Qed.

Lemma int64_add (a b : Z) : int64 (int64 a + b) = int64 (a + b).
Proof.
  unfold int64. f_equal.
  replace ((a + 2 ^ 63) mod 2 ^ 64 - 2 ^ 63 + b + 2 ^ 63)
    with ((a + 2 ^ 63) mod 2 ^ 64 + b) by lia.
  rewrite Z.add_mod_idemp_l by lia. f_equal. lia.
Qed.

Lemma int64_small (z : Z) : - 2 ^ 63 <= z < 2 ^ 63 -> int64 z = z.
Proof. intros Hz. unfold int64. rewrite Z.mod_small; lia. Qed.

Lemma sumLatencies_wraps (ls : list Z) : sumLatencies ls = int64 (exactSum ls).
Proof.
  unfold sumLatencies.
  assert (Hgen : forall a, fold_left (fun total l => int64 (total + l)) ls (int64 a)
                           = int64 (a + exactSum ls)).
  { unfold exactSum. induction ls as [|x ls IH]; intros a; cbn.
    - now rewrite Z.add_0_r.
    - rewrite int64_add, IH. f_equal. lia. }
  exact (Hgen 0).
Qed.

Lemma exactSum_bounds (ls : list Z) (lo hi : Z) :
  Forall (fun l => lo <= l <= hi) ls ->
  Z.of_nat (List.length ls) * lo <= exactSum ls <= Z.of_nat (List.length ls) * hi.
Proof.
  induction 1 as [|x ls Hx Hls IH]; cbn [exactSum fold_right List.length].
  - lia.
  - fold (exactSum ls). lia.
Qed.

Lemma quot_between (total n lo hi : Z) :
  0 < n -> n * lo <= total <= n * hi -> lo <= Z.quot total n <= hi.
Proof.
  intros Hn [Hlo Hhi].
  destruct (Z.le_gt_cases 0 total) as [Hpos|Hneg].
  - rewrite Z.quot_div_nonneg by lia. split.
    + destruct (Z.le_gt_cases lo 0) as [Hl|Hl].
      * pose proof (Z.div_pos total n Hpos Hn). lia.
      * apply Z.div_le_lower_bound; lia.
    + apply Z.div_le_upper_bound; lia.
  - replace total with (- - total) by lia.
    rewrite Z.quot_opp_l by lia. rewrite Z.quot_div_nonneg by lia. split.
    + cut ((- total) / n <= - lo); [lia|].
      apply Z.div_le_upper_bound; lia.
    + destruct (Z.le_gt_cases 0 hi) as [Hh|Hh].
      * pose proof (Z.div_pos (- total) n ltac:(lia) Hn). lia.
      * cut (- hi <= (- total) / n); [lia|].
        apply Z.div_le_lower_bound; lia.
Qed.

(** X13.  As long as the latencies add up to a value an [int64] holds,
    [Average] is their sum divided by their number, rounded toward zero,
    and lies between [Min] and [Max]. *)
Theorem Average_lies_between_Min_and_Max (lm : LatencyMeasurer) :
  latencies lm <> [] ->
  - 2 ^ 63 <= exactSum (latencies lm) < 2 ^ 63 ->
  Average lm = Z.quot (exactSum (latencies lm)) (Count lm) /\
  Min lm <= Average lm <= Max lm.
Proof.
  intros Hne Hsum.
  destruct (Min_Max_bounds lm) as (Hall & _).
  assert (Havg : Average lm = Z.quot (exactSum (latencies lm)) (Count lm)).
  { unfold Average, Count. destruct (latencies lm) as [|x ls] eqn:Hl; [congruence|].
    rewrite sumLatencies_wraps, int64_small by exact Hsum. reflexivity. }
  split; [exact Havg|]. rewrite Havg. unfold Count.
  apply quot_between.
  - destruct (latencies lm); [congruence|cbn; lia].
  - apply exactSum_bounds. apply Forall_forall. exact Hall.
Qed.

End LatencyFacts.

(** ** Package [testutil]: its tiered pool against the proxy's *)

Section TestutilPoolFacts.
Import Go.

Lemma asProxyPool_Get (c : nat) (n : Z) (p : Testutil.TieredBufferPool) :
  fst (Testutil.Get c n p) = fst (BufferPool.Get c n (Testutil.asProxyPool p)) /\
  Testutil.asProxyPool (snd (Testutil.Get c n p))
  = snd (BufferPool.Get c n (Testutil.asProxyPool p)).
Proof.
  unfold Testutil.Get, BufferPool.Get, Testutil.BufferPool_Get,
    Testutil.asProxyPool.
  cbn [BufferPool.small BufferPool.medium BufferPool.large].
  destruct (n <=? 512); [|destruct (n <=? 4096)];
    match goal with
    | |- context [BufferPool.poolGet c ?q] => destruct (BufferPool.poolGet c q)
    end; split; reflexivity.
Qed.

Lemma asProxyPool_Put (b : slice) (p : Testutil.TieredBufferPool) :
  Testutil.asProxyPool (Testutil.Put b p)
  = BufferPool.Put (Some b) (Testutil.asProxyPool p).
Proof.
  unfold Testutil.Put, BufferPool.Put.
  destruct (cap b =? 512); [reflexivity|].
  destruct (cap b =? 4096); [reflexivity|].
  destruct (cap b =? 65536); reflexivity.
Qed.

Lemma asProxyPool_apply (o : Testutil.op) (p : Testutil.TieredBufferPool) :
  Testutil.asProxyPool (Testutil.apply o p)
  = BufferPool.apply (Testutil.asProxyOp o) (Testutil.asProxyPool p).
Proof.
  destruct o as [c n|b]; cbn.
  - apply asProxyPool_Get.
  - apply asProxyPool_Put.
Qed.

Lemma asProxyPool_after (ops : list Testutil.op) :
  Testutil.asProxyPool (Testutil.after ops)
  = BufferPool.after (map Testutil.asProxyOp ops).
Proof.
  unfold Testutil.after, BufferPool.after.
  change BufferPool.NewTieredBufferPool
    with (Testutil.asProxyPool Testutil.NewTieredBufferPool).
  generalize Testutil.NewTieredBufferPool.
  induction ops as [|o ops IH]; intros p; cbn [fold_left map]; [reflexivity|].
  rewrite IH, asProxyPool_apply. reflexivity.
Qed.

(** X14.  The tiered pool of [testutil] and the one of [proxy/bufferpool.go]
    stay in step: after the same [Get]s and [Put]s they hold the same
    buffers, [Get] hands out the same buffer from both, and so the buffer
    [testutil]'s [Get(n)] hands out has the capacity of the tier that
    serves [n] (512, 4096 or 65536), whatever was put into the pool
    before. *)
Theorem testutil_pool_agrees_with_proxy_pool (ops : list Testutil.op) (c : nat)
    (n : Z) :
  Testutil.asProxyPool (Testutil.after ops)
  = BufferPool.after (map Testutil.asProxyOp ops) /\
  fst (Testutil.Get c n (Testutil.after ops))
  = fst (BufferPool.Get c n (BufferPool.after (map Testutil.asProxyOp ops))) /\
  cap (fst (Testutil.Get c n (Testutil.after ops)))
  = BufferPool.tierCap (BufferPool.tierOf n).
Proof.
  pose proof (asProxyPool_after ops) as Hafter.
  destruct (asProxyPool_Get c n (Testutil.after ops)) as [Hget _].
  rewrite Hafter in Hget.
  split; [exact Hafter|]. split; [exact Hget|].
  rewrite Hget. apply Get_wf. apply after_wf.
Qed.

End TestutilPoolFacts.

(** ** Package [testutil]: the mock DNS server on TCP *)

Section MockServerFacts.
Import Go Testutil.

Lemma connRead_bytes (n : Z) (segs segs' : list (list byte)) (got : list byte) :
  connRead n segs = Some (got, segs') ->
  concat segs = got ++ concat segs' /\ Z.of_nat (List.length got) <= Z.max 0 n.
Proof.
  unfold connRead. destruct (Z.leb_spec n 0) as [Hn|Hn].
  - intros [= <- <-]. split; [reflexivity|cbn; lia].
  - destruct segs as [|seg rest]; [discriminate|]. intros [= <- <-]. split.
    + cbn [concat].
      rewrite <- (firstn_skipn (Z.to_nat n) seg) at 1.
      destruct (skipn (Z.to_nat n) seg) as [|x unread]; cbn [concat].
      * now rewrite app_nil_r.
      * now rewrite <- app_assoc.
    + rewrite length_firstn. lia.
Qed.

Lemma iter_again_consumes (H : Type)
    (handler : option (list byte -> H -> option (list byte) * H))
    (s s' : session H) :
  handleTCP_iter handler s = Again s' ->
  (pendingBytes s' + 2 <= pendingBytes s)%nat /\
  List.length (queries s') = S (List.length (queries s)).
Proof.
  unfold handleTCP_iter, pendingBytes.
  destruct (connRead 2 (incoming s)) as [[hdr segs1]|] eqn:Hhdr; [|discriminate].
  destruct hdr as [|hi [|lo [|x hdr]]]; try discriminate.
  destruct (_ >? _); [discriminate|].
  destruct (connRead _ segs1) as [[query segs2]|] eqn:Hbody; [|discriminate].
  apply connRead_bytes in Hhdr, Hbody.
  destruct Hhdr as [Hhdr _]. destruct Hbody as [Hbody _].
  assert (Hlen : (List.length (concat segs2) + 2
                  <= List.length (concat (incoming s)))%nat).
  { rewrite Hhdr, Hbody, !length_app. cbn. lia. }
  destruct handler as [h|].
  - destruct (h query (hstate s)) as [[r|] st]; intros [= <-];
      cbn [incoming queries]; rewrite length_app; cbn; split; lia.
  - intros [= <-]. cbn [incoming queries]. rewrite length_app. cbn. split; lia.
Qed.

(** The loop ends: it takes at most one turn per two bytes that arrive. *)
Lemma handleTCP_ends (H : Type)
    (handler : option (list byte -> H -> option (list byte) * H))
    (fuel : nat) (s : session H) :
  (pendingBytes s < fuel)%nat -> exists s', handleTCP fuel handler s = Some s'.
Proof.
  revert s. induction fuel as [|fuel IH]; intros s Hf; [lia|]. cbn.
  destruct (handleTCP_iter handler s) as [s1|s1] eqn:Hit.
  - apply iter_again_consumes in Hit. apply IH. lia.
  - eauto.
Qed.

Lemma handleTCP_invariant (H : Type)
    (handler : option (list byte -> H -> option (list byte) * H))
    (P : session H -> Prop) :
  (forall s s', handleTCP_iter handler s = Again s' -> P s -> P s') ->
  (forall s s', handleTCP_iter handler s = Stop s' -> P s -> P s') ->
  forall fuel s s', handleTCP fuel handler s = Some s' -> P s -> P s'.
Proof.
  intros Hagain Hstop. induction fuel as [|fuel IH]; intros s s' Hrun HP;
    [discriminate|].
  cbn in Hrun. destruct (handleTCP_iter handler s) as [s1|s1] eqn:Hit.
  - eapply IH; eauto.
  - inversion Hrun; subst. eauto.
Qed.

(** X15.  A mock server whose handler is [counter.Handle]: whatever
    arrives on a TCP connection and in whatever segments, [handleTCP]
    returns, and the counter then stands at the number of queries the
    server recorded: the handler is called exactly once for each. *)
Theorem handler_is_called_once_per_recorded_query (inner : option handlerFunc)
    (segs : list (list byte)) :
  let s0 := mkSession segs [] [] (NewCountingHandler inner) in
  exists s',
    handleTCP (S (pendingBytes s0)) (Some Handle) s0 = Some s' /\
    count (hstate s') = int64 (Z.of_nat (List.length (queries s'))) /\
    (2 * List.length (queries s') <= List.length (concat segs))%nat /\
    (Z.of_nat (List.length (concat segs)) < 2 ^ 64 ->
       count (hstate s') = Z.of_nat (List.length (queries s'))).
Proof.
  intros s0.
  destruct (handleTCP_ends _ (Some Handle) (S (pendingBytes s0)) s0) as [s' Hrun];
    [lia|].
  exists s'. split; [exact Hrun|].
  assert (Hinv : count (hstate s') = int64 (Z.of_nat (List.length (queries s')))
                 /\ (2 * List.length (queries s') + pendingBytes s'
                     <= pendingBytes s0)%nat).
  { apply (handleTCP_invariant _ (Some Handle)
             (fun s => count (hstate s) = int64 (Z.of_nat (List.length (queries s)))
                       /\ (2 * List.length (queries s) + pendingBytes s
                           <= pendingBytes s0)%nat))
      with (fuel := S (pendingBytes s0)) (s := s0); [| |exact Hrun|].
    - intros s s1 Hit [Hc Hb].
      destruct (iter_again_consumes _ _ _ _ Hit) as [Hbytes Hq].
      split; [|lia]. rewrite Hq.
      unfold handleTCP_iter in Hit.
      destruct (connRead 2 (incoming s)) as [[hdr segs1]|]; [|discriminate].
      destruct hdr as [|hi [|lo [|x hdr]]]; try discriminate.
      destruct (_ >? _); [discriminate|].
      destruct (connRead _ segs1) as [[query segs2]|]; [|discriminate].
      unfold Handle in Hit.
      assert (Hnext : int64 (count (hstate s) + 1)
                      = int64 (Z.of_nat (S (List.length (queries s))))).
      { rewrite Hc, int64_add. f_equal. lia. }
      destruct (Handler (hstate s)) as [f|]; [destruct (f query)|];
        inversion Hit; subst; cbn [hstate count]; exact Hnext.
    - intros s s1 Hit [Hc Hb]. unfold handleTCP_iter in Hit.
      assert (Hsame : forall segs1, connRead 2 (incoming s) = Some segs1 ->
                (pendingBytes (mkSession (snd segs1) (queries s) (sent s) (hstate s))
                 <= pendingBytes s)%nat).
      { intros [hdr segs1] Hr. apply connRead_bytes in Hr. destruct Hr as [Hr _].
        unfold pendingBytes. cbn. rewrite Hr, length_app. lia. }
      destruct (connRead 2 (incoming s)) as [[hdr segs1]|] eqn:Hr.
      + specialize (Hsame _ eq_refl). cbn [snd] in Hsame.
        assert (Hs1 : s1 = mkSession segs1 (queries s) (sent s) (hstate s)).
        { destruct hdr as [|hi [|lo [|x hdr]]]; try (inversion Hit; reflexivity).
          destruct (_ >? _); [inversion Hit; reflexivity|].
          destruct (connRead _ segs1) as [[query segs2]|];
            [|inversion Hit; reflexivity].
          unfold Handle in Hit.
          destruct (Handler (hstate s)) as [f|]; [destruct (f query)|];
            discriminate. }
        subst s1. cbn [hstate queries]. split; [exact Hc|lia].
      + inversion Hit; subst. split; assumption.
    - split; [reflexivity|cbn; lia]. }
  destruct Hinv as [Hc Hb]. split; [exact Hc|].
  assert (Hq : (2 * List.length (queries s') <= List.length (concat segs))%nat).
  { unfold pendingBytes in Hb. cbn in Hb. lia. }
  split; [exact Hq|]. intros Hsmall. rewrite Hc. apply int64_small. lia.
Qed.

Lemma lor_shiftl_byte (a b : Z) :
  0 <= b < 256 -> Z.lor (Z.shiftl a 8) b = 256 * a + b.
Proof.
  intros Hb.
  assert (Hland : Z.land (Z.shiftl a 8) b = 0).
  { apply Z.bits_inj'. intros n Hn. rewrite Z.land_spec, Z.bits_0.
    destruct (Z.lt_ge_cases n 8) as [Hlt|Hge].
    - rewrite Z.shiftl_spec_low by exact Hlt. reflexivity.
    - destruct (Z.eq_dec b 0) as [->|Hnz].
      + rewrite Z.bits_0. apply andb_false_r.
      + rewrite (Z.bits_above_log2 b n), andb_false_r; [reflexivity|lia|].
        apply Z.lt_le_trans with 8; [|exact Hge].
        apply Z.log2_lt_pow2; [lia|]. change (2 ^ 8) with 256. lia. }
  rewrite <- Z.lxor_lor by exact Hland.
  rewrite <- Z.add_nocarry_lxor by exact Hland.
  rewrite Z.shiftl_mul_pow2 by lia. change (2 ^ 8) with 256. lia.
Qed.

Lemma Zbyte_mod (x y : Z) : x mod 256 = y mod 256 -> Zbyte x = Zbyte y.
Proof. intros Hxy. unfold Zbyte. now rewrite Hxy. Qed.

(** The mock server writes the length prefix [writeTCP] writes. *)
Lemma lenBuf_putUint16be (resp : list byte) :
  lenBuf resp = putUint16be (uint16 (Z.of_nat (List.length resp))).
Proof.
  unfold lenBuf, putUint16be, uint16.
  set (L := Z.of_nat (List.length resp)).
  rewrite Z.shiftr_div_pow2 by lia. change (2 ^ 8) with 256.
  change 65536 with (256 * 256). rewrite Z.rem_mul_r by lia.
  pose proof (Z.mod_pos_bound L 256 ltac:(lia)) as H1.
  pose proof (Z.mod_pos_bound (L / 256) 256 ltac:(lia)) as H2.
  set (q := (L / 256) mod 256) in *. set (r := L mod 256) in *.
  assert (Hhi : (r + 256 * q) / 256 = q).
  { rewrite (Z.mul_comm 256 q), Z.div_add by lia.
    rewrite (Z.div_small r) by lia. lia. }
  assert (Hlo : (r + 256 * q) mod 256 = r).
  { rewrite (Z.mul_comm 256 q), Z.mod_add by lia. apply Z.mod_small. lia. }
  f_equal; [|f_equal]; apply Zbyte_mod.
  - rewrite Hhi. fold q. symmetry. apply Z.mod_small. lia.
  - rewrite Hlo. reflexivity.
Qed.

(** One turn on a frame that arrives whole, in one segment. *)
Lemma iter_whole (H : Type)
    (handler : option (list byte -> H -> option (list byte) * H))
    (msg : list byte) (rest qs snt : list (list byte)) (st : H) :
  Z.of_nat (List.length msg) <= 4094 ->
  handleTCP_iter handler (mkSession (whole msg :: rest) qs snt st)
  = match handler with
    | None => Again (mkSession rest (qs ++ [msg]) snt st)
    | Some h =>
        match fst (h msg st) with
        | None => Again (mkSession rest (qs ++ [msg]) snt (snd (h msg st)))
        | Some r =>
            Again (mkSession rest (qs ++ [msg]) (snt ++ [lenBuf r; r])
                             (snd (h msg st)))
        end
    end.
Proof.
  intros Hlen. unfold handleTCP_iter, whole, putUint16be.
  cbn [incoming queries sent hstate app].
  set (L := Z.of_nat (List.length msg)) in *.
  assert (Hhdr : forall a b,
            connRead 2 ((a :: b :: msg) :: rest)
            = Some ([a; b], match msg with [] => rest | _ :: _ => msg :: rest end)).
  { intros a b. destruct msg; reflexivity. }
  rewrite Hhdr.
  assert (Hdec : Z.lor (Z.shiftl (byteZ (Zbyte (L / 256))) 8) (byteZ (Zbyte L)) = L).
  { rewrite lor_shiftl_byte by (pose proof (byteZ_range (Zbyte L)); lia).
    rewrite !byteZ_Zbyte.
    pose proof (Z.div_mod L 256 ltac:(lia)) as Hdm.
    assert (0 <= L / 256 < 256).
    { split; [apply Z.div_pos; lia|apply Z.div_lt_upper_bound; lia]. }
    rewrite (Z.mod_small (L / 256)) by lia. lia. }
  rewrite Hdec.
  replace (L >? 4096 - 2) with false
    by (symmetry; rewrite Z.gtb_ltb; apply Z.ltb_ge; lia).
  assert (Hbody : connRead L (match msg with [] => rest | _ :: _ => msg :: rest end)
                  = Some (msg, rest)).
  { unfold connRead. destruct msg as [|x msg'] eqn:Hm.
    - reflexivity.
    - replace (L <=? 0) with false
        by (symmetry; apply Z.leb_gt; unfold L; cbn [List.length]; lia).
      replace (Z.to_nat L) with (List.length (x :: msg')) by (unfold L; lia).
      rewrite firstn_all, skipn_all. reflexivity. }
  rewrite Hbody.
  destruct handler as [h|]; [|reflexivity].
  destruct (h msg st) as [[r|] st']; reflexivity.
Qed.

(** X16.  Frames of at most 4094 bytes that reach the mock server whole,
    one segment each: [handleTCP] records every payload intact and in
    order, answers each query for which the handler has a response with
    that response behind the same two-byte prefix [writeTCP] uses, reads the
    connection to its end and returns. *)
Theorem handleTCP_serves_whole_frames (f : handlerFunc) (msgs : list (list byte)) :
  Forall (fun msg => Z.of_nat (List.length msg) <= 4094) msgs ->
  let s0 := mkSession (map whole msgs) [] [] tt in
  handleTCP (S (pendingBytes s0)) (Some (fun q _ => (f q, tt))) s0
  = Some (mkSession [] msgs (answers f msgs) tt) /\
  (forall resp, [lenBuf resp; resp] = Stream.framed resp).
Proof.
  intros Hall s0. split.
  - assert (Hgen : forall fuel qs snt,
              (List.length msgs < fuel)%nat ->
              handleTCP fuel (Some (fun q (_ : unit) => (f q, tt)))
                (mkSession (map whole msgs) qs snt tt)
              = Some (mkSession [] (qs ++ msgs) (snt ++ answers f msgs) tt)).
    { induction Hall as [|msg msgs Hmsg Hall IH]; intros fuel qs snt Hf.
      - destruct fuel; [lia|]. cbn. now rewrite !app_nil_r.
      - destruct fuel; [cbn in Hf; lia|].
        cbn [handleTCP map]. rewrite iter_whole by exact Hmsg. cbn [fst snd].
        cbn [answers flat_map]. fold (answers f msgs).
        destruct (f msg) as [r|].
        + rewrite IH by (cbn in Hf; lia). now rewrite <- !app_assoc.
        + rewrite IH by (cbn in Hf; lia). now rewrite <- !app_assoc. }
    apply (Hgen _ [] []). unfold s0, pendingBytes. cbn [incoming].
    clear. induction msgs as [|msg msgs IH]; cbn; [lia|].
    rewrite length_app. lia.
  - intros resp. unfold Stream.framed. now rewrite lenBuf_putUint16be.
Qed.

(** X17.  What [handleTCP] makes of frames that do not arrive whole or are
    too long, since it reads with [conn.Read] and into 4096 bytes: a prefix
    that announces more than 4094 bytes ends the connection with nothing
    recorded and nothing answered; a payload of which only a part came with
    the prefix is recorded as that part alone, and the segment that follows
    is left to be read as the next prefix; a segment that holds a single
    byte where a prefix is due ends the connection. *)
Theorem handleTCP_on_partial_and_long_frames (H : Type)
    (handler : option (list byte -> H -> option (list byte) * H))
    (hi lo : byte) (rest qs snt : list (list byte)) (st : H) :
  (forall more,
     4094 < uint16be [hi; lo] ->
     handleTCP_iter handler (mkSession ((hi :: lo :: more) :: rest) qs snt st)
     = Stop (mkSession (match more with [] => rest | _ :: _ => more :: rest end)
                       qs snt st)) /\
  (forall x part seg,
     Z.of_nat (List.length (x :: part)) < uint16be [hi; lo] <= 4094 ->
     exists s',
       handleTCP_iter handler
         (mkSession ((hi :: lo :: x :: part) :: seg :: rest) qs snt st)
       = Again s' /\
       queries s' = qs ++ [x :: part] /\ incoming s' = seg :: rest) /\
  handleTCP_iter handler (mkSession ([hi] :: rest) qs snt st)
  = Stop (mkSession rest qs snt st).
Proof.
  assert (Hhdr : forall more,
            connRead 2 ((hi :: lo :: more) :: rest)
            = Some ([hi; lo],
                    match more with [] => rest | _ :: _ => more :: rest end)).
  { intros more. destruct more; reflexivity. }
  assert (Hdec : Z.lor (Z.shiftl (byteZ hi) 8) (byteZ lo) = uint16be [hi; lo]).
  { rewrite lor_shiftl_byte by (pose proof (byteZ_range lo); lia). reflexivity. }
  split; [|split].
  - intros more Hbig. unfold handleTCP_iter. cbn [incoming queries sent hstate].
    rewrite Hhdr, Hdec.
    replace (uint16be [hi; lo] >? 4096 - 2) with true
      by (symmetry; rewrite Z.gtb_ltb; apply Z.ltb_lt; lia).
    reflexivity.
  - intros x part seg [Hshort Hfits]. unfold handleTCP_iter.
    cbn [incoming queries sent hstate].
    assert (Hhdr' : connRead 2 ((hi :: lo :: x :: part) :: seg :: rest)
                    = Some ([hi; lo], (x :: part) :: seg :: rest)) by reflexivity.
    rewrite Hhdr', Hdec.
    replace (uint16be [hi; lo] >? 4096 - 2) with false
      by (symmetry; rewrite Z.gtb_ltb; apply Z.ltb_ge; lia).
    assert (Hbody : connRead (uint16be [hi; lo]) ((x :: part) :: seg :: rest)
                    = Some (x :: part, seg :: rest)).
    { unfold connRead.
      replace (uint16be [hi; lo] <=? 0) with false
        by (symmetry; apply Z.leb_gt; cbn [List.length] in Hshort; lia).
      rewrite firstn_all2, skipn_all2 by lia. reflexivity. }
    rewrite Hbody.
    destruct handler as [h|]; [destruct (h (x :: part) st) as [[r|] st']|];
      eexists; (split; [reflexivity|]); split; reflexivity.
  - reflexivity.
Qed.

End MockServerFacts.

(** ** The further properties on concrete runs *)

Section MoreRuns.
Import Go BufferPool TCP Demo Stream Accounting.

(** X1 on the example query: written by a goroutine on a fresh
    connection, read back from a stream that starts with what was
    written. *)
Lemma writeTCP_readTCP_round_trip_witness :
  Z.of_nat (List.length exampleQuery) <= 65535 /\
  exists sw',
    alone env (Task 0) 0 (writeTCP exampleQuery) (start []) = Some (None, sw') /\
    wire sw' = framed exampleQuery /\
    exists buf' sr',
      alone env Main 0 (readTCP (make 65536))
        (start (concat (framed exampleQuery) ++ []))
      = Some ((29, None, buf'), sr') /\
      firstn 29 (backing buf') = exampleQuery.
Proof.
  assert (Hlen : Z.of_nat (List.length exampleQuery) <= 65535) by (cbn; lia).
  split; [exact Hlen|].
  destruct (writeTCP_readTCP_round_trip env 0 0 exampleQuery (start []) Hlen)
    as (sw' & Hrun & Hwire & Hread).
  - reflexivity.
  - intros n. reflexivity.
  - exists sw'. split; [exact Hrun|]. split; [exact Hwire|].
    destruct (Hread Main 0%nat (start (concat (framed exampleQuery) ++ []))
                (make 65536) [] None)
      as (buf' & sr' & Hrd & Hpre & _).
    + reflexivity.
    + apply (cap_make 65536). lia.
    + reflexivity.
    + exists buf', sr'. split; assumption.
Defined.

(** X2 on a message of 65536 zero bytes: the prefix announces 0. *)
Lemma writeTCP_truncates_the_length_witness :
  65536 <= Z.of_nat (List.length (repeat x00 (Z.to_nat 65536))) /\
  exists sw',
    alone env (Task 0) 0 (writeTCP (repeat x00 (Z.to_nat 65536))) (start [])
    = Some (None, sw') /\
    Z.of_nat (List.length (repeat x00 (Z.to_nat 65536))) mod 65536 = 0.
Proof.
  assert (Hlen : 65536 <= Z.of_nat (List.length (repeat x00 (Z.to_nat 65536)))).
  { rewrite repeat_length. lia. }
  split; [exact Hlen|].
  destruct (writeTCP_truncates_the_length env 0 0 (repeat x00 (Z.to_nat 65536)) (start [])
              Hlen)
    as (sw' & Hrun & _).
  - reflexivity.
  - intros n. reflexivity.
  - exists sw'. split; [exact Hrun|]. rewrite repeat_length. reflexivity.
Defined.

(** X3 on a peer that closes after the prefix of a 29-byte frame, and on
    one that closes after one byte of a prefix. *)
Lemma turn_on_incomplete_stream_witness :
  incomplete [x00; x1d] /\ incomplete [x00] /\
  (exists s', alone env Main 0 serveTCPConn_iter (start [x00; x1d])
              = Some (Return None, s') /\ tasks s' = []) /\
  (exists s', alone env Main 0 serveTCPConn_iter (start [x00])
              = Some (Return (Some (ErrTCPRead ErrUnexpectedEOF)), s')).
Proof.
  assert (H1 : incomplete [x00; x1d]) by (cbn; lia).
  assert (H2 : incomplete [x00]) by exact I.
  split; [exact H1|]. split; [exact H2|]. split.
  - destruct (turn_on_incomplete_stream env 0 (start [x00; x1d]) [x00; x1d] None)
      as (s' & Hrun & _ & Ht & _); auto.
    + cbn. lia.
    + apply wf_New.
    + exists s'. split; [exact Hrun|exact Ht].
  - destruct (turn_on_incomplete_stream env 0 (start [x00]) [x00] None)
      as (s' & Hrun & _); auto.
    + cbn. lia.
    + apply wf_New.
    + exists s'. exact Hrun.
Defined.

(** X4 on the run that serves the example query. *)
Lemma admission_bound_witness :
  reachable env [] (client exampleFrame) (served env exampleFrame) /\
  (inflight (served env exampleFrame) <= capacity env)%nat /\
  (holding (tasks (served env exampleFrame)) <= capacity env)%nat.
Proof.
  assert (Hreach : reachable env [] (client exampleFrame) (served env exampleFrame)).
  { apply run_served. vm_compute. reflexivity. }
  split; [exact Hreach|].
  destruct (admission_bound env [] _ _ Hreach) as (Hin & Hhold & _).
  split; [exact Hin|exact Hhold].
Defined.



(** X6 on goroutine 0 of the run that serves the example query. *)
Lemma each_query_is_resolved_and_logged_once_witness :
  reachable env [] (client exampleFrame) (served env exampleFrame) /\
  nth_error (tasks (served env exampleFrame)) 0 = Some (mkTask (Ret tt) false false) /\
  count (is_resolve_by (Task 0)) (trace (served env exampleFrame)) = 1%nat /\
  total records (Task 0) (trace (served env exampleFrame)) = 1.
Proof.
  assert (Hreach : reachable env [] (client exampleFrame) (served env exampleFrame)).
  { apply run_served. vm_compute. reflexivity. }
  assert (Ht : nth_error (tasks (served env exampleFrame)) 0
               = Some (mkTask (Ret tt) false false)).
  { vm_compute. reflexivity. }
  split; [exact Hreach|]. split; [exact Ht|].
  apply (each_query_is_resolved_and_logged_once env [] _ _ 0%nat _ Hreach Ht).
  reflexivity.
Defined.

(** X7 on the same run, once [serveTCPConn] has returned. *)
Lemma buffers_and_waitgroup_balance_witness :
  reachable env [] (client exampleFrame) (served env exampleFrame) /\
  returned (served env exampleFrame) = Some None /\
  count is_get (trace (served env exampleFrame))
  = count is_put (trace (served env exampleFrame)) /\
  count is_add (trace (served env exampleFrame))
  = count is_done (trace (served env exampleFrame)).
Proof.
  assert (Hreach : reachable env [] (client exampleFrame) (served env exampleFrame)).
  { apply run_served. vm_compute. reflexivity. }
  assert (Hret : returned (served env exampleFrame) = Some None).
  { vm_compute. reflexivity. }
  split; [exact Hreach|]. split; [exact Hret|].
  apply (buffers_and_waitgroup_balance env [] _ _ None Hreach Hret).
Defined.

(** X9 on a fresh 512-byte buffer and a request for 100 bytes. *)
Lemma Put_then_Get_reuses_witness :
  cap (make 512) = tierCap (tierOf 100) /\
  Get 0 100 (Put (Some (make 512)) NewTieredBufferPool)
  = (make 512, NewTieredBufferPool).
Proof.
  assert (Hcap : cap (make 512) = tierCap (tierOf 100)).
  { apply (cap_make 512). lia. }
  split; [exact Hcap|].
  apply (Put_then_Get_reuses NewTieredBufferPool (make 512) 100 Hcap).
Defined.

(** X10 on a listener that yields a connection, a timeout, a connection,
    then fails for good. *)
Lemma serveTCP_stops_at_the_first_fatal_error_witness :
  Listener.serveTCP
    ([Listener.Conn 1; Listener.Refused (Listener.mkAcceptError "i/o timeout" true);
      Listener.Conn 2]
     ++ Listener.Refused
          (Listener.mkAcceptError "use of closed network connection" false)
        :: [Listener.Conn 3])
  = ([1%nat; 2%nat],
     Some (Listener.mkAcceptError "use of closed network connection" false)).
Proof.
  destruct (serveTCP_stops_at_the_first_fatal_error
              [Listener.Conn 1;
               Listener.Refused (Listener.mkAcceptError "i/o timeout" true);
               Listener.Conn 2]
              [Listener.Conn 3]
              (Listener.mkAcceptError "use of closed network connection" false))
    as [Hrun _].
  - reflexivity.
  - reflexivity.
  - exact Hrun.
Defined.

(** X13 on three latencies. *)
Lemma Average_lies_between_Min_and_Max_witness :
  Testutil.Average (Testutil.mkLatencyMeasurer [3; 5; 10]) = 6 /\
  Testutil.Min (Testutil.mkLatencyMeasurer [3; 5; 10])
  <= Testutil.Average (Testutil.mkLatencyMeasurer [3; 5; 10])
  <= Testutil.Max (Testutil.mkLatencyMeasurer [3; 5; 10]).
Proof.
  destruct (Average_lies_between_Min_and_Max
              (Testutil.mkLatencyMeasurer [3; 5; 10])) as [Havg Hbetween].
  - discriminate.
  - cbn. lia.
  - split; [rewrite Havg; reflexivity|exact Hbetween].
Defined.

(** Without the bound of X13 the sum wraps around: two latencies of
    [2^62] nanoseconds average to [-2^62]. *)
Example Average_wraps_around :
  Testutil.Average (Testutil.mkLatencyMeasurer [2 ^ 62; 2 ^ 62]) = - 2 ^ 62 /\
  Testutil.Min (Testutil.mkLatencyMeasurer [2 ^ 62; 2 ^ 62]) = 2 ^ 62.
Proof. split; reflexivity. Qed.

(** X16 on the example query and on an empty frame, sent to a server that
    echoes what it gets. *)
Lemma handleTCP_serves_whole_frames_witness :
  Testutil.handleTCP 34
    (Some (fun q (_ : unit) => (Some q, tt)))
    (Testutil.mkSession (map Testutil.whole [exampleQuery; []]) [] [] tt)
  = Some (Testutil.mkSession [] [exampleQuery; []]
            [[x00; x1d]; exampleQuery; [x00; x00]; []] tt).
Proof.
  destruct (handleTCP_serves_whole_frames (fun q => Some q) [exampleQuery; []])
    as [Hrun _].
  - repeat constructor; cbn; lia.
  - exact Hrun.
Defined.

End MoreRuns.

(** ** A connection can always finish *)

Section TerminationFacts.
Import Go BufferPool TCP Accounting Schedules.

Variable E : Env.
Hypothesis room : (1 <= capacity E)%nat.

Arguments holding : simpl never.
Arguments living : simpl never.
Arguments Nat.ltb : simpl never.
Arguments GetLarge : simpl never.
Arguments Put : simpl never.
Arguments readFull : simpl never.
Arguments queryTask : simpl never.
Arguments serveTCPConn_iter : simpl never.
Arguments serveTCPConn_exit : simpl never.
Arguments store : simpl never.
















(** *** The stream only gets shorter *)





(** *** A whole turn, seen from the loop and from the scheduler *)






(** *** From any state to the return *)






End TerminationFacts.

Section FinishingRuns.
Import Go BufferPool TCP Demo Schedules.


End FinishingRuns.

(** ** What is returned and what is written *)

Section OutcomeFacts.
Import Go BufferPool TCP Accounting Outcomes.

Variable E : Env.

Arguments GetLarge : simpl never.
Arguments Put : simpl never.
Arguments readFull : simpl never.
Arguments queryTask : simpl never.
Arguments serveTCPConn_iter : simpl never.
Arguments serveTCPConn_exit : simpl never.
Arguments Nat.ltb : simpl never.

Lemma leaves_do (A : Type) (R : A -> Prop) (X : Type) (c : cmd X)
    (k : X -> prog A) :
  leaves R (Do c k) -> forall x, leaves R (k x).
Proof.
  intros H.
  assert (Hnext : forall p : prog A, leaves R p ->
            match p with
            | Do c k => forall x, leaves R (k x)
            | _ => True
            end).
  { intros p Hp. destruct Hp; auto. }
  exact (Hnext _ H).
Qed.

Lemma leaves_ret (A : Type) (R : A -> Prop) (x : A) : leaves R (Ret x) -> R x.
Proof.
  intros H.
  assert (Hnext : forall p : prog A, leaves R p ->
            match p with Ret x => R x | _ => True end).
  { intros p Hp. destruct Hp; auto. }
  exact (Hnext _ H).
Qed.

Lemma serveTCPConn_iter_leaves : leaves turnEnd serveTCPConn_iter.
Proof.
  unfold serveTCPConn_iter, readTCP. cbn.
  apply lv_do. intros _. cbn. apply lv_do. intros buf. cbn.
  apply lv_do. intros [hdr herr]. cbn.
  assert (Hfail : forall (b : slice) (e : error),
            leaves turnEnd
              (call (PoolPut b) ;; call Release ;;
               match e with
               | EOF => Ret (Return None)
               | _ => Ret (Return (Some (ErrTCPRead e)))
               end)).
  { intros b e. cbn. apply lv_do. intros _. cbn. apply lv_do. intros _.
    destruct e; apply lv_ret; cbn;
      first [ left; reflexivity
            | right; left; eexists; split; [reflexivity|discriminate] ]. }
  destruct herr as [e|]; cbn; [apply Hfail|].
  destruct (uint16be hdr >? maxTCPSize); cbn;
    [exact (Hfail buf ErrMessageTooLarge)|].
  destruct (upto buf (uint16be hdr)); cbn; [|apply lv_panic].
  apply lv_do. intros [got e]. cbn.
  destruct e as [e|]; cbn; [apply Hfail|].
  destruct (Z.leb_spec (Z.of_nat (List.length got)) 14) as [Hsmall|Hbig]; cbn.
  - apply lv_do. intros _. cbn. apply lv_do. intros _. apply lv_ret. cbn.
    right; right. eexists. split; [reflexivity|exact Hsmall].
  - apply lv_do. intros _. cbn. apply lv_do. intros _. apply lv_ret. exact I.
Qed.

Lemma serveTCPConn_exit_leaves (ret : option error) :
  ofTheLoop ret -> leaves ofTheLoop (serveTCPConn_exit ret).
Proof.
  intros Hret. unfold serveTCPConn_exit. cbn.
  apply lv_do. intros _. cbn. apply lv_do. intros _. apply lv_ret. exact Hret.
Qed.

Lemma advance_main (A : Type) (a : actor) (ch : nat) (p p' : prog A)
    (s s1 : state) :
  advance E a ch p s = Some (p', s1) -> main s1 = main s.
Proof.
  intros Ha. destruct p as [x|X c k|r]; cbn in Ha.
  - discriminate.
  - destruct (exec E a ch c s) as [[x s2]|] eqn:Hex; [|discriminate].
    inversion Ha; subst. cbn. apply (exec_shape E _ _ _ _ _ _ _ Hex).
  - inversion Ha; subst. reflexivity.
Qed.

Lemma advance_leaves (A : Type) (R : A -> Prop) (a : actor) (ch : nat)
    (p p' : prog A) (s s1 : state) :
  advance E a ch p s = Some (p', s1) -> leaves R p -> leaves R p'.
Proof.
  intros Ha Hp. destruct p as [x|X c k|r]; cbn in Ha.
  - discriminate.
  - destruct (exec E a ch c s) as [[x s2]|]; [|discriminate].
    inversion Ha; subst. apply (leaves_do _ _ _ _ _ Hp).
  - inversion Ha; subst. exact Hp.
Qed.

(** The loop and the return path only ever hold values of the loop's
    own making. *)
Lemma main_leaves_step (m : move) (s s' : state) :
  step E m s = Some s' ->
  match main s with
  | Looping p => leaves turnEnd p
  | Exiting p => leaves ofTheLoop p
  end ->
  match main s' with
  | Looping p => leaves turnEnd p
  | Exiting p => leaves ofTheLoop p
  end.
Proof.
  intros Hst Hm. unfold step in Hst.
  destruct (crashed s); [discriminate|].
  destruct m as [[|i] ch|o].
  - destruct (main s) as [p|p] eqn:Hp.
    + destruct p as [[|e]|X c k|r].
      * inversion Hst; subst. cbn. apply serveTCPConn_iter_leaves.
      * inversion Hst; subst. cbn. apply serveTCPConn_exit_leaves.
        exact (leaves_ret _ _ _ Hm).
      * destruct (advance E Main ch (Do c k) s) as [[p' s1]|] eqn:Ha;
          [|discriminate].
        inversion Hst; subst. cbn. eapply advance_leaves; eauto.
      * destruct (advance E Main ch (Panic r) s) as [[p' s1]|] eqn:Ha;
          [|discriminate].
        inversion Hst; subst. cbn. eapply advance_leaves; eauto.
    + destruct (advance E Main ch p s) as [[p' s1]|] eqn:Ha; [|discriminate].
      inversion Hst; subst. cbn. eapply advance_leaves; eauto.
  - destruct (nth_error (tasks s) i) as [t|]; [|discriminate].
    destruct (advance E (Task i) ch (tcode t) s) as [[p' s1]|] eqn:Ha;
      [|discriminate].
    inversion Hst; subst. cbn [main set_tasks].
    rewrite (advance_main _ _ _ _ _ _ _ Ha). exact Hm.
  - inversion Hst; subst. exact Hm.
Qed.

Lemma main_leaves_run (ms : list move) (s0 s : state) :
  run E ms s0 = Some s ->
  match main s0 with
  | Looping p => leaves turnEnd p
  | Exiting p => leaves ofTheLoop p
  end ->
  match main s with
  | Looping p => leaves turnEnd p
  | Exiting p => leaves ofTheLoop p
  end.
Proof.
  revert s0. induction ms as [|m ms IH]; intros s0 Hrun H0; cbn in Hrun.
  - inversion Hrun; subst. exact H0.
  - destruct (step E m s0) as [s1|] eqn:Hst; [|discriminate].
    apply (IH s1); [exact Hrun|eapply main_leaves_step; eauto].
Qed.

(** X19.  Whatever happens in the query goroutines, [serveTCPConn] only
    ever returns nil, a "TCP read" error (never for [io.EOF]) or a "query
    too small" error for a size of at most 14: an error or a panic of
    [Resolve], a parse error and a failed write are logged by the goroutine
    and never become the return value. *)
Theorem serveTCPConn_returns_only_its_own_errors (ops : list op) (r : Reader)
    (s : state) (ret : option error) :
  reachable E ops r s ->
  returned s = Some ret ->
  ofTheLoop ret.
Proof.
  intros [ms Hrun] Hret.
  pose proof (main_leaves_run ms _ _ Hrun serveTCPConn_iter_leaves) as Hinv.
  unfold returned in Hret. destruct (main s) as [p|p]; [discriminate|].
  destruct p; try discriminate. inversion Hret; subst.
  exact (leaves_ret _ _ _ Hinv).
Qed.

(** *** The writes of each goroutine *)

Lemma writesBy_cons (b a : actor) (X : Type) (c : cmd X) (x : X)
    (tr : list event) :
  writesBy b (Ev a c x :: tr)
  = if actor_eqb b a then writesBy b tr ++ wrote c x else writesBy b tr.
Proof.
  destruct c; cbn; destruct (actor_eqb b a); rewrite ?app_nil_r; reflexivity.
Qed.

Section Writes.

Variable P : list written -> Prop.
Hypothesis task_writes : forall buf qsize, writesTo P [] (queryTask E buf qsize).

Lemma writesTo_do (ws : list written) (X : Type) (c : cmd X)
    (k : X -> prog unit) :
  writesTo P ws (Do c k) -> forall x, writesTo P (ws ++ wrote c x) (k x).
Proof.
  intros H.
  assert (Hnext : forall p, writesTo P ws p ->
            match p with
            | Do c k => forall x, writesTo P (ws ++ wrote c x) (k x)
            | _ => True
            end).
  { intros p Hp. destruct Hp; auto. }
  exact (Hnext _ H).
Qed.

Lemma writesTo_ret (ws : list written) (x : unit) :
  writesTo P ws (Ret x) -> P ws.
Proof.
  intros H.
  assert (Hnext : forall p, writesTo P ws p ->
            match p with Ret _ => P ws | _ => True end).
  { intros p Hp. destruct Hp; auto. }
  exact (Hnext _ H).
Qed.

(** One operation of goroutine [a], as seen in the writes. *)
Lemma advance_writes (A : Type) (a : actor) (ch : nat) (p p' : prog A)
    (s s1 : state) :
  advance E a ch p s = Some (p', s1) ->
  exists d new,
    (forall b, writesBy b (trace s1)
               = if actor_eqb b a then writesBy b (trace s) ++ d
                 else writesBy b (trace s)) /\
    tasks s1 = tasks s ++ new /\
    Forall (fun t => writesTo P [] (tcode t)) new /\
    match p with
    | Do c k => exists x, p' = k x /\ d = wrote c x
    | _ => p' = p /\ d = []
    end.
Proof.
  intros Ha. destruct p as [x|X c k|r]; cbn in Ha.
  - discriminate.
  - destruct (exec E a ch c s) as [[x s2]|] eqn:Hex; [|discriminate].
    inversion Ha; subst.
    destruct (exec_shape E _ _ _ _ _ _ _ Hex) as (Htr & Hm & Hts).
    exists (wrote c x), (spawnOf E c).
    split; [intros b; cbn [trace emit]; rewrite Htr; apply writesBy_cons|].
    split; [exact Hts|]. split; [|eauto].
    destruct c; cbn; try (constructor; fail).
    constructor; [apply task_writes|constructor].
  - inversion Ha; subst. exists [], [].
    split; [intros b; cbn; destruct (actor_eqb b a); now rewrite ?app_nil_r|].
    split; [cbn; now rewrite app_nil_r|]. split; [constructor|auto].
Qed.

Lemma Written_step (m : move) (s s' : state) :
  Written P s -> step E m s = Some s' -> Written P s'.
Proof.
  intros [Hts Hfr] Hst. unfold step in Hst.
  destruct (crashed s); [discriminate|].
  assert (Hmain : forall (A : Type) (ch : nat) (p p' : prog A) s1 m',
            advance E Main ch p s = Some (p', s1) ->
            Written P (set_main m' s1)).
  { intros A ch p p' s1 m' Ha.
    destruct (advance_writes _ _ _ _ _ _ _ Ha) as (d & new & Hw & Hnew & Hall & _).
    split; cbn [tasks trace set_main].
    - intros i t Hi. rewrite Hnew in Hi. rewrite Hw. cbn [actor_eqb].
      destruct (nth_error_new _ _ _ _ _ Hi Hall) as [Hold|[Hge Ht]].
      + apply Hts. exact Hold.
      + rewrite (Hfr i Hge). exact Ht.
    - intros i Hi. rewrite Hnew, length_app in Hi. rewrite Hw. cbn [actor_eqb].
      apply Hfr. lia. }
  destruct m as [[|i] ch|o].
  - destruct (main s) as [p|p] eqn:Hp.
    + destruct p as [[|e]|X c k|r].
      * inversion Hst; subst. split; assumption.
      * inversion Hst; subst. split; assumption.
      * destruct (advance E Main ch (Do c k) s) as [[p' s1]|] eqn:Ha;
          [|discriminate].
        inversion Hst; subst. eapply Hmain; eauto.
      * destruct (advance E Main ch (Panic r) s) as [[p' s1]|] eqn:Ha;
          [|discriminate].
        inversion Hst; subst. eapply Hmain; eauto.
    + destruct (advance E Main ch p s) as [[p' s1]|] eqn:Ha; [|discriminate].
      inversion Hst; subst. eapply Hmain; eauto.
  - destruct (nth_error (tasks s) i) as [t|] eqn:Hi; [|discriminate].
    destruct (advance E (Task i) ch (tcode t) s) as [[p' s1]|] eqn:Ha;
      [|discriminate].
    inversion Hst; subst. clear Hst.
    destruct (advance_writes _ _ _ _ _ _ _ Ha) as (d & new & Hw & Hnew & Hall & Hp').
    assert (Hlt : (i < List.length (tasks s))%nat).
    { apply nth_error_Some. congruence. }
    assert (Hmine : writesTo P (writesBy (Task i) (trace s) ++ d) p').
    { specialize (Hts i t Hi). destruct (tcode t) as [x|X c k|r].
      - destruct Hp' as [-> ->]. now rewrite app_nil_r.
      - destruct Hp' as (x & -> & ->). apply writesTo_do. exact Hts.
      - destruct Hp' as [-> ->]. apply wt_panic. }
    split; cbn [tasks trace set_tasks].
    + intros j t' Hj. rewrite Hw. destruct (Nat.eq_dec i j) as [<-|Hne].
      * rewrite (nth_error_update_eq i t) in Hj
          by (rewrite Hnew, nth_error_app1; assumption).
        inversion Hj; subst. cbn [tcode moved actor_eqb].
        rewrite Nat.eqb_refl. exact Hmine.
      * rewrite nth_error_update_neq in Hj by exact Hne.
        rewrite Hnew in Hj.
        replace (actor_eqb (Task j) (Task i)) with false
          by (symmetry; cbn; apply Nat.eqb_neq; congruence).
        destruct (nth_error_new _ _ _ _ _ Hj Hall) as [Hold|[Hge Ht]].
        -- apply Hts. exact Hold.
        -- rewrite (Hfr j Hge). exact Ht.
    + intros j Hj. rewrite update_length, Hnew, length_app in Hj. rewrite Hw.
      replace (actor_eqb (Task j) (Task i)) with false
        by (symmetry; cbn; apply Nat.eqb_neq; lia).
      apply Hfr. lia.
  - inversion Hst; subst. split; assumption.
Qed.

Lemma Written_run (ms : list move) (s0 s : state) :
  Written P s0 -> run E ms s0 = Some s -> Written P s.
Proof.
  revert s0. induction ms as [|m ms IH]; intros s0 H0 Hr; cbn in Hr.
  - inversion Hr; subst. exact H0.
  - destruct (step E m s0) as [s1|] eqn:Hst; [|discriminate].
    apply (IH s1); [eapply Written_step; eauto|exact Hr].
Qed.

Lemma Written_reachable (ops : list op) (r : Reader) (s : state) :
  reachable E ops r s -> Written P s.
Proof.
  intros [ms Hrun]. apply (Written_run ms _ _) in Hrun; [exact Hrun|].
  split; cbn; [intros [|i] t Hi; discriminate|reflexivity].
Qed.

End Writes.

Arguments deferred : simpl never.
Arguments answer : simpl never.
Arguments store : simpl never.

Lemma sizedResponse_one (ws : list written) :
  sizedResponse E ws -> oneResponse ws.
Proof.
  intros [Hnil|(body & Hws & _)]; [left; exact Hnil|].
  right. exists body. exact Hws.
Qed.

(** The bytes seen through [b[:n]] are [n] bytes. *)
Lemma bytes_upto_length (b w : slice) (n : Z) :
  upto b n = Some w -> Z.of_nat (List.length (bytes w)) = n.
Proof.
  unfold upto.
  destruct (0 <=? n) eqn:H0; [|discriminate].
  destruct (n <=? cap b) eqn:H1; [|discriminate].
  cbn. intros [= <-]. unfold bytes. cbn [len backing].
  apply Z.leb_le in H0. apply Z.leb_le in H1. unfold cap in H1.
  rewrite length_firstn. lia.
Qed.

(** The size of the answer lines 110-112 choose. *)
Lemma answer_size (q : Query) (rbuf rbuf' : slice) (rsize rsize' : Z)
    (err : option error) (data : list byte) :
  answer E q rbuf rsize err data = (rsize', rbuf') ->
  1 <= rsize' <= maxTCPSize \/ servfailSize E rsize'.
Proof.
  unfold answer.
  destruct (isSome err || (rsize <=? 0) || (rsize >? maxTCPSize)) eqn:Hbad.
  - destruct (replyRCode E RCodeServerFailure q (store rbuf data)) as [n d] eqn:Hn.
    intros [= <- _]. right. exists q, (store rbuf data). now rewrite Hn.
  - intros [= <- _]. left.
    apply orb_false_iff in Hbad. destruct Hbad as [Hbad Hhi].
    apply orb_false_iff in Hbad. destruct Hbad as [_ Hlo].
    apply Z.leb_gt in Hlo. rewrite Z.gtb_ltb in Hhi. apply Z.ltb_ge in Hhi.
    lia.
Qed.

Lemma queryTask_writes (buf : slice) (qsize : Z) :
  writesTo (sizedResponse E) [] (queryTask E buf qsize).
Proof.
  assert (Hdeferred : forall ws recovered b rb q qs rs ri err,
            sizedResponse E ws ->
            writesTo (sizedResponse E) ws
              (deferred E recovered b rb q qs rs ri err ;; call WgDone)).
  { intros ws recovered b rb q qs rs ri err Hws. unfold deferred.
    destruct recovered; cbn;
      repeat (apply wt_do; intros ?; cbn; rewrite ?app_nil_r);
      apply wt_ret; exact Hws. }
  unfold queryTask. destruct (upto buf qsize) as [payload|]; cbn.
  2:{ apply wt_do. intros ?. cbn. apply wt_panic. }
  destruct (queryNew E (bytes payload) (remoteIP E) (localIP E)) as [q perr].
  assert (Hrest : writesTo (sizedResponse E) []
            (rbuf <- call PoolGetLarge ;;
             out <- call (CallResolve q rbuf) ;;
             respond E buf rbuf q qsize perr out ;; call WgDone)).
  { cbn. apply wt_do. intros rbuf. cbn. apply wt_do. intros out. cbn.
    unfold respond. destruct out as [rsize ri err data|r].
    - destruct (answer E q rbuf rsize err data) as [rsize' rbuf'] eqn:Hans.
      pose proof (answer_size _ _ _ _ _ _ _ Hans) as Hsize.
      destruct (upto rbuf' rsize') as [reply|] eqn:Hup.
      + rewrite <- (bytes_upto_length _ _ _ Hup) in Hsize.
        unfold writeTCP. cbn. apply wt_do. intros w1. cbn.
        destruct w1 as [e|]; cbn.
        * apply Hdeferred. right. exists (bytes reply).
          split; [left; eauto|exact Hsize].
        * apply wt_do. intros w2. cbn. apply Hdeferred.
          right. exists (bytes reply). split; [right; eauto|exact Hsize].
      + apply Hdeferred. left. reflexivity.
    - apply Hdeferred. left. reflexivity. }
  destruct perr as [e|]; cbn.
  - apply wt_do. intros ?. cbn. exact Hrest.
  - exact Hrest.
Qed.

(** X20.  Each query goroutine that has run to its end, in any state the
    connection can reach under any schedule, has made the writes of at most
    one response: no write at all (as when the resolver panicked), the
    two-byte length prefix alone when that write failed, or the prefix
    followed by one message.  It never writes a message without its prefix, and never a
    second response.  The prefix is [uint16(len(message))]: for a message
    of at most 65535 bytes it announces exactly the length of the message
    that follows; a longer message can only be a SERVFAIL answer for which
    [replyRCode] returned a size above 65535 (a size the code does not check
    before it slices [rbuf] with it), and then the prefix carries that
    length modulo 65536. *)
Theorem each_query_writes_one_response (ops : list op) (r : Reader)
    (s : state) (i : nat) (t : task) :
  reachable E ops r s ->
  nth_error (tasks s) i = Some t ->
  finished t = true ->
  oneResponse (writesBy (Task i) (trace s)) /\
  forall prefix body res,
    writesBy (Task i) (trace s) = [(prefix, None); (body, res)] ->
    (Z.of_nat (List.length body) <= 65535 /\
     uint16be prefix = Z.of_nat (List.length body)) \/
    (65535 < Z.of_nat (List.length body) /\
     uint16be prefix = Z.of_nat (List.length body) mod 65536 /\
     servfailSize E (Z.of_nat (List.length body))).
Proof.
  intros Hreach Hi Hfin.
  pose proof (Written_reachable (sizedResponse E) queryTask_writes ops r s
                Hreach) as [Hts _].
  specialize (Hts i t Hi). unfold finished in Hfin.
  destruct (tcode t); try discriminate.
  pose proof (writesTo_ret _ _ _ Hts) as Hws.
  split; [apply sizedResponse_one; exact Hws|].
  intros prefix body res Hw.
  destruct Hws as [Hnil|(body' & [[e He]|[r' Hr']] & Hsize)].
  - rewrite Hnil in Hw. discriminate.
  - rewrite He in Hw. discriminate.
  - rewrite Hr' in Hw. injection Hw as <- <- _.
    pose proof (uint16be_putUint16be
                  (uint16 (Z.of_nat (List.length body')))) as Hpre.
    rewrite uint16_idem in Hpre.
    destruct (Z.le_gt_cases (Z.of_nat (List.length body')) 65535) as [Hle|Hgt].
    + left. split; [exact Hle|]. rewrite Hpre. apply uint16_small. lia.
    + right. split; [lia|]. split; [exact Hpre|].
      destruct Hsize as [Hsmall|Hfail]; [|exact Hfail].
      unfold maxTCPSize in Hsmall. lia.
Qed.

End OutcomeFacts.

Section OutcomeRuns.
Import Go BufferPool TCP Demo Outcomes.

(** X19 on the run that serves the example query and sees the client
    close. *)
Lemma serveTCPConn_returns_only_its_own_errors_witness :
  reachable env [] (client exampleFrame) (served env exampleFrame) /\
  returned (served env exampleFrame) = Some None /\
  ofTheLoop None.
Proof.
  assert (Hreach : reachable env [] (client exampleFrame) (served env exampleFrame)).
  { apply run_served. vm_compute. reflexivity. }
  assert (Hret : returned (served env exampleFrame) = Some None).
  { vm_compute. reflexivity. }
  split; [exact Hreach|]. split; [exact Hret|].
  exact (serveTCPConn_returns_only_its_own_errors env [] _ _ None Hreach Hret).
Defined.

(** X20 on goroutine 0 of the same run: the prefix for 12 bytes, then the
    12 bytes. *)
Lemma each_query_writes_one_response_witness :
  reachable env [] (client exampleFrame) (served env exampleFrame) /\
  nth_error (tasks (served env exampleFrame)) 0 = Some (mkTask (Ret tt) false false) /\
  writesBy (Task 0) (trace (served env exampleFrame))
  = [([x00; x0c], None); (twelveZeros, None)] /\
  oneResponse (writesBy (Task 0) (trace (served env exampleFrame))) /\
  uint16be [x00; x0c] = Z.of_nat (List.length twelveZeros).
Proof.
  assert (Hreach : reachable env [] (client exampleFrame) (served env exampleFrame)).
  { apply run_served. vm_compute. reflexivity. }
  assert (Ht : nth_error (tasks (served env exampleFrame)) 0
               = Some (mkTask (Ret tt) false false)).
  { vm_compute. reflexivity. }
  assert (Hws : writesBy (Task 0) (trace (served env exampleFrame))
                = [([x00; x0c], None); (twelveZeros, None)]).
  { vm_compute. reflexivity. }
  split; [exact Hreach|]. split; [exact Ht|]. split; [exact Hws|].
  destruct (each_query_writes_one_response env [] _ _ 0%nat _ Hreach Ht eq_refl)
    as [Hone Hsize].
  split; [exact Hone|].
  destruct (Hsize [x00; x0c] twelveZeros None Hws) as [[_ Hexact]|[Hbig _]].
  - exact Hexact.
  - cbn in Hbig. lia.
Defined.

End OutcomeRuns.

(** ** Every accepted frame is resolved, once and as it came *)

Section DispatchFacts.
Import Go BufferPool TCP Accounting Stream Dispatch.

Variable E : Env.

Arguments GetLarge : simpl never.
Arguments Put : simpl never.
Arguments readFull : simpl never.
Arguments queryTask : simpl never.
Arguments serveTCPConn_iter : simpl never.
Arguments serveTCPConn_exit : simpl never.
Arguments Nat.ltb : simpl never.
Arguments store : simpl never.
Arguments deferred : simpl never.
Arguments answer : simpl never.
Arguments accepted : simpl never.

Lemma acceptedN_frame (fuel : nat) (hi lo : byte) (body : list byte) :
  acceptedN (S fuel) (hi :: lo :: body)
  = if (Z.of_nat (List.length body) <? uint16be [hi; lo])
       || (uint16be [hi; lo] <=? 14)
    then []
    else firstn (Z.to_nat (uint16be [hi; lo])) body
         :: acceptedN fuel (skipn (Z.to_nat (uint16be [hi; lo])) body).
Proof. reflexivity. Qed.

Lemma acceptedN_fuel (f1 f2 : nat) (p : list byte) :
  (List.length p <= f1)%nat -> (List.length p <= f2)%nat ->
  acceptedN f1 p = acceptedN f2 p.
Proof.
  revert f2 p. induction f1 as [|f1 IH]; intros f2 p H1 H2.
  - destruct p; [|cbn in H1; lia]. destruct f2; reflexivity.
  - destruct f2 as [|f2].
    + destruct p; [reflexivity|cbn in H2; lia].
    + destruct p as [|hi [|lo body]]; try reflexivity.
      rewrite !acceptedN_frame. destruct (_ || _); [reflexivity|].
      f_equal. cbn [List.length] in H1, H2.
      apply IH; rewrite length_skipn; lia.
Qed.

Lemma accepted_frame (hi lo : byte) (body : list byte) :
  accepted (hi :: lo :: body)
  = if (Z.of_nat (List.length body) <? uint16be [hi; lo])
       || (uint16be [hi; lo] <=? 14)
    then []
    else firstn (Z.to_nat (uint16be [hi; lo])) body
         :: accepted (skipn (Z.to_nat (uint16be [hi; lo])) body).
Proof.
  unfold accepted. cbn [List.length]. rewrite acceptedN_frame.
  destruct (_ || _); [reflexivity|]. f_equal.
  apply acceptedN_fuel; rewrite length_skipn; lia.
Qed.

Lemma accepted_short (q : list byte) :
  (List.length q < 2)%nat -> accepted q = [].
Proof.
  destruct q as [|hi [|lo body]]; cbn [List.length]; intros H;
    try reflexivity. lia.
Qed.

Lemma covers_giveback (fin : option string) (all done : list (list byte))
    (q : list byte) (b : slice) (f : flow) :
  covers fin all done q (Ret f) ->
  covers fin all done q (call (PoolPut b) ;; call Release ;; Ret f).
Proof.
  intros Hf. cbn. apply cv_do; [reflexivity|]. intros _ _. cbn.
  apply cv_do; [reflexivity|]. intros _ _. exact Hf.
Qed.

Lemma covers_fail (fin : option string) (all : list (list byte))
    (q : list byte) (b : slice) (e : error) :
  covers fin all all q
    (call (PoolPut b) ;; call Release ;;
     match e with
     | EOF => Ret (Return None)
     | _ => Ret (Return (Some (ErrTCPRead e)))
     end).
Proof.
  destruct e; apply covers_giveback; apply cv_return; reflexivity.
Qed.

(** A turn started on the stream [q] covers the frames accepted from
    [q]. *)
Lemma covers_iter (fin : option string) (done : list (list byte))
    (q : list byte) :
  covers fin (done ++ accepted q) done q serveTCPConn_iter.
Proof.
  unfold serveTCPConn_iter, readTCP. cbn.
  apply cv_do; [reflexivity|]. intros _ _. cbn.
  apply cv_do; [reflexivity|]. intros buf Hcap. cbn in Hcap. cbn.
  apply cv_read.
  destruct q as [|hi [|lo body]].
  - (* no byte *)
    rewrite readFull_short by (cbn; lia). cbn.
    rewrite accepted_short, app_nil_r by (cbn; lia). apply covers_fail.
  - (* one byte *)
    rewrite readFull_short by (cbn; lia). cbn.
    rewrite accepted_short, app_nil_r by (cbn; lia). apply covers_fail.
  - (* a prefix *)
    change (readFull 2 (mkReader (hi :: lo :: body) fin))
      with (([hi; lo], @None error), mkReader body fin).
    cbn [fst snd pending].
    pose proof (uint16be_range [hi; lo]) as Hrange.
    remember (uint16be [hi; lo]) as n eqn:Hn.
    replace (n >? maxTCPSize) with false
      by (symmetry; rewrite Z.gtb_ltb; apply Z.ltb_ge; unfold maxTCPSize; lia).
    rewrite upto_in_range by lia. cbn.
    apply cv_read. rewrite accepted_frame, <- Hn.
    destruct (Z.ltb_spec (Z.of_nat (List.length body)) n) as [Hshort|Hfull].
    + (* too short a payload *)
      rewrite readFull_short by lia. cbn. rewrite app_nil_r.
      exact (covers_fail fin done [] (store buf body) (streamError body fin)).
    + assert (Hbody : readFull n (mkReader body fin)
                      = ((firstn (Z.to_nat n) body, None),
                         mkReader (skipn (Z.to_nat n) body) fin)).
      { rewrite <- (firstn_skipn (Z.to_nat n) body) at 1.
        apply readFull_exact. rewrite length_firstn. lia. }
      rewrite Hbody. cbn [fst snd pending orb].
      replace (Z.of_nat (List.length (firstn (Z.to_nat n) body))) with n
        by (rewrite length_firstn; lia).
      destruct (Z.leb_spec n 14) as [Hsmall|Hbig].
      * rewrite app_nil_r. apply covers_giveback. apply cv_return. reflexivity.
      * cbn. apply cv_do; [reflexivity|]. intros _ _. cbn. apply cv_spawn.
        apply cv_continue. rewrite <- app_assoc. cbn [app]. do 2 f_equal.
        unfold payloadOf. cbn [fst snd].
        rewrite upto_in_range by (rewrite cap_store; lia).
        unfold bytes. cbn [len backing].
        assert (Hlen : Z.to_nat n = List.length (firstn (Z.to_nat n) body))
          by (rewrite length_firstn; lia).
        rewrite Hlen at 1. apply store_prefix.
        rewrite length_firstn. lia.
Qed.

(** *** The loop against the stream, step by step *)

Lemma covers_inv (fin : option string) (all done : list (list byte))
    (q : list byte) (p : prog flow) :
  covers fin all done q p ->
  match p with
  | Ret Continue => done ++ accepted q = all
  | Ret (Return _) => done = all
  | Panic _ => False
  | Do c k =>
      (match c in cmd X return (X -> prog flow) -> Prop with
       | ReadFull n => fun k =>
           covers fin all done (pending (snd (readFull n (mkReader q fin))))
                  (k (fst (readFull n (mkReader q fin))))
       | Spawn buf qsize => fun k =>
           covers fin all (done ++ [payloadOf (buf, qsize)]) q (k tt)
       | Acquire | Release | PoolGetLarge | PoolPut _ | WgAdd => fun _ => True
       | _ => fun _ => False
       end) k /\
      (quiet c = true -> forall x, post c x -> covers fin all done q (k x))
  end.
Proof.
  intros H. destruct H as [done q Hc|done q e Hr|done q n k Hk
                           |done q buf qsize k Hk|done q X c k Hq Hk].
  - exact Hc.
  - exact Hr.
  - split; [exact Hk|discriminate].
  - split; [exact Hk|discriminate].
  - split; [|intros _; exact Hk].
    destruct c; cbn in Hq; try discriminate; exact I.
Qed.

Lemma covers_prefix (fin : option string) (all done : list (list byte))
    (q : list byte) (p : prog flow) :
  covers fin all done q p -> exists rest, done ++ rest = all.
Proof.
  induction 1 as [done q Hc|done q e Hr|done q n k Hk IH
                  |done q buf qsize k Hk IH|done q X c k Hq Hk IH].
  - eauto.
  - exists []. now rewrite app_nil_r.
  - exact IH.
  - destruct IH as [rest Hrest]. rewrite <- app_assoc in Hrest. eauto.
  - destruct c; cbn in Hq; try discriminate;
      try (apply (IH tt); exact I).
    apply (IH (make 65536)). apply (cap_make 65536). lia.
Qed.

Lemma spawned_cons (a : actor) (X : Type) (c : cmd X) (x : X) (tr : list event) :
  spawned (Ev a c x :: tr)
  = spawned tr ++ match c with Spawn buf qsize => [(buf, qsize)] | _ => [] end.
Proof. destruct c; cbn; rewrite ?app_nil_r; reflexivity. Qed.

(** What the first operation of a query goroutine, and of the return
    path, leaves alone. *)
Lemma task_ok_quiet (h d : bool) (p : prog unit) :
  task_ok h d p ->
  match p with
  | Do c k =>
      forall a ch s x s1, exec E a ch c s = Some (x, s1) ->
        rd s1 = rd s /\ forall tr, spawned (Ev a c x :: tr) = spawned tr
  | _ => True
  end.
Proof.
  intros H. destruct H as [ | k Hk | k Hk | h X c k Hc Hk]; try exact I.
  - intros a ch s x s1 Hex. cbn in Hex. destruct (inflight s); [discriminate|].
    inversion Hex; subst. split; reflexivity.
  - intros a ch s x s1 Hex. cbn in Hex.
    destruct (wg s); inversion Hex; subst; split; reflexivity.
  - intros a ch s x s1 Hex. destruct c; cbn in Hc; try discriminate;
      cbn in Hex;
      repeat match type of Hex with
             | context [match ?d with _ => _ end] => destruct d
             end;
      inversion Hex; subst; split; reflexivity.
Qed.

Lemma exit_ok_quiet (st : nat) (p : prog (option error)) :
  exit_ok st p ->
  match p with
  | Do c k =>
      forall a ch s x s1, exec E a ch c s = Some (x, s1) ->
        final (rd s1) = final (rd s) /\
        forall tr, spawned (Ev a c x :: tr) = spawned tr
  | _ => True
  end.
Proof.
  intros H. destruct H as [k Hk|k Hk|e]; try exact I.
  - intros a ch s x s1 Hex. cbn in Hex. destruct (wg s); [|discriminate].
    inversion Hex; subst. split; reflexivity.
  - intros a ch s x s1 Hex. cbn in Hex. inversion Hex; subst. split; reflexivity.
Qed.

Lemma quiet_exec (a : actor) (ch : nat) (X : Type) (c : cmd X) (x : X)
    (s s1 : state) :
  quiet c = true -> exec E a ch c s = Some (x, s1) ->
  rd s1 = rd s /\ forall tr, spawned (Ev a c x :: tr) = spawned tr.
Proof.
  intros Hq Hex. destruct c; cbn in Hq; try discriminate; cbn in Hex;
    repeat match type of Hex with
           | context [match ?d with _ => _ end] => destruct d
           end;
    inversion Hex; subst; split; reflexivity.
Qed.

Lemma readFull_final (n : Z) (r : Reader) :
  final (snd (readFull n r)) = final r.
Proof.
  unfold readFull. destruct (_ <=? _)%nat; [reflexivity|].
  destruct (firstn _ _); reflexivity.
Qed.

(** The invariant holds along every schedule. *)
Lemma Covered_step (fin : option string) (all : list (list byte)) (m : move)
    (s s' : state) :
  Inv E s -> Covered fin all s -> step E m s = Some s' -> Covered fin all s'.
Proof.
  intros HI [Hfin0 Hm] Hst. unfold step in Hst.
  assert (Hfin : final (rd s) = fin /\ True) by (split; [exact Hfin0|exact I]).
  clear Hfin0.
  rewrite (inv_alive E s HI) in Hst.
  destruct m as [[|i] ch|o].
  - (* the loop *)
    pose proof (inv_main E s HI) as Hmain.
    destruct (main s) as [p|p] eqn:Hp.
    + destruct Hmain as (h & a & _ & _ & _ & Hopen).
      apply covers_inv in Hm.
      destruct p as [[|e]|X c k|r].
      * injection Hst as <-. split; [exact (proj1 Hfin)|]. cbn.
        rewrite <- Hm. apply covers_iter.
      * injection Hst as <-. split; [exact (proj1 Hfin)|]. exact Hm.
      * cbn [advance] in Hst.
        destruct (exec E Main ch c s) as [[x s1]|] eqn:Hex; [|discriminate].
        injection Hst as <-. destruct Hm as [Hspecial Hquiet].
        destruct (exec_shape E _ _ _ _ _ _ _ Hex) as (Htr & _ & _).
        destruct (quiet c) eqn:Hq.
        -- destruct (quiet_exec _ _ _ _ _ _ _ Hq Hex) as [Hrd Hsp].
           split; cbn [rd main trace set_main emit]; rewrite Hrd;
             [exact (proj1 Hfin)|].
           unfold started in *. rewrite Htr, Hsp.
           apply Hquiet; [reflexivity|].
           eapply exec_post; [exact (inv_pool E s HI)|exact Hex].
        -- destruct c; cbn in Hq; try discriminate; try (destruct Hspecial; fail).
           ++ (* ReadFull *)
              cbn in Hex. rewrite Hopen in Hex. destruct Hfin as [Hfin _].
              destruct (rd s) as [q f] eqn:Hrd. cbn [final pending] in *. subst f.
              pose proof (readFull_final n (mkReader q fin)) as Hf.
              destruct (readFull n (mkReader q fin)) as [res rd'].
              injection Hex as <- <-.
              split; cbn [rd main trace set_main emit set_rd fst snd] in *;
                [exact Hf|].
              exact Hspecial.
           ++ (* Spawn *)
              cbn in Hex. injection Hex as <- <-.
              split; cbn [rd main trace set_main emit set_tasks];
                [exact (proj1 Hfin)|].
              unfold started in *. cbn [spawned]. rewrite map_app. exact Hspecial.
      * destruct Hm.
    + destruct Hmain as (st & Hok & _).
      destruct (advance E Main ch p s) as [[p' s1]|] eqn:Ha; [|discriminate].
      injection Hst as <-. apply exit_ok_quiet in Hok.
      destruct p as [ret|X c k|r]; cbn [advance] in Ha.
      * discriminate.
      * destruct (exec E Main ch c s) as [[x s2]|] eqn:Hex; [|discriminate].
        injection Ha as <- <-.
        destruct (Hok _ _ _ _ _ Hex) as [Hf Hsp].
        destruct (exec_shape E _ _ _ _ _ _ _ Hex) as (Htr & _ & _).
        split; cbn [rd main trace set_main emit].
        -- rewrite Hf. exact (proj1 Hfin).
        -- unfold started in *. rewrite Htr, Hsp. exact Hm.
      * injection Ha as <- <-. split; [exact (proj1 Hfin)|exact Hm].
  - (* a query goroutine *)
    destruct (nth_error (tasks s) i) as [t|] eqn:Hi; [|discriminate].
    destruct (advance E (Task i) ch (tcode t) s) as [[p' s1]|] eqn:Ha;
      [|discriminate].
    injection Hst as <-.
    pose proof (inv_tasks E s HI) as Hok. rewrite Forall_forall in Hok.
    specialize (Hok t (nth_error_In _ _ Hi)). apply task_ok_quiet in Hok.
    destruct (tcode t) as [x|X c k|r]; cbn [advance] in Ha.
    + discriminate.
    + destruct (exec E (Task i) ch c s) as [[x s2]|] eqn:Hex; [|discriminate].
      injection Ha as <- <-.
      destruct (Hok _ _ _ _ _ Hex) as [Hrd Hsp].
      destruct (exec_shape E _ _ _ _ _ _ _ Hex) as (Htr & Hmn & _).
      split; cbn [rd main trace set_tasks emit]; rewrite Hrd; [exact (proj1 Hfin)|].
      rewrite Hmn. unfold started in *. rewrite Htr, Hsp. exact Hm.
    + injection Ha as <- <-. split; [exact (proj1 Hfin)|exact Hm].
  - injection Hst as <-. split; [exact (proj1 Hfin)|exact Hm].
Qed.

Lemma Covered_run (fin : option string) (all : list (list byte))
    (ms : list move) (s s' : state) :
  Inv E s -> Covered fin all s -> run E ms s = Some s' -> Covered fin all s'.
Proof.
  revert s. induction ms as [|m ms IH]; intros s HI HC Hrun; cbn in Hrun.
  - inversion Hrun; subst. exact HC.
  - destruct (step E m s) as [s1|] eqn:Hst; [|discriminate].
    apply (IH s1); [eapply Inv_step; eauto|eapply Covered_step; eauto|exact Hrun].
Qed.

Lemma Covered_reachable (ops : list op) (q : list byte) (fin : option string)
    (s : state) :
  reachable E ops (mkReader q fin) s -> Covered fin (accepted q) s.
Proof.
  intros [ms Hrun].
  apply (Covered_run fin (accepted q) ms _ _ (Inv_init E ops _)) in Hrun;
    [exact Hrun|].
  split; [reflexivity|]. cbn. exact (covers_iter fin [] q).
Qed.

(** *** Each goroutine and the payload it was started on *)

Lemma resolvedBy_cons (b a : actor) (X : Type) (c : cmd X) (x : X)
    (tr : list event) :
  resolvedBy b (Ev a c x :: tr)
  = if actor_eqb b a then resolvedBy b tr ++ asked c else resolvedBy b tr.
Proof.
  destruct c; cbn; destruct (actor_eqb b a); rewrite ?app_nil_r; reflexivity.
Qed.

Lemma asksFor_do (q : Query) (seen : list Query) (X : Type) (c : cmd X)
    (k : X -> prog unit) :
  asksFor q seen (Do c k) -> forall x, asksFor q (seen ++ asked c) (k x).
Proof.
  intros H.
  assert (Hnext : forall p, asksFor q seen p ->
            match p with
            | Do c k => forall x, asksFor q (seen ++ asked c) (k x)
            | _ => True
            end).
  { intros p Hp. destruct Hp; auto. }
  exact (Hnext _ H).
Qed.

Lemma asksFor_ret (q : Query) (seen : list Query) (x : unit) :
  asksFor q seen (Ret x) -> seen = [q].
Proof.
  intros H.
  assert (Hnext : forall p, asksFor q seen p ->
            match p with Ret _ => seen = [q] | _ => True end).
  { intros p Hp. destruct Hp; auto. }
  exact (Hnext _ H).
Qed.

Lemma queryTask_asks (buf : slice) (qsize : Z) :
  asksFor (queryOf E (buf, qsize)) [] (queryTask E buf qsize).
Proof.
  unfold queryTask, queryOf, payloadOf. cbn [fst snd].
  destruct (upto buf qsize) as [payload|]; cbn.
  2:{ apply af_do. intros ?. cbn. apply af_panic. }
  destruct (queryNew E (bytes payload) (remoteIP E) (localIP E)) as [q perr].
  cbn [fst].
  assert (Hdeferred : forall recovered b rb qs rs ri err,
            asksFor q [q]
              (deferred E recovered b rb q qs rs ri err ;; call WgDone)).
  { intros recovered b rb qs rs ri err. unfold deferred.
    destruct recovered; cbn;
      repeat (apply af_do; intros ?; cbn);
      apply af_ret; reflexivity. }
  assert (Hrest : forall seen, seen = [] ->
            asksFor q seen
              (rbuf <- call PoolGetLarge ;;
               out <- call (CallResolve q rbuf) ;;
               respond E buf rbuf q qsize perr out ;; call WgDone)).
  { intros seen ->. cbn. apply af_do. intros rbuf. cbn.
    apply af_do. intros out. cbn.
    unfold respond. destruct out as [rsize ri err data|r].
    - destruct (answer E q rbuf rsize err data) as [rsize' rbuf'].
      destruct (upto rbuf' rsize') as [reply|].
      + unfold writeTCP. cbn. apply af_do. intros w1. cbn.
        destruct w1 as [e|]; cbn.
        * apply Hdeferred.
        * apply af_do. intros w2. cbn. apply Hdeferred.
      + apply Hdeferred.
    - apply Hdeferred. }
  destruct perr as [e|]; cbn.
  - apply af_do. intros ?. cbn. apply Hrest. reflexivity.
  - apply Hrest. reflexivity.
Qed.

(** The goroutine started on [b]. *)
Lemma spawnOf_task (X : Type) (c : cmd X) :
  spawnOf E c
  = map (fun b => mkTask (queryTask E (fst b) (snd b)) true true)
        match c with Spawn buf qsize => [(buf, qsize)] | _ => [] end.
Proof. destruct c; reflexivity. Qed.

Lemma advance_asks (A : Type) (a : actor) (ch : nat) (p p' : prog A)
    (s s1 : state) :
  advance E a ch p s = Some (p', s1) ->
  exists d new,
    (forall b, resolvedBy b (trace s1)
               = if actor_eqb b a then resolvedBy b (trace s) ++ d
                 else resolvedBy b (trace s)) /\
    tasks s1
    = tasks s ++ map (fun b => mkTask (queryTask E (fst b) (snd b)) true true) new /\
    spawned (trace s1) = spawned (trace s) ++ new /\
    match p with
    | Do c k => exists x, p' = k x /\ d = asked c
    | _ => p' = p /\ d = []
    end.
Proof.
  intros Ha. destruct p as [x|X c k|r]; cbn in Ha.
  - discriminate.
  - destruct (exec E a ch c s) as [[x s2]|] eqn:Hex; [|discriminate].
    injection Ha as <- <-.
    destruct (exec_shape E _ _ _ _ _ _ _ Hex) as (Htr & Hm & Hts).
    exists (asked c), match c with Spawn buf qsize => [(buf, qsize)] | _ => [] end.
    cbn [trace emit tasks]. rewrite Htr.
    split; [intros b; apply resolvedBy_cons|].
    split; [rewrite Hts, spawnOf_task; reflexivity|].
    split; [apply spawned_cons|eauto].
  - injection Ha as <- <-. exists [], [].
    split; [intros b; cbn; destruct (actor_eqb b a); now rewrite ?app_nil_r|].
    split; [cbn; now rewrite app_nil_r|].
    split; [cbn; now rewrite app_nil_r|auto].
Qed.

(** A goroutine among those of [ts] and those started on [new]. *)
Lemma nth_error_started (ts : list task) (sp new : list (slice * Z)) (i : nat)
    (t : task) :
  List.length sp = List.length ts ->
  nth_error
    (ts ++ map (fun b => mkTask (queryTask E (fst b) (snd b)) true true) new) i
  = Some t ->
  nth_error ts i = Some t \/
  ((List.length ts <= i)%nat /\
   exists b, nth_error (sp ++ new) i = Some b /\
             tcode t = queryTask E (fst b) (snd b)).
Proof.
  intros Hlen Hi. destruct (Nat.lt_ge_cases i (List.length ts)) as [Hlt|Hge].
  - left. rewrite nth_error_app1 in Hi; assumption.
  - right. split; [exact Hge|]. rewrite nth_error_app2 in Hi by exact Hge.
    rewrite nth_error_map in Hi.
    destruct (nth_error new (i - List.length ts)) as [b|] eqn:Hb; [|discriminate].
    injection Hi as <-. exists b. split; [|reflexivity].
    rewrite nth_error_app2 by lia. rewrite Hlen. exact Hb.
Qed.

Lemma Asked_step (m : move) (s s' : state) :
  Asked E s -> step E m s = Some s' -> Asked E s'.
Proof.
  intros [Hcount Hts Hfr] Hst. unfold step in Hst.
  destruct (crashed s); [discriminate|].
  assert (Hmain : forall (A : Type) (ch : nat) (p p' : prog A) s1 m',
            advance E Main ch p s = Some (p', s1) ->
            Asked E (set_main m' s1)).
  { intros A ch p p' s1 m' Ha.
    destruct (advance_asks _ _ _ _ _ _ _ Ha) as (d & new & Hw & Hnew & Hsp & _).
    split; cbn [tasks trace set_main].
    - rewrite Hsp, Hnew, !length_app, length_map. lia.
    - intros i t Hi. rewrite Hnew in Hi. rewrite Hw, Hsp. cbn [actor_eqb].
      destruct (nth_error_started _ _ _ _ _ Hcount Hi) as [Hold|(Hge & b & Hb & Hc)].
      + destruct (Hts i t Hold) as (b & Hb & Hask). exists b.
        split; [|exact Hask]. rewrite nth_error_app1; [exact Hb|].
        apply nth_error_Some. congruence.
      + exists b. split; [exact Hb|]. rewrite (Hfr i Hge), Hc.
        destruct b as [buf qsize]. apply queryTask_asks.
    - intros i Hi. rewrite Hnew, length_app in Hi. rewrite Hw. cbn [actor_eqb].
      apply Hfr. lia. }
  destruct m as [[|i] ch|o].
  - destruct (main s) as [p|p] eqn:Hp.
    + destruct p as [[|e]|X c k|r].
      * injection Hst as <-. split; assumption.
      * injection Hst as <-. split; assumption.
      * destruct (advance E Main ch (Do c k) s) as [[p' s1]|] eqn:Ha;
          [|discriminate].
        injection Hst as <-. eapply Hmain; eauto.
      * destruct (advance E Main ch (Panic r) s) as [[p' s1]|] eqn:Ha;
          [|discriminate].
        injection Hst as <-. eapply Hmain; eauto.
    + destruct (advance E Main ch p s) as [[p' s1]|] eqn:Ha; [|discriminate].
      injection Hst as <-. eapply Hmain; eauto.
  - destruct (nth_error (tasks s) i) as [t|] eqn:Hi; [|discriminate].
    destruct (advance E (Task i) ch (tcode t) s) as [[p' s1]|] eqn:Ha;
      [|discriminate].
    injection Hst as <-.
    destruct (advance_asks _ _ _ _ _ _ _ Ha) as (d & new & Hw & Hnew & Hsp & Hp').
    assert (Hlt : (i < List.length (tasks s))%nat).
    { apply nth_error_Some. congruence. }
    split; cbn [tasks trace set_tasks].
    + rewrite update_length, Hsp, Hnew, !length_app, length_map. lia.
    + intros j t' Hj. rewrite Hw, Hsp. destruct (Nat.eq_dec i j) as [<-|Hne].
      * rewrite (nth_error_update_eq i t) in Hj
          by (rewrite Hnew, nth_error_app1; assumption).
        injection Hj as <-. cbn [tcode moved actor_eqb]. rewrite Nat.eqb_refl.
        destruct (Hts i t Hi) as (b & Hb & Hask). exists b.
        split; [rewrite nth_error_app1; [exact Hb|lia]|].
        destruct (tcode t) as [x|X c k|r].
        -- destruct Hp' as [-> ->]. now rewrite app_nil_r.
        -- destruct Hp' as (x & -> & ->). apply asksFor_do. exact Hask.
        -- destruct Hp' as [-> ->]. apply af_panic.
      * rewrite nth_error_update_neq in Hj by exact Hne.
        rewrite Hnew in Hj.
        replace (actor_eqb (Task j) (Task i)) with false
          by (symmetry; cbn; apply Nat.eqb_neq; congruence).
        destruct (nth_error_started _ _ _ _ _ Hcount Hj)
          as [Hold|(Hge & b & Hb & Hc)].
        -- destruct (Hts j t' Hold) as (b & Hb & Hask). exists b.
           split; [|exact Hask]. rewrite nth_error_app1; [exact Hb|].
           apply nth_error_Some. congruence.
        -- exists b. split; [exact Hb|]. rewrite (Hfr j Hge), Hc.
           destruct b as [buf qsize]. apply queryTask_asks.
    + intros j Hj. rewrite update_length, Hnew, length_app in Hj. rewrite Hw.
      replace (actor_eqb (Task j) (Task i)) with false
        by (symmetry; cbn; apply Nat.eqb_neq; lia).
      apply Hfr. lia.
  - injection Hst as <-. split; assumption.
Qed.

Lemma Asked_reachable (ops : list op) (r : Reader) (s : state) :
  reachable E ops r s -> Asked E s.
Proof.
  intros [ms Hrun].
  assert (Hgen : forall ms s0, Asked E s0 -> run E ms s0 = Some s -> Asked E s).
  { clear. induction ms as [|m ms IH]; intros s0 H0 Hr; cbn in Hr.
    - injection Hr as <-. exact H0.
    - destruct (step E m s0) as [s1|] eqn:Hst; [|discriminate].
      apply (IH s1); [eapply Asked_step; eauto|exact Hr]. }
  apply (Hgen ms _) in Hrun; [exact Hrun|].
  split; cbn; [reflexivity|intros [|i] t Hi; discriminate|reflexivity].
Qed.

(** X21.  What [serveTCPConn] does with the bytes of a connection, under
    any schedule.  The frames it accepts are those of the stream up to the
    first one that is cut short or announces 14 bytes or fewer.  In every
    reachable state the goroutines started so far are, in order, exactly one
    per accepted frame read so far, each on that frame's payload with the
    length prefix removed; a goroutine that has run to its end has called
    the resolver exactly once, on the query parsed from its own frame.  Once
    [serveTCPConn] has returned, every accepted frame has been dispatched and
    resolved exactly once: no frame is skipped, duplicated, or answered from
    another frame's payload. *)
Theorem every_accepted_frame_is_resolved_once (ops : list op) (p : list byte)
    (fin : option string) (s : state) :
  reachable E ops (mkReader p fin) s ->
  (exists rest, started (trace s) ++ rest = accepted p) /\
  List.length (tasks s) = List.length (started (trace s)) /\
  (forall i t, nth_error (tasks s) i = Some t -> finished t = true ->
     exists payload,
       nth_error (accepted p) i = Some payload /\
       resolvedBy (Task i) (trace s)
       = [fst (queryNew E payload (remoteIP E) (localIP E))]) /\
  (forall ret, returned s = Some ret ->
     List.length (tasks s) = List.length (accepted p) /\
     forall i payload, nth_error (accepted p) i = Some payload ->
       resolvedBy (Task i) (trace s)
       = [fst (queryNew E payload (remoteIP E) (localIP E))]).
Proof.
  intros Hreach.
  pose proof (Covered_reachable ops p fin s Hreach) as [Hfin Hmain].
  pose proof (Asked_reachable ops _ s Hreach) as [Hcount Hts Hfr].
  pose proof (Inv_reachable E ops _ s Hreach) as HI.
  assert (Hlen : List.length (tasks s) = List.length (started (trace s))).
  { unfold started. rewrite length_map. symmetry. exact Hcount. }
  assert (Hpre : exists rest, started (trace s) ++ rest = accepted p).
  { destruct (main s) as [c|c].
    - eapply covers_prefix. exact Hmain.
    - exists []. rewrite app_nil_r. exact Hmain. }
  assert (Hdone : forall i t, nth_error (tasks s) i = Some t ->
            finished t = true ->
            exists payload,
              nth_error (accepted p) i = Some payload /\
              resolvedBy (Task i) (trace s)
              = [fst (queryNew E payload (remoteIP E) (localIP E))]).
  { intros i t Hi Hf. destruct (Hts i t Hi) as (b & Hb & Hask).
    unfold finished in Hf. destruct (tcode t) as [x| |]; try discriminate.
    apply asksFor_ret in Hask. exists (payloadOf b). split; [|exact Hask].
    destruct Hpre as [rest <-]. rewrite nth_error_app1.
    - unfold started. rewrite nth_error_map, Hb. reflexivity.
    - rewrite <- Hlen. apply nth_error_Some. congruence. }
  split; [exact Hpre|]. split; [exact Hlen|]. split; [exact Hdone|].
  intros ret Hret.
  destruct (returned_joined E s ret HI Hret) as (_ & Hdead & _).
  pose proof (joined E s HI Hdead) as Hall.
  assert (Hstarted : started (trace s) = accepted p).
  { unfold returned in Hret. destruct (main s) as [c|c]; [discriminate|].
    exact Hmain. }
  split; [rewrite Hlen, Hstarted; reflexivity|].
  intros i payload Hi.
  assert (Hlt : (i < List.length (tasks s))%nat).
  { rewrite Hlen, Hstarted. apply nth_error_Some. congruence. }
  destruct (nth_error (tasks s) i) as [t|] eqn:Ht;
    [|apply nth_error_None in Ht; lia].
  rewrite Forall_forall in Hall.
  destruct (Hall t (nth_error_In _ _ Ht)) as [Hcode _].
  destruct (Hdone i t Ht) as (payload' & Hi' & Hres).
  { unfold finished. rewrite Hcode. reflexivity. }
  rewrite Hi in Hi'. injection Hi' as <-. exact Hres.
Qed.

End DispatchFacts.

Section DispatchRuns.
Import Go BufferPool TCP Demo Dispatch.

(** X21 on the run that serves the example query and sees the client
    close: one frame accepted, one goroutine, one resolver call on the
    query parsed from the frame's 29 payload bytes. *)
Lemma every_accepted_frame_is_resolved_once_witness :
  reachable env [] (mkReader exampleFrame None) (served env exampleFrame) /\
  accepted exampleFrame = [exampleQuery] /\
  resolvedBy (Task 0) (trace (served env exampleFrame))
  = [fst (queryNew env exampleQuery (remoteIP env) (localIP env))].
Proof.
  assert (Hreach : reachable env [] (mkReader exampleFrame None)
                     (served env exampleFrame)).
  { apply run_served. vm_compute. reflexivity. }
  assert (Hret : returned (served env exampleFrame) = Some None).
  { vm_compute. reflexivity. }
  assert (Hacc : nth_error (accepted exampleFrame) 0 = Some exampleQuery).
  { vm_compute. reflexivity. }
  split; [exact Hreach|]. split; [vm_compute; reflexivity|].
  destruct (every_accepted_frame_is_resolved_once env [] exampleFrame None
              (served env exampleFrame) Hreach) as (_ & _ & _ & Hend).
  destruct (Hend None Hret) as [_ Hall].
  exact (Hall 0%nat exampleQuery Hacc).
Defined.

End DispatchRuns.
